(** * Graphing-Game: equation pipeline and curve-following physics

    A shallow embedding of [utils.js], [physics.js], [equations.js],
    [render.js] and [game.js].

    Numbers.  JavaScript numbers are read as real numbers ([R]): [Math.hypot]
    is the Euclidean norm, [Math.min]/[Math.max] are [Rmin]/[Rmax], and the
    comparisons are the decidable order of [R].  Values an evaluator hands
    back may also be [NaN] or an infinity; those are kept apart in [JsValue].
    Rounding of binary64 arithmetic is outside this model, with one
    exception: the samplers' loops are also given with the addition of the
    loop header as a parameter, for which [addNear2p53] is the machine's
    addition between [2^53] and [2^54].

    Mutation.  The source updates ball and star objects in place; the
    embedding passes the updated records back explicitly. *)

From Stdlib Require Import Reals Lra Lia List Bool Arith String Ascii.
From Stdlib Require Import Sorting.Sorted.
From Equations Require Import Equations.
Import ListNotations.

Open Scope R_scope.

(* ===================================================================== *)
(** ** Numeric helpers *)
(* ===================================================================== *)

Definition Rltb (a b : R) : bool := if Rlt_dec a b then true else false.
Definition Rleb (a b : R) : bool := if Rle_dec a b then true else false.
Definition Rgtb (a b : R) : bool := Rltb b a.
Definition Rgeb (a b : R) : bool := Rleb b a.

(** [Math.hypot(x, y)] *)
Definition hypot (x y : R) : R := sqrt (x * x + y * y).




(* ===================================================================== *)
(** ** Polylines *)
(* ===================================================================== *)

(** A polyline vertex [{x, y}]; a break marker is [null], here [None].  The
    sampler of [equations.js] builds polylines, the physics reads them. *)
Record Point := mkPoint { p_x : R; p_y : R }.
Definition Polyline := list (option Point).

(** [arr[arr.length - 1]]: [None] stands for [undefined] (empty array). *)
Fixpoint lastOpt {A : Type} (l : list A) : option A :=
  match l with
  | [] => None
  | x :: rest => match rest with [] => Some x | _ => lastOpt rest end
  end.

(* ===================================================================== *)
(** ** utils.js *)
(* ===================================================================== *)

Module Utils.

(** [clamp = (v, min, max) => Math.max(min, Math.min(max, v))] *)
Definition clamp (v min max : R) : R := Rmax min (Rmin max v).

(** The object [{x, y, t}] returned by [closestPointOnSegment]. *)
Record Closest := mkClosest { q_x : R; q_y : R; q_t : R }.

Definition closestPointOnSegment (px py ax ay bx by_ : R) : Closest :=
  let abx := bx - ax in
  let aby := by_ - ay in
  let apx := px - ax in
  let apy := py - ay in
  let ab2 := abx * abx + aby * aby in
  let t := if Rgtb ab2 0 then (apx * abx + apy * aby) / ab2 else 0 in
  let t := clamp t 0 1 in
  {| q_x := ax + t * abx; q_y := ay + t * aby; q_t := t |}.

(** [normalize(x, y)]: the pair stands for the object [{x, y}]. *)
Definition normalize (x y : R) : R * R :=
  let m := hypot x y in
  if Req_dec_T m 0 then (0, 0) else (x / m, y / m).

(** [reflectVelocityAcrossNormal(vx, vy, nx, ny)]; the pair stands for the
    object [{vx, vy}]. *)
Definition reflectVelocityAcrossNormal (vx vy nx ny : R) : R * R :=
  let dot := vx * nx + vy * ny in
  let rx := vx - 2 * dot * nx in
  let ry := vy - 2 * dot * ny in
  (rx, ry).

(** [class World]: the world rectangle and the canvas size. *)
Record World := mkWorld {
  w_xMin : R; w_xMax : R; w_yMin : R; w_yMax : R;
  w_width : R; w_height : R }.

(** The constructor's defaults. *)
Definition newWorld : World := mkWorld (-10) 10 (-7.5) 7.5 900 600.

Definition setCanvasSize (wd : World) (w h : R) : World :=
  mkWorld (w_xMin wd) (w_xMax wd) (w_yMin wd) (w_yMax wd) w h.

(** A quotient [a / b * c] or [a / b] of the two mappings below.  Where the
    divisor is zero JavaScript yields an infinity or [NaN], and so does
    everything computed from it: [None] stands for such a non-finite
    coordinate. *)
Definition quotient (a b : R) : option R :=
  if Req_dec_T b 0 then None else Some (a / b).

(** [toPixel(x, y)]: the pair stands for the object [{x: px, y: py}]. *)
Definition toPixel (wd : World) (x y : R) : option R * option R :=
  let px :=
    match quotient (x - w_xMin wd) (w_xMax wd - w_xMin wd) with
    | Some q => Some (q * w_width wd)
    | None => None
    end in
  let py :=
    match quotient (y - w_yMin wd) (w_yMax wd - w_yMin wd) with
    | Some q => Some (w_height wd - q * w_height wd)
    | None => None
    end in
  (px, py).

(** [toWorld(px, py)] *)
Definition toWorld (wd : World) (px py : R) : option R * option R :=
  let x :=
    match quotient px (w_width wd) with
    | Some q => Some (w_xMin wd + q * (w_xMax wd - w_xMin wd))
    | None => None
    end in
  let y :=
    match quotient (w_height wd - py) (w_height wd) with
    | Some q => Some (w_yMin wd + q * (w_yMax wd - w_yMin wd))
    | None => None
    end in
  (x, y).

End Utils.

(* ===================================================================== *)
(** ** physics.js *)
(* ===================================================================== *)

Module Physics.
Import Utils.

(** Only [curve.points] is read by the physics. *)
Record Curve := mkCurve { points : Polyline }.

Record Bounds := mkBounds { xMin : R; xMax : R; yMin : R; yMax : R }.

(** [class Ball], with the two fields the functions below add to it:
    [_oob] (absent, hence falsy, on a fresh ball) and [collectionTime]. *)
Record Ball := mkBall {
  b_x : R; b_y : R; b_vx : R; b_vy : R; b_r : R;
  b_collected : bool;
  b_oob : bool;
  b_collectionTime : option R }.

(** [new Ball(x, y, radius)] *)
Definition newBall (x y radius : R) : Ball :=
  mkBall x y 0 0 radius false false None.

(** The object literal [{ a, c, q, dist, tx, ty, nx, ny }] kept in [best]. *)
Record Contact := mkContact {
  k_a : Point; k_c : Point; k_q : Closest; k_dist : R;
  k_tx : R; k_ty : R; k_nx : R; k_ny : R }.

(** Line 19: [b.vy += gravity * dt]. *)
Definition applyGravity (b : Ball) (dt gravity : R) : Ball :=
  mkBall (b_x b) (b_y b) (b_vx b) (b_vy b + gravity * dt) (b_r b)
         (b_collected b) (b_oob b) (b_collectionTime b).

(** Lines 28-33: the ball's circle has left the world rectangle. *)
Definition exited (b : Ball) (bounds : Bounds) : bool :=
  Rltb (b_x b + b_r b) (xMin bounds) ||
  Rgtb (b_x b - b_r b) (xMax bounds) ||
  Rltb (b_y b + b_r b) (yMin bounds) ||
  Rgtb (b_y b - b_r b) (yMax bounds).

(** Line 34: [b._oob = true]. *)
Definition markOob (b : Ball) : Ball :=
  mkBall (b_x b) (b_y b) (b_vx b) (b_vy b) (b_r b)
         (b_collected b) true (b_collectionTime b).

(** Lines 47-51: the broad-phase test; [true] means the segment is skipped. *)
Definition broadReject (b : Ball) (a c : Point) : bool :=
  let minx := Rmin (p_x a) (p_x c) - b_r b - 0.05 in
  let maxx := Rmax (p_x a) (p_x c) + b_r b + 0.05 in
  let miny := Rmin (p_y a) (p_y c) - b_r b - 0.05 in
  let maxy := Rmax (p_y a) (p_y c) + b_r b + 0.05 in
  Rltb (b_x b) minx || Rgtb (b_x b) maxx ||
  Rltb (b_y b) miny || Rgtb (b_y b) maxy.

(** Lines 53-66: the narrow phase for one segment, giving the contact record
    when the ball is within [b.r + 0.02] of it. *)
Definition narrow (b : Ball) (a c : Point) : option Contact :=
  let q := closestPointOnSegment (b_x b) (b_y b) (p_x a) (p_y a) (p_x c) (p_y c) in
  let dx := b_x b - q_x q in
  let dy := b_y b - q_y q in
  let dist := hypot dx dy in
  if Rleb dist (b_r b + 0.02) then
    let sx := p_x c - p_x a in
    let sy := p_y c - p_y a in
    let tnorm := normalize sx sy in
    let guessN := normalize (- snd tnorm) (fst tnorm) in
    let '(nx, ny) :=
      if Rgeb (dx * fst guessN + dy * snd guessN) 0
      then (fst guessN, snd guessN)
      else (- fst guessN, - snd guessN) in
    Some (mkContact a c q dist (fst tnorm) (snd tnorm) nx ny)
  else None.

(** One pass of the inner loop body (lines 43-66) for the pair
    [pts[i], pts[i+1]]: [best] is overwritten whenever the segment qualifies. *)
Definition visit (b : Ball) (a c : option Point) (best : option Contact)
  : option Contact :=
  match a, c with
  | Some a, Some c =>
      if broadReject b a c then best
      else match narrow b a c with
           | Some k => Some k
           | None => best
           end
  | _, _ => best
  end.

(** The inner [for] loop over [i = 0 .. pts.length - 2]. *)
Fixpoint scanPoints (b : Ball) (pts : Polyline) (best : option Contact)
  : option Contact :=
  match pts with
  | a :: rest =>
      match rest with
      | c :: _ => scanPoints b rest (visit b a c best)
      | [] => best
      end
  | [] => best
  end.

(** Lines 39-68: both loops, starting from [best = null]. *)
Definition findBest (b : Ball) (curves : list Curve) : option Contact :=
  fold_left (fun best curve => scanPoints b (points curve) best) curves None.

Definition setPos (b : Ball) (x y : R) : Ball :=
  mkBall x y (b_vx b) (b_vy b) (b_r b)
         (b_collected b) (b_oob b) (b_collectionTime b).

Definition setVel (b : Ball) (vx vy : R) : Ball :=
  mkBall (b_x b) (b_y b) vx vy (b_r b)
         (b_collected b) (b_oob b) (b_collectionTime b).

(** Lines 73-82: the snap onto the surface. *)
Definition snap (b : Ball) (best : Contact) : Ball :=
  let penetration := (b_r b - k_dist best) + 1e-4 in
  if Rgtb penetration 0 then
    setPos b (b_x b + k_nx best * penetration) (b_y b + k_ny best * penetration)
  else
    setPos b (q_x (k_q best) + k_nx best * (b_r b + 1e-4))
             (q_y (k_q best) + k_ny best * (b_r b + 1e-4)).

(** Lines 84-95: the new velocity, along the tangent only. *)
Definition slideVelocity (b : Ball) (best : Contact) (dt gravity : R) : Ball :=
  let tx := k_tx best in
  let ty := k_ty best in
  let vt := b_vx b * tx + b_vy b * ty in
  let gx := 0 in
  let gy := gravity in
  let gt := gx * tx + gy * ty in
  let newVt := vt + gt * dt in
  let newVt := newVt * 0.995 in
  setVel b (newVt * tx) (newVt * ty).

(** Lines 98-99 and 102-103: [b.x += b.vx * dt; b.y += b.vy * dt]. *)
Definition integrate (b : Ball) (dt : R) : Ball :=
  setPos b (b_x b + b_vx b * dt) (b_y b + b_vy b * dt).

(** The body of the outer loop for one ball. *)
Definition updateBall (dt gravity : R) (bounds : Bounds) (curves : list Curve)
           (b : Ball) : Ball :=
  let b := applyGravity b dt gravity in
  if exited b bounds then markOob b
  else match findBest b curves with
       | Some best => integrate (slideVelocity (snap b best) best dt gravity) dt
       | None => integrate b dt
       end.

(** [updateBalls(balls, dt, gravity, bounds, curves)]: every ball of the
    array is updated in turn; the curves are only read. *)
Definition updateBalls (balls : list Ball) (dt gravity : R) (bounds : Bounds)
           (curves : list Curve) : list Ball :=
  map (updateBall dt gravity bounds curves) balls.

(** Successive calls of [updateBalls] on the same array with the same
    bounds; each entry of [ticks] holds the [dt], [gravity] and [curves] of
    one call. *)
Fixpoint runTicks (bounds : Bounds) (ticks : list (R * R * list Curve))
         (balls : list Ball) : list Ball :=
  match ticks with
  | [] => balls
  | (dt, gravity, curves) :: more =>
      runTicks bounds more (updateBalls balls dt gravity bounds curves)
  end.

(** The sum of [gravity * dt] over the calls. *)
Fixpoint gravityGain (ticks : list (R * R * list Curve)) : R :=
  match ticks with
  | [] => 0
  | (dt, gravity, _) :: more => gravity * dt + gravityGain more
  end.

(** *** checkStarCollection *)

(** A star of the level: position, the [collected] flag and the two
    animation fields the function writes ([None] while absent). *)
Record Star := mkStar {
  s_x : R; s_y : R;
  s_collected : bool;
  s_collectedTime : option R;
  s_collectionScale : option R }.

(** The returned object [{ count, newlyCollected }]. *)
Record StarResult := mkStarResult { count : nat; newlyCollected : bool }.

(** What the loops carry along: the balls (mutated in place by the source),
    the number of [performance.now()] readings taken so far, and the two
    local variables. *)
Record CollectState := mkCollectState {
  cs_balls : list Ball;
  cs_clock : nat;
  cs_count : nat;
  cs_newly : bool }.

(** Lines 126-128 on the star. *)
Definition markStar (s : Star) (time : R) : Star :=
  mkStar (s_x s) (s_y s) true (Some time) (Some 1.5).

(** Lines 131-132 on the ball. *)
Definition markBall (b : Ball) (time : R) : Ball :=
  mkBall (b_x b) (b_y b) (b_vx b) (b_vy b) (b_r b) true (b_oob b) (Some time).

(** The inner loop (lines 118-138) from the ball list [todo] on, with the
    balls already passed kept in [seen]; [now k] is the value of the k-th
    call of [performance.now()].  It stops at the first ball in range. *)
Fixpoint scanBalls (now : nat -> R) (radius : R) (s : Star)
         (seen todo : list Ball) (st : CollectState) : Star * CollectState :=
  match todo with
  | [] => (s, st)
  | b :: rest =>
      let d := hypot (b_x b - s_x s) (b_y b - s_y s) in
      if Rleb d (b_r b + radius) then
        if negb (s_collected s) then
          let s' := markStar s (now (cs_clock st)) in
          let b' := markBall b (now (S (cs_clock st))) in
          (s', mkCollectState (seen ++ b' :: rest) (S (S (cs_clock st)))
                              (S (cs_count st)) true)
        else
          (s, mkCollectState (cs_balls st) (cs_clock st)
                             (S (cs_count st)) (cs_newly st))
      else scanBalls now radius s (seen ++ [b]) rest st
  end.

(** The outer loop (lines 112-139). *)
Fixpoint scanStars (now : nat -> R) (radius : R) (stars : list Star)
         (st : CollectState) : list Star * CollectState :=
  match stars with
  | [] => ([], st)
  | s :: rest =>
      if s_collected s then
        let st' := mkCollectState (cs_balls st) (cs_clock st)
                                  (S (cs_count st)) (cs_newly st) in
        let '(rest', st'') := scanStars now radius rest st' in
        (s :: rest', st'')
      else
        let '(s', st') := scanBalls now radius s [] (cs_balls st) st in
        let '(rest', st'') := scanStars now radius rest st' in
        (s' :: rest', st'')
  end.

(** [checkStarCollection(balls, stars, radius)]; the source's default for
    [radius] is [0.3].  [clock] counts the readings of [performance.now()]
    taken before the call.  The result comes with the stars and balls as the
    call leaves them and the advanced clock. *)
Definition checkStarCollection (now : nat -> R) (clock : nat)
           (balls : list Ball) (stars : list Star) (radius : R)
  : StarResult * list Star * list Ball * nat :=
  let '(stars', st) :=
    scanStars now radius stars (mkCollectState balls clock 0%nat false) in
  (mkStarResult (cs_count st) (cs_newly st), stars', cs_balls st, cs_clock st).

Definition defaultRadius : R := 0.3.

(** A run of successive calls on one shared star array, one call per entry
    of [frames] (the balls handed to that call and its capture radius).  For
    each call, in order: its result and the stars as it leaves them. *)
Fixpoint collectRun (now : nat -> R) (clock : nat)
         (frames : list (list Ball * R)) (stars : list Star)
  : list (StarResult * list Star) :=
  match frames with
  | [] => []
  | (balls, radius) :: more =>
      let '(res, stars', _, clock') :=
        checkStarCollection now clock balls stars radius in
      (res, stars') :: collectRun now clock' more stars'
  end.

(** Line 119-120: the ball's centre is within [b.r + radius] of the star. *)
Definition reaches (radius : R) (s : Star) (b : Ball) : bool :=
  Rleb (hypot (b_x b - s_x s) (b_y b - s_y s)) (b_r b + radius).

(** What the collection may do to a ball: set [collected] and stamp the
    time; position, velocity, radius and the out-of-bounds flag stay. *)
Definition onlyMarked (b b' : Ball) : Prop :=
  b_x b' = b_x b /\ b_y b' = b_y b /\ b_vx b' = b_vx b /\ b_vy b' = b_vy b /\
  b_r b' = b_r b /\ b_oob b' = b_oob b /\
  (b_collected b = true -> b_collected b' = true).

(** The number of stars whose [collected] flag is set. *)
Definition countCollected (stars : list Star) : nat :=
  List.length (filter s_collected stars).

(** *** Contact selection without the broad phase

    The spec's reading of the contact search: every segment is judged by the
    exact closest-point distance alone. *)
Definition visit_exact (b : Ball) (a c : option Point) (best : option Contact)
  : option Contact :=
  match a, c with
  | Some a, Some c =>
      match narrow b a c with
      | Some k => Some k
      | None => best
      end
  | _, _ => best
  end.

Fixpoint scanPoints_exact (b : Ball) (pts : Polyline) (best : option Contact)
  : option Contact :=
  match pts with
  | a :: rest =>
      match rest with
      | c :: _ => scanPoints_exact b rest (visit_exact b a c best)
      | [] => best
      end
  | [] => best
  end.

Definition findBest_exact (b : Ball) (curves : list Curve) : option Contact :=
  fold_left (fun best curve => scanPoints_exact b (points curve) best)
            curves None.

(** The segments the two loops visit, in visiting order: the pairs of
    neighbouring vertices of each curve, leaving out pairs with a break. *)
Fixpoint segmentsOf (pts : Polyline) : list (Point * Point) :=
  match pts with
  | a :: rest =>
      match rest with
      | c :: _ =>
          match a, c with
          | Some a', Some c' => (a', c') :: segmentsOf rest
          | _, _ => segmentsOf rest
          end
      | [] => []
      end
  | [] => []
  end.

Definition allSegments (curves : list Curve) : list (Point * Point) :=
  flat_map (fun curve => segmentsOf (points curve)) curves.

(** A segment qualifies when its closest point is within [b.r + 0.02]. *)
Definition inRange (b : Ball) (seg : Point * Point) : bool :=
  let q := closestPointOnSegment (b_x b) (b_y b)
             (p_x (fst seg)) (p_y (fst seg)) (p_x (snd seg)) (p_y (snd seg)) in
  Rleb (hypot (b_x b - q_x q) (b_y b - q_y q)) (b_r b + 0.02).

(** Distance from the ball's centre to a segment. *)
Definition distTo (b : Ball) (seg : Point * Point) : R :=
  let q := closestPointOnSegment (b_x b) (b_y b)
             (p_x (fst seg)) (p_y (fst seg)) (p_x (snd seg)) (p_y (snd seg)) in
  hypot (b_x b - q_x q) (b_y b - q_y q).

End Physics.

(* ===================================================================== *)
(** ** equations.js *)
(* ===================================================================== *)

(** What a call of a compiled function does: it throws or hands back a
    value. *)
Inductive Outcome (A : Type) : Type :=
| Throws : Outcome A
| Returns : A -> Outcome A.
Arguments Throws {A}.
Arguments Returns {A} _.

(** The values an evaluator can hand back: a finite number, one of the three
    non-finite numbers, or something that is not a number at all (for which
    [Number.isFinite] is false as well). *)
Inductive JsValue : Type :=
| VNum (r : R)
| VNaN
| VPosInf
| VNegInf
| VOther.

Definition Evaluator := R -> Outcome JsValue.

(** A domain predicate as the sampler calls it: the truthiness of what
    [cond(x, y)] returns, unless the call throws. *)
Definition Predicate := R -> R -> Outcome bool.

Module Text.

Local Open Scope char_scope.
Local Open Scope nat_scope.

(** Strings are sequences of 8-bit code units. *)

Definition code (c : ascii) : nat := nat_of_ascii c.

Definition isDigit (c : ascii) : bool := (48 <=? code c) && (code c <=? 57).
Definition isUpper (c : ascii) : bool := (65 <=? code c) && (code c <=? 90).
Definition isLower (c : ascii) : bool := (97 <=? code c) && (code c <=? 122).
Definition isLetter (c : ascii) : bool := isUpper c || isLower c.

(** [\w] *)
Definition isWord (c : ascii) : bool := isLetter c || isDigit c || Ascii.eqb c "_".

(** [\s], and the characters [trim()] removes: tab, LF, VT, FF, CR, space
    and the no-break space. *)
Definition isSpace (c : ascii) : bool :=
  ((9 <=? code c) && (code c <=? 13)) || (code c =? 32) || (code c =? 160).

(** [[xy]] under the [i] flag. *)
Definition isXY (c : ascii) : bool :=
  Ascii.eqb c "x" || Ascii.eqb c "y" || Ascii.eqb c "X" || Ascii.eqb c "Y".

Definition isWordOpt (c : option ascii) : bool :=
  match c with Some c => isWord c | None => false end.

Definition headOpt (s : string) : option ascii :=
  match s with String c _ => Some c | EmptyString => None end.

(** The run of [\s*] at the front of [s]: its length and what follows. *)
Fixpoint spanWs (s : string) : nat * string :=
  match s with
  | String c t =>
      if isSpace c then let '(n, r) := spanWs t in (S n, r) else (0, s)
  | EmptyString => (0, EmptyString)
  end.

Fixpoint allWs (s : string) : bool :=
  match s with
  | String c t => isSpace c && allWs t
  | EmptyString => true
  end.

Fixpoint trimStart (s : string) : string :=
  match s with
  | String c t => if isSpace c then trimStart t else s
  | EmptyString => EmptyString
  end.

Fixpoint trimEnd (s : string) : string :=
  match s with
  | String c t => if isSpace c && allWs t then EmptyString else String c (trimEnd t)
  | EmptyString => EmptyString
  end.

(** [s.trim()] *)
Definition trim (s : string) : string := trimEnd (trimStart s).

(** [toLowerCase()] on 8-bit code units. *)
Definition lowerChar (c : ascii) : ascii :=
  if isUpper c then ascii_of_nat (code c + 32)
  else if (192 <=? code c) && (code c <=? 222) && negb (code c =? 215)
       then ascii_of_nat (code c + 32)
       else c.

Fixpoint toLowerCase (s : string) : string :=
  match s with
  | String c t => String (lowerChar c) (toLowerCase t)
  | EmptyString => EmptyString
  end.

(** A regular expression read as a matcher at one position: given the
    character before the position ([None] at the start of the input) and the
    text from the position on, it answers the length of the match and the
    text that [replace] puts in its place. *)
Definition Matcher := option ascii -> string -> option (nat * string).

(** [s.replace(/.../g, ...)]: the leftmost match is replaced and the search
    resumes right behind it; [skip] counts the characters of the current
    match still to be passed over.  None of the patterns below matches the
    empty string. *)
Fixpoint replaceFrom (m : Matcher) (skip : nat) (prev : option ascii)
         (s : string) : string :=
  match s with
  | EmptyString => EmptyString
  | String c t =>
      match skip with
      | S k => replaceFrom m k (Some c) t
      | O =>
          match m prev s with
          | Some (len, repl) => (repl ++ replaceFrom m (pred len) (Some c) t)%string
          | None => String c (replaceFrom m 0 (Some c) t)
          end
      end
  end.

Definition replaceAll (m : Matcher) (s : string) : string :=
  replaceFrom m 0 None s.

(** The character is not the given one. *)
Definition isNot (c0 c : ascii) : bool := negb (Ascii.eqb c c0).

End Text.

Module EquationsJs.
Import Text.

Local Open Scope string_scope.

Definition ALLOWED_IDENTIFIERS : list string :=
  [ "x"; "y";
    "PI"; "E";
    "sin"; "cos"; "tan"; "asin"; "acos"; "atan"; "atan2";
    "abs"; "sqrt"; "pow"; "log"; "exp"; "min"; "max";
    "floor"; "ceil"; "round"; "sign" ].

(** [ALLOWED_IDENTIFIERS.has(id)] *)
Definition allowed (id : string) : bool :=
  existsb (String.eqb id) ALLOWED_IDENTIFIERS.

(** *** The patterns of [sanitizeExpression] *)

(** [/^[yx]\s*=\s*/i], replaced by the empty string. *)
Definition stripLeadingVar (s : string) : string :=
  match s with
  | String v rest =>
      if isXY v then
        match snd (spanWs rest) with
        | String "=" rest' => snd (spanWs rest')
        | _ => s
        end
      else s
  | EmptyString => s
  end.

(** [/\^/g] to ['**'] *)
Definition caret : Matcher := fun _ s =>
  match s with
  | String "^" _ => Some (1%nat, "**")
  | _ => None
  end.

(** [/\bln\s*\(/gi] to ['log('] *)
Definition lnCall : Matcher := fun prev s =>
  match s with
  | String l (String n rest) =>
      if negb (isWordOpt prev)
         && (Ascii.eqb l "l" || Ascii.eqb l "L")
         && (Ascii.eqb n "n" || Ascii.eqb n "N")
      then
        let '(k, r) := spanWs rest in
        match r with
        | String "(" _ => Some ((2 + k + 1)%nat, "log(")
        | _ => None
        end
      else None
  | _ => None
  end.

(** [/(\d)\s*([xy])\b/gi] to ['$1*$2'] *)
Definition digitVar : Matcher := fun _ s =>
  match s with
  | String d rest =>
      if isDigit d then
        let '(k, r) := spanWs rest in
        match r with
        | String v after =>
            if isXY v && negb (isWordOpt (headOpt after))
            then Some ((1 + k + 1)%nat, String d (String "*" (String v EmptyString)))
            else None
        | EmptyString => None
        end
      else None
  | EmptyString => None
  end.

(** [/\b([xy])\s*(\d)/gi] to ['$1*$2'] *)
Definition varDigit : Matcher := fun prev s =>
  match s with
  | String v rest =>
      if negb (isWordOpt prev) && isXY v then
        let '(k, r) := spanWs rest in
        match r with
        | String d _ =>
            if isDigit d
            then Some ((1 + k + 1)%nat, String v (String "*" (String d EmptyString)))
            else None
        | EmptyString => None
        end
      else None
  | EmptyString => None
  end.

(** [/\b([xy])\s*\(/gi] to ['$1*('] *)
Definition varParen : Matcher := fun prev s =>
  match s with
  | String v rest =>
      if negb (isWordOpt prev) && isXY v then
        let '(k, r) := spanWs rest in
        match r with
        | String "(" _ => Some ((1 + k + 1)%nat, String v "*(")
        | _ => None
        end
      else None
  | EmptyString => None
  end.

(** [/\)\s*([xy])\b/gi] to [')*$1'] *)
Definition parenVar : Matcher := fun _ s =>
  match s with
  | String ")" rest =>
      let '(k, r) := spanWs rest in
      match r with
      | String v after =>
          if isXY v && negb (isWordOpt (headOpt after))
          then Some ((1 + k + 1)%nat, ")*" ++ String v EmptyString)
          else None
      | EmptyString => None
      end
  | _ => None
  end.

(** [/\)\s*\(/g] to [')*('] *)
Definition parenParen : Matcher := fun _ s =>
  match s with
  | String ")" rest =>
      let '(k, r) := spanWs rest in
      match r with
      | String "(" _ => Some ((1 + k + 1)%nat, ")*(")
      | _ => None
      end
  | _ => None
  end.

Definition sanitizeExpression (input : string) : string :=
  let expr := trim input in
  let expr := stripLeadingVar expr in
  let expr := replaceAll caret expr in
  let expr := replaceAll lnCall expr in
  let expr := replaceAll digitVar expr in
  let expr := replaceAll varDigit expr in
  let expr := replaceAll varParen expr in
  let expr := replaceAll parenVar expr in
  let expr := replaceAll parenParen expr in
  expr.

(** *** Validation *)

(** A thrown [Error] is kept as its message. *)
Inductive Result (A : Type) : Type :=
| Ok : A -> Result A
| Err : string -> Result A.
Arguments Ok {A} _.
Arguments Err {A} _.

(** The characters [/[^0-9+\-*/^()\. ,a-zA-Z_]/] does not flag. *)
Definition exprChar (c : ascii) : bool :=
  isDigit c || isLetter c ||
  existsb (Ascii.eqb c)
    ["+"; "-"; "*"; "/"; "^"; "("; ")"; "."; " "; ","; "_"]%char.

(** The same for [/[^0-9+\-*/^()\. ,a-zA-Z_<>!=&|]/]. *)
Definition condChar (c : ascii) : bool :=
  exprChar c || existsb (Ascii.eqb c) ["<"; ">"; "!"; "="; "&"; "|"]%char.

Fixpoint allChars (ok : ascii -> bool) (s : string) : bool :=
  match s with
  | String c t => ok c && allChars ok t
  | EmptyString => true
  end.

(** [expr.match(/[A-Za-z_][A-Za-z0-9_]*/g) || []]: [cur] is the identifier
    being read, empty when the scan is between identifiers. *)
Fixpoint identsFrom (cur : string) (s : string) : list string :=
  match s with
  | String c t =>
      match cur with
      | EmptyString =>
          if isLetter c || Ascii.eqb c "_"
          then identsFrom (String c EmptyString) t
          else identsFrom EmptyString t
      | _ =>
          if isWord c
          then identsFrom (cur ++ String c EmptyString) t
          else cur :: identsFrom EmptyString t
      end
  | EmptyString =>
      match cur with
      | EmptyString => []
      | _ => [cur]
      end
  end.

Definition identifiers (s : string) : list string := identsFrom EmptyString s.

(** The [for (const id of found)] loop: the first identifier that is not
    allowed, if any. *)
Definition firstUnknown (ids : list string) : option string :=
  find (fun id => negb (allowed id)) ids.

Definition validateExpression (expr : string) : Result unit :=
  if negb (allChars exprChar expr) then Err "Invalid characters in expression"
  else match firstUnknown (identifiers expr) with
       | Some id => Err ("Unknown identifier: " ++ id)
       | None => Ok tt
       end.

Definition validateCondition (expr : string) : Result unit :=
  if negb (allChars condChar expr) then Err "Invalid characters in condition"
  else match firstUnknown (identifiers expr) with
       | Some id => Err ("Unknown identifier in condition: " ++ id)
       | None => Ok tt
       end.

(** *** extractCondition *)

(** The rest of the condition pattern read right behind an opening brace:
    characters other than a closing brace, the closing brace, then only
    white space up to the end of the input.  Answers the captured text. *)
Fixpoint closeBrace (s : string) : option string :=
  match s with
  | String c t =>
      if Ascii.eqb c "}" then (if allWs t then Some EmptyString else None)
      else match closeBrace t with
           | Some cap => Some (String c cap)
           | None => None
           end
  | EmptyString => None
  end.

(** The leftmost match of the pattern of [extractCondition] (an opening
    brace followed by the above): the text before it
    ([raw.slice(0, m.index)]) and the capture. *)
Fixpoint findCondition (before : string) (s : string) : option (string * string) :=
  match s with
  | String c t =>
      if Ascii.eqb c "{" then
        match closeBrace t with
        | Some cap => Some (before, cap)
        | None => findCondition (before ++ String c EmptyString) t
        end
      else findCondition (before ++ String c EmptyString) t
  | EmptyString => None
  end.

(** The pair stands for [{ base, condSrc }]; [None] is [null]. *)
Definition extractCondition (raw : string) : string * option string :=
  match findCondition EmptyString raw with
  | None => (raw, None)
  | Some (before, cap) => (trim before, Some (trim cap))
  end.

(** [/^x\s*=/.test(s)] *)
Definition startsWithXEquals (s : string) : bool :=
  match s with
  | String "x" rest =>
      match snd (spanWs rest) with
      | String "=" _ => true
      | _ => false
      end
  | _ => false
  end.

(** *** Compilation

    [new Function] belongs to the JavaScript engine.  It is taken as a
    parameter: [compileExpr v expr] is the function built by
    [new Function(v, 'Math', ...return (expr);)] applied to [Math], and
    [compileCond expr] the one built by
    [new Function('x','y','Math', ...return !!(expr);)]; [None] means the
    constructor threw. *)
Record Engine := mkEngine {
  compileExpr : string -> string -> option Evaluator;
  compileCond : string -> option Predicate }.

Definition buildFunction (E : Engine) (expr : string) : Result Evaluator :=
  match compileExpr E "x" expr with
  | Some f => Ok f
  | None => Err "Failed to parse expression"
  end.

Definition buildFunctionForY (E : Engine) (expr : string) : Result Evaluator :=
  match compileExpr E "y" expr with
  | Some g => Ok g
  | None => Err "Failed to parse expression for x as a function of y"
  end.

(** [a - b] and [a / c] on the values of the model; a value that is not a
    number is coerced to [NaN], as the functions of [Math] are. *)
Definition jsSub (a b : JsValue) : JsValue :=
  match a, b with
  | VNum x, VNum y => VNum (x - y)
  | VNum _, VPosInf => VNegInf
  | VNum _, VNegInf => VPosInf
  | VPosInf, VNum _ => VPosInf
  | VNegInf, VNum _ => VNegInf
  | VPosInf, VNegInf => VPosInf
  | VNegInf, VPosInf => VNegInf
  | _, _ => VNaN
  end.

(** Division by a positive finite constant. *)
Definition jsDivPos (a : JsValue) (c : R) : JsValue :=
  match a with
  | VNum x => VNum (x / c)
  | VPosInf => VPosInf
  | VNegInf => VNegInf
  | _ => VNaN
  end.

(** [(x) => (f(x + h) - f(x - h)) / (2 * h)] with [h = 1e-4] *)
Definition centralDifference (f : Evaluator) : Evaluator := fun x =>
  let h := 1e-4%R in
  match f (x + h)%R with
  | Throws => Throws
  | Returns a =>
      match f (x - h)%R with
      | Throws => Throws
      | Returns b => Returns (jsDivPos (jsSub a b) (2 * h)%R)
      end
  end.

Definition buildDerivative (E : Engine) (expr : string) : Result Evaluator :=
  match buildFunction E expr with
  | Ok f => Ok (centralDifference f)
  | Err e => Err e
  end.

Definition buildDerivativeForY (E : Engine) (expr : string) : Result Evaluator :=
  match buildFunctionForY E expr with
  | Ok g => Ok (centralDifference g)
  | Err e => Err e
  end.

Inductive Orientation := yOfX | xOfY.

(** The object [{ expr, f, df, type, cond }]. *)
Record Parsed := mkParsed {
  expr : string;
  f : Evaluator;
  df : Evaluator;
  type : Orientation;
  cond : option Predicate }.

(** Lines 205-223: the optional condition. *)
Definition buildCondition (E : Engine) (condSrc : option string)
  : Result (option Predicate) :=
  match condSrc with
  | None => Ok None
  | Some EmptyString => Ok None
  | Some src =>
      let condExpr := sanitizeExpression src in
      match validateCondition condExpr with
      | Err e => Err e
      | Ok _ =>
          match compileCond E condExpr with
          | None => Err "Failed to parse condition"
          | Some cfun =>
              Ok (Some (fun x y =>
                          match cfun x y with
                          | Returns v => Returns v
                          | Throws => Returns false
                          end))
          end
      end
  end.

Definition parseEquationToFunction (E : Engine) (input : string) : Result Parsed :=
  let raw := trim input in
  let '(base, condSrc) := extractCondition raw in
  let isXofY := startsWithXEquals (toLowerCase base) in
  match buildCondition E condSrc with
  | Err e => Err e
  | Ok cond =>
      let expr := sanitizeExpression base in
      match validateExpression expr with
      | Err e => Err e
      | Ok _ =>
          if isXofY then
            match buildFunctionForY E expr with
            | Err e => Err e
            | Ok g =>
                match buildDerivativeForY E expr with
                | Err e => Err e
                | Ok dg => Ok (mkParsed expr g dg xOfY cond)
                end
            end
          else
            match buildFunction E expr with
            | Err e => Err e
            | Ok f =>
                match buildDerivative E expr with
                | Err e => Err e
                | Ok df => Ok (mkParsed expr f df yOfX cond)
                end
            end
      end
  end.

(** *** sampleCurve *)

Local Open Scope R_scope.

Definition MAX_DEPTH : nat := 12.
Definition TOL : R := 0.01.
Definition MAX_Y : R := 1e6.
Definition MAX_X : R := 1e6.

(** [pts.push(p)] *)
Definition push (pts : Polyline) (p : option Point) : Polyline :=
  (pts ++ [p])%list.

(** [addBreak()]: push [null] unless the array already ends with one. *)
Definition addBreak (pts : Polyline) : Polyline :=
  match lastOpt pts with
  | None => push pts None
  | Some (Some _) => push pts None
  | Some None => pts
  end.

(** The accepting branch of [subdivide] (lines 301-305). *)
Definition accept (x0 y0 xm ym x1 y1 : R) (pts : Polyline) : Polyline :=
  let pts :=
    match lastOpt pts with
    | None | Some None => push pts (Some (mkPoint x0 y0))
    | Some (Some _) => pts
    end in
  let pts :=
    match lastOpt pts with
    | None | Some None => push pts (Some (mkPoint xm ym))
    | Some (Some last) =>
        if Rgtb (Rabs (xm - p_x last)) 1e-9
        then push pts (Some (mkPoint xm ym)) else pts
    end in
  if Rgtb (Rabs (x1 - xm)) 1e-9 then push pts (Some (mkPoint x1 y1)) else pts.

(** [err > TOL || steepJump] (lines 293-296).  When [x1 = x0] the quotient
    is [0/0], the interpolated value is [NaN] and [err > TOL] is false. *)
Definition needsSplit (x0 y0 xm ym x1 y1 : R) : bool :=
  let errTooBig :=
    if Req_dec_T x1 x0 then false
    else
      let yl := y0 + (y1 - y0) * ((xm - x0) / (x1 - x0)) in
      let err := Rabs (ym - yl) in
      Rgtb err TOL in
  let steepJump := Rgtb (Rabs (y1 - y0)) (10 / Rmax 1e-6 (x1 - x0)) in
  errTooBig || steepJump.

(** The cleaning loop both samplers end with (lines 322-332, 125-133). *)
Definition cleanStep (out : Polyline) (p : option Point) : Polyline :=
  match p with
  | None =>
      match lastOpt out with
      | Some (Some _) => push out None
      | _ => out
      end
  | Some p =>
      match lastOpt out with
      | None | Some None => push out (Some p)
      | Some (Some l) =>
          if Rgtb (hypot (p_x p - p_x l) (p_y p - p_y l)) 1e-9
          then push out (Some p) else out
      end
  end.

Definition cleanUp (pts : Polyline) : Polyline := fold_left cleanStep pts [].

(** Two neighbouring entries of a polyline as the data model wants them: not
    two breaks, and not two points within [1e-9] of each other. *)
Definition pairOK (a b : option Point) : Prop :=
  match a, b with
  | None, None => False
  | Some p, Some q => 1e-9 < hypot (p_x q - p_x p) (p_y q - p_y p)
  | _, _ => True
  end.

Fixpoint neighboursOK (l : Polyline) : Prop :=
  match l with
  | a :: rest =>
      match rest with
      | b :: _ => pairOK a b /\ neighboursOK rest
      | [] => True
      end
  | [] => True
  end.

(** The abscissas, and the ordinates, of the points of a polyline, in
    order, breaks left out. *)
Definition xsOf (l : Polyline) : list R :=
  flat_map (fun o => match o with Some p => [p_x p] | None => [] end) l.

Definition ysOf (l : Polyline) : list R :=
  flat_map (fun o => match o with Some p => [p_y p] | None => [] end) l.

Definition noLeadingBreak (l : Polyline) : Prop :=
  match l with
  | None :: _ => False
  | _ => True
  end.




Section SampleCurve.

Variable f : Evaluator.
Variable cond : option Predicate.

Definition safeEval (x : R) : option R :=
  match f x with
  | Throws => None
  | Returns (VNum y) =>
      if Rgtb (Rabs y) MAX_Y then None
      else match cond with
           | None => Some y
           | Some c =>
               match c x y with
               | Returns true => Some y
               | Returns false => None
               | Throws => None
               end
           end
  | Returns _ => None
  end.

(** [subdivide(x0, y0, x1, y1, depth)], the array [pts] passed along. *)
Equations? subdivide (x0 : R) (y0 : option R) (x1 : R) (y1 : option R)
          (depth : nat) (pts : Polyline) : Polyline
  by wf (MAX_DEPTH - depth)%nat lt :=
  subdivide x0 None x1 None depth pts := addBreak pts;
  subdivide x0 None x1 (Some y1) depth pts with le_dec MAX_DEPTH depth := {
    | left _ := addBreak pts
    | right _ :=
        subdivide (0.5 * (x0 + x1)) (safeEval (0.5 * (x0 + x1))) x1 (Some y1)
          (S depth)
          (subdivide x0 None (0.5 * (x0 + x1)) (safeEval (0.5 * (x0 + x1)))
             (S depth) pts) };
  subdivide x0 (Some y0) x1 None depth pts with le_dec MAX_DEPTH depth := {
    | left _ := addBreak pts
    | right _ :=
        subdivide (0.5 * (x0 + x1)) (safeEval (0.5 * (x0 + x1))) x1 None
          (S depth)
          (subdivide x0 (Some y0) (0.5 * (x0 + x1)) (safeEval (0.5 * (x0 + x1)))
             (S depth) pts) };
  subdivide x0 (Some y0) x1 (Some y1) depth pts
    with safeEval (0.5 * (x0 + x1)), le_dec MAX_DEPTH depth := {
    | None, left _ := addBreak pts
    | None, right _ :=
        subdivide (0.5 * (x0 + x1)) None x1 (Some y1) (S depth)
          (subdivide x0 (Some y0) (0.5 * (x0 + x1)) None (S depth) pts)
    | Some ym, left _ := accept x0 y0 (0.5 * (x0 + x1)) ym x1 y1 pts
    | Some ym, right _ with needsSplit x0 y0 (0.5 * (x0 + x1)) ym x1 y1 := {
        | true :=
            subdivide (0.5 * (x0 + x1)) (Some ym) x1 (Some y1) (S depth)
              (subdivide x0 (Some y0) (0.5 * (x0 + x1)) (Some ym) (S depth) pts)
        | false := accept x0 y0 (0.5 * (x0 + x1)) ym x1 y1 pts } }.
Proof.
  all: clear subdivide; unfold MAX_DEPTH in *;
    do 12 (destruct depth as [|depth]; [lia|]); lia.
Qed.

(** The [for] loop of lines 313-319; one unit of [fuel] per test of the loop
    condition, [None] when the fuel runs out.  The numbers are exact here, so
    [x1 + coarse] moves [x1] forward whenever [coarse] is positive;
    [sampleLoopWith] below takes the addition as a parameter. *)
Fixpoint sampleLoop (fuel : nat) (xMax coarse : R)
         (x0 : R) (y0 : option R) (x1 : R) (pts : Polyline) : option Polyline :=
  match fuel with
  | O => None
  | S fuel' =>
      if Rltb x0 (xMax + 1e-9) then
        let y1 := safeEval x1 in
        let pts := subdivide x0 y0 x1 y1 0 pts in
        if Rgeb x1 xMax then Some pts
        else sampleLoop fuel' xMax coarse x1 y1 (Rmin (x1 + coarse) xMax) pts
      else Some pts
  end.

(** [sampleCurve(f, xMin, xMax, step, cond)]; the source's defaults are
    [step = 0.1] and [cond = null]. *)
Definition sampleCurve (fuel : nat) (xMin xMax step : R) : option Polyline :=
  let coarse := Rmax step ((xMax - xMin) / 64) in
  let x0 := xMin in
  let y0 := safeEval x0 in
  match sampleLoop fuel xMax coarse x0 y0 (Rmin (x0 + coarse) xMax) [] with
  | Some pts => Some (cleanUp pts)
  | None => None
  end.



End SampleCurve.

(** *** sampleCurveY *)

(** The accepting branch of the second [subdivide] (lines 107-110): the
    sampled axis is [y], the points are [{ x: g(y), y }]. *)
Definition acceptY (y0 x0 ym xm y1 x1 : R) (pts : Polyline) : Polyline :=
  let pts :=
    match lastOpt pts with
    | None | Some None => push pts (Some (mkPoint x0 y0))
    | Some (Some _) => pts
    end in
  let pts :=
    match lastOpt pts with
    | None | Some None => push pts (Some (mkPoint xm ym))
    | Some (Some last) =>
        if Rgtb (Rabs (ym - p_y last)) 1e-9
        then push pts (Some (mkPoint xm ym)) else pts
    end in
  if Rgtb (Rabs (y1 - ym)) 1e-9 then push pts (Some (mkPoint x1 y1)) else pts.

Section SampleCurveY.

Variable g : Evaluator.
Variable cond : option Predicate.

Definition safeEvalY (y : R) : option R :=
  match g y with
  | Throws => None
  | Returns (VNum x) =>
      if Rgtb (Rabs x) MAX_X then None
      else match cond with
           | None => Some x
           | Some c =>
               match c x y with
               | Returns true => Some x
               | Returns false => None
               | Throws => None
               end
           end
  | Returns _ => None
  end.

(** [subdivide(y0, x0, y1, x1, depth)] of [sampleCurveY]; lines 100-103
    are lines 293-296 with the two axes exchanged, hence [needsSplit]. *)
Equations? subdivideY (y0 : R) (x0 : option R) (y1 : R) (x1 : option R)
          (depth : nat) (pts : Polyline) : Polyline
  by wf (MAX_DEPTH - depth)%nat lt :=
  subdivideY y0 None y1 None depth pts := addBreak pts;
  subdivideY y0 None y1 (Some x1) depth pts with le_dec MAX_DEPTH depth := {
    | left _ := addBreak pts
    | right _ :=
        subdivideY (0.5 * (y0 + y1)) (safeEvalY (0.5 * (y0 + y1))) y1 (Some x1)
          (S depth)
          (subdivideY y0 None (0.5 * (y0 + y1)) (safeEvalY (0.5 * (y0 + y1)))
             (S depth) pts) };
  subdivideY y0 (Some x0) y1 None depth pts with le_dec MAX_DEPTH depth := {
    | left _ := addBreak pts
    | right _ :=
        subdivideY (0.5 * (y0 + y1)) (safeEvalY (0.5 * (y0 + y1))) y1 None
          (S depth)
          (subdivideY y0 (Some x0) (0.5 * (y0 + y1)) (safeEvalY (0.5 * (y0 + y1)))
             (S depth) pts) };
  subdivideY y0 (Some x0) y1 (Some x1) depth pts
    with safeEvalY (0.5 * (y0 + y1)), le_dec MAX_DEPTH depth := {
    | None, left _ := addBreak pts
    | None, right _ :=
        subdivideY (0.5 * (y0 + y1)) None y1 (Some x1) (S depth)
          (subdivideY y0 (Some x0) (0.5 * (y0 + y1)) None (S depth) pts)
    | Some xm, left _ := acceptY y0 x0 (0.5 * (y0 + y1)) xm y1 x1 pts
    | Some xm, right _ with needsSplit y0 x0 (0.5 * (y0 + y1)) xm y1 x1 := {
        | true :=
            subdivideY (0.5 * (y0 + y1)) (Some xm) y1 (Some x1) (S depth)
              (subdivideY y0 (Some x0) (0.5 * (y0 + y1)) (Some xm) (S depth) pts)
        | false := acceptY y0 x0 (0.5 * (y0 + y1)) xm y1 x1 pts } }.
Proof.
  all: clear subdivideY; unfold MAX_DEPTH in *;
    do 12 (destruct depth as [|depth]; [lia|]); lia.
Qed.

(** The [for] loop of lines 117-123, over exact numbers as [sampleLoop]
    is. *)
Fixpoint sampleLoopY (fuel : nat) (yMax coarse : R)
         (y0 : R) (x0 : option R) (y1 : R) (pts : Polyline) : option Polyline :=
  match fuel with
  | O => None
  | S fuel' =>
      if Rltb y0 (yMax + 1e-9) then
        let x1 := safeEvalY y1 in
        let pts := subdivideY y0 x0 y1 x1 0 pts in
        if Rgeb y1 yMax then Some pts
        else sampleLoopY fuel' yMax coarse y1 x1 (Rmin (y1 + coarse) yMax) pts
      else Some pts
  end.

(** [sampleCurveY(g, yMin, yMax, step, cond)] *)
Definition sampleCurveY (fuel : nat) (yMin yMax step : R) : option Polyline :=
  let coarse := Rmax step ((yMax - yMin) / 64) in
  let y0 := yMin in
  let x0 := safeEvalY y0 in
  match sampleLoopY fuel yMax coarse y0 x0 (Rmin (y0 + coarse) yMax) [] with
  | Some pts => Some (cleanUp pts)
  | None => None
  end.



End SampleCurveY.

End EquationsJs.

(* ===================================================================== *)
(** ** render.js *)
(* ===================================================================== *)

Module RenderJs.
Import Utils.

(** A canvas coordinate pair as [toPixel] hands it out. *)
Definition Pixel : Type := option R * option R.

(** The calls [drawCurve] makes on the 2D context, in order. *)
Inductive CanvasCall : Type :=
| SetStrokeStyle (color : string)
| SetLineWidth (w : R)
| SetLineDash (pattern : list R)
| BeginPath
| MoveTo (p : Pixel)
| LineTo (p : Pixel)
| Stroke.

(** The loop of lines 65-70; [started] is the local flag. *)
Fixpoint tracePath (wd : World) (started : bool) (points : Polyline)
  : list CanvasCall :=
  match points with
  | [] => []
  | None :: rest => tracePath wd false rest
  | Some pt :: rest =>
      let p := toPixel wd (p_x pt) (p_y pt) in
      (if started then LineTo p else MoveTo p) :: tracePath wd true rest
  end.

(** [drawCurve(points, color, thickness, dashed)]; the source's defaults
    are ['#4ade80'], [2] and [false]. *)
Definition drawCurve (wd : World) (points : Polyline) (color : string)
           (thickness : R) (dashed : bool) : list CanvasCall :=
  [SetStrokeStyle color; SetLineWidth thickness;
   SetLineDash (if dashed then [8; 6] else []); BeginPath]
  ++ tracePath wd false points
  ++ [Stroke]
  ++ (if dashed then [SetLineDash []] else []).

(** The canvas's reading of a path: [moveTo] starts a subpath at its point,
    [lineTo] joins the current point to its point by a straight line (and
    only sets the current point when there is none), [beginPath] empties the
    path; a [moveTo] or [lineTo] with a non-finite coordinate is ignored.
    [cur] is the current point.  Answers the lines of the path in order. *)
Fixpoint pathLines (cur : option (R * R)) (calls : list CanvasCall)
  : list ((R * R) * (R * R)) :=
  match calls with
  | [] => []
  | MoveTo (Some x, Some y) :: rest => pathLines (Some (x, y)) rest
  | LineTo (Some x, Some y) :: rest =>
      match cur with
      | Some c => (c, (x, y)) :: pathLines (Some (x, y)) rest
      | None => pathLines (Some (x, y)) rest
      end
  | BeginPath :: rest => pathLines None rest
  | _ :: rest => pathLines cur rest
  end.

End RenderJs.

(* ===================================================================== *)
(** ** game.js *)
(* ===================================================================== *)

Module GameJs.
Import Utils Physics EquationsJs.

(** A curve of the game: [{ expr, f, df, points, color, thickness }]. *)
Record GameCurve := mkGameCurve {
  gc_expr : string;
  gc_f : Evaluator;
  gc_df : Evaluator;
  gc_points : Polyline;
  gc_color : string;
  gc_thickness : R }.

(** What the physics is handed of it. *)
Definition asCurve (c : GameCurve) : Curve := mkCurve (gc_points c).

(** [this.beginnerLine]: the three object shapes [generateStars] stores. *)
Inductive BeginnerLine : Type :=
| Quadratic (a b c : R)
| Sinusoidal (a b c : R)
| Linear (m b : R).

(** The fields of [Game] the functions below read or write.  [burstTotal]
    and [spawned] are counts. *)
Record Game := mkGame {
  world : World;
  balls : list Ball;
  stars : list Star;
  curves : list GameCurve;
  gravity : R;
  spawnTimer : R;
  spawnInterval : R;
  burstTotal : nat;
  spawned : nat;
  launched : bool;
  dropX : R;
  level : nat;
  beginnerMode : bool;
  beginnerLine : option BeginnerLine;
  clock : nat }.

Definition setBalls (g : Game) (bs : list Ball) : Game :=
  mkGame (world g) bs (stars g) (curves g) (gravity g) (spawnTimer g)
         (spawnInterval g) (burstTotal g) (spawned g) (launched g) (dropX g)
         (level g) (beginnerMode g) (beginnerLine g) (clock g).

Definition setCurves (g : Game) (cs : list GameCurve) : Game :=
  mkGame (world g) (balls g) (stars g) cs (gravity g) (spawnTimer g)
         (spawnInterval g) (burstTotal g) (spawned g) (launched g) (dropX g)
         (level g) (beginnerMode g) (beginnerLine g) (clock g).

Definition setSpawn (g : Game) (timer : R) (total count : nat) (on : bool) : Game :=
  mkGame (world g) (balls g) (stars g) (curves g) (gravity g) timer
         (spawnInterval g) total count on (dropX g)
         (level g) (beginnerMode g) (beginnerLine g) (clock g).

Definition setDropX (g : Game) (x : R) : Game :=
  mkGame (world g) (balls g) (stars g) (curves g) (gravity g) (spawnTimer g)
         (spawnInterval g) (burstTotal g) (spawned g) (launched g) x
         (level g) (beginnerMode g) (beginnerLine g) (clock g).

(** The world as [updateBalls] reads it. *)
Definition boundsOf (wd : World) : Bounds :=
  mkBounds (w_xMin wd) (w_xMax wd) (w_yMin wd) (w_yMax wd).

(** [resize()] for a canvas of the given pixel size.  [None] stands for a
    canvas of height zero, where the aspect is not a finite number. *)
Definition resize (g : Game) (canvasWidth canvasHeight : R) : option Game :=
  match quotient canvasWidth canvasHeight with
  | None => None
  | Some aspect =>
      let yHalf := 8 in
      let xHalf := yHalf * aspect in
      let wd := setCanvasSize (mkWorld (- xHalf) xHalf (- yHalf) yHalf
                                       (w_width (world g)) (w_height (world g)))
                              canvasWidth canvasHeight in
      Some (mkGame wd (balls g) (stars g) (curves g) (gravity g) (spawnTimer g)
                   (spawnInterval g) (burstTotal g) (spawned g) (launched g) 0
                   (level g) (beginnerMode g) (beginnerLine g) (clock g))
  end.

(** [pickCurveColor()] *)
Definition palette : list string :=
  ["#4ade80"; "#f472b6"; "#fbbf24"; "#60a5fa"; "#a78bfa"]%string.

Definition pickCurveColor (g : Game) : string :=
  nth (List.length (curves g) mod List.length palette) palette EmptyString.

(** The object [submitEquation] returns: [{ ok: true }] or
    [{ ok: false, error }]. *)
Inductive SubmitResult : Type :=
| Accepted
| Rejected (error : string).

(** [submitEquation(inputStr)].  The sampler call is handed [fuel] rounds;
    [None] stands for a sampler out of fuel. *)
Definition submitEquation (E : Engine) (fuel : nat) (g : Game) (inputStr : string)
  : option (Game * SubmitResult) :=
  match parseEquationToFunction E inputStr with
  | Err message => Some (g, Rejected message)
  | Ok parsed =>
      let sampled :=
        match type parsed with
        | xOfY => sampleCurveY (f parsed) (cond parsed) fuel
                    (w_yMin (world g)) (w_yMax (world g)) 0.05
        | yOfX => sampleCurve (f parsed) (cond parsed) fuel
                    (w_xMin (world g)) (w_xMax (world g)) 0.05
        end in
      match sampled with
      | None => None
      | Some points =>
          let color := pickCurveColor g in
          Some (setCurves g (curves g ++
                  [mkGameCurve (expr parsed) (f parsed) (df parsed) points color 2]),
                Accepted)
      end
  end.

(** [spawnBall()] *)
Definition spawnBall (g : Game) : Game :=
  let x := dropX g in
  let y := w_yMax (world g) - 0.5 in
  let b := newBall x y 0.12 in
  let b := setVel b 0 0 in
  mkGame (world g) (balls g ++ [b]) (stars g) (curves g) (gravity g)
         (spawnTimer g) (spawnInterval g) (burstTotal g) (S (spawned g))
         (launched g) (dropX g) (level g) (beginnerMode g) (beginnerLine g)
         (clock g).

(** [launchBurst(count)] *)
Definition launchBurst (g : Game) (count : nat) : Game :=
  setSpawn g 0 count 0 true.

(** [moveDropper(x)]: the assignment of line 502; the rest of the method
    computes values it does not store. *)
Definition moveDropper (g : Game) (x : R) : Game :=
  setDropX g (Rmax (w_xMin (world g) + 0.5) (Rmin (w_xMax (world g) - 0.5) x)).

(** Lines 394-404 of [update]: the spawning. *)
Definition spawnPhase (g : Game) (dt : R) : Game :=
  if launched g then
    let g := setSpawn g (spawnTimer g + dt) (burstTotal g) (spawned g) (launched g) in
    let g :=
      if ((spawned g <? burstTotal g)%nat && Rgeb (spawnTimer g) (spawnInterval g))%bool
      then spawnBall (setSpawn g 0 (burstTotal g) (spawned g) (launched g))
      else g in
    if (burstTotal g <=? spawned g)%nat
    then setSpawn g (spawnTimer g) (burstTotal g) (spawned g) false
    else g
  else g.

(** Lines 412-419: the test of the [filter]. *)
Definition keepBall (wd : World) (b : Ball) : bool :=
  if b_oob b then false
  else
    let pad := 0.0 in
    let aboveBottom := Rgeb (b_y b + b_r b) (w_yMin wd - pad) in
    let belowTop := Rleb (b_y b - b_r b) (w_yMax wd + pad) in
    let insideLeft := Rgeb (b_x b + b_r b) (w_xMin wd - pad) in
    let insideRight := Rleb (b_x b - b_r b) (w_xMax wd + pad) in
    (aboveBottom && belowTop && insideLeft && insideRight)%bool.

(** Line 422: [if (balls.length > 150) balls.splice(0, balls.length - 150)]. *)
Definition trimBalls (bs : list Ball) : list Ball :=
  if (150 <? List.length bs)%nat then skipn (List.length bs - 150) bs else bs.

(** Lines 392-425 of [update(dt)]: spawning, physics, culling, trimming
    and the star collection with its result.  What follows in the source (the
    feedback effects and the change of level) is not part of this
    definition. *)
Definition updateFrame (now : nat -> R) (g : Game) (dt : R) : Game * StarResult :=
  let g := spawnPhase g dt in
  let moved := updateBalls (balls g) dt (gravity g) (boundsOf (world g))
                           (map asCurve (curves g)) in
  let kept := filter (keepBall (world g)) moved in
  let kept := trimBalls kept in
  let '(res, stars', balls', clock') :=
    checkStarCollection now (clock g) kept (stars g) 0.35 in
  (mkGame (world g) balls' stars' (curves g) (gravity g) (spawnTimer g)
          (spawnInterval g) (burstTotal g) (spawned g) (launched g) (dropX g)
          (level g) (beginnerMode g) (beginnerLine g) clock',
   res).

(** A run of frames, none of which completes the level, one per entry of
    [dts]. *)
Fixpoint runFrames (now : nat -> R) (dts : list R) (g : Game) : Game :=
  match dts with
  | [] => g
  | dt :: more => runFrames now more (fst (updateFrame now g dt))
  end.

(** The property [m] of a beginner line object, [undefined] on the shapes
    that have none, and the property [b], which all three have. *)
Definition line_m (l : BeginnerLine) : option R :=
  match l with
  | Linear m _ => Some m
  | _ => None
  end.

Definition line_b (l : BeginnerLine) : R :=
  match l with
  | Quadratic _ b _ => b
  | Sinusoidal _ b _ => b
  | Linear _ b => b
  end.

(** [seedBeginnerHelper()].  [toFixed2 v] is the text of [v.toFixed(2)];
    calling [toFixed] on [undefined] throws a [TypeError].  The answer is the
    game after the call and the returned text ([None] for [null]). *)
Definition seedBeginnerHelper (E : Engine) (toFixed2 : R -> string) (fuel : nat)
           (g : Game) : option (Outcome (Game * option string)) :=
  match stars g with
  | [] => Some (Returns (g, None))
  | _ :: _ =>
      match beginnerLine g with
      | Some line =>
          match line_m line with
          | None => Some Throws
          | Some m =>
              let eq := ("y = " ++ toFixed2 m ++ "x + " ++ toFixed2 (line_b line))%string in
              match submitEquation E fuel g eq with
              | None => None
              | Some (g', _) => Some (Returns (g', Some eq))
              end
          end
      | None =>
          let n := INR (List.length (stars g)) in
          let sumx := fold_left (fun acc s => acc + s_x s) (stars g) 0 in
          let sumy := fold_left (fun acc s => acc + s_y s) (stars g) 0 in
          let sumxy := fold_left (fun acc s => acc + s_x s * s_y s) (stars g) 0 in
          let sumx2 := fold_left (fun acc s => acc + s_x s * s_x s) (stars g) 0 in
          let denom :=
            if Req_dec_T (n * sumx2 - sumx * sumx) 0 then 1e-6
            else n * sumx2 - sumx * sumx in
          let m := (n * sumxy - sumx * sumy) / denom in
          let b := (sumy - m * sumx) / n in
          let m := Rmax (-2) (Rmin 2 m) in
          let b := Rmax (w_yMin (world g) * 0.8) (Rmin (w_yMax (world g) * 0.8) b) in
          let eq := ("y = " ++ toFixed2 m ++ "x + " ++ toFixed2 b)%string in
          match submitEquation E fuel g eq with
          | None => None
          | Some (g', _) => Some (Returns (g', Some eq))
          end
      end
  end.

End GameJs.

(* ===================================================================== *)
(** ** Concrete scenes *)
(* ===================================================================== *)

Module Scenes.
Import Utils Physics.

(** The world of [main.js]. *)
Definition world : Bounds := mkBounds (-10) 10 (-7.5) 7.5.

(** Two horizontal curves, the second one lower than the first. *)
Definition upperFloor : Curve :=
  mkCurve [Some (mkPoint (-1) 0.1); Some (mkPoint 1 0.1)].
Definition lowerFloor : Curve :=
  mkCurve [Some (mkPoint (-1) 0); Some (mkPoint 1 0)].

(** A ball of radius [0.2] resting above both. *)
Definition restingBall : Ball := mkBall 0 0.2 0 0 0.2 false false None.

(** A slope from the origin to [(3, 4)], of length 5, and a ball of radius
    [0.2] at rest touching its middle from the upper left. *)
Definition slope : Curve :=
  mkCurve [Some (mkPoint 0 0); Some (mkPoint 3 4)].
Definition slopeBall : Ball := mkBall 1.34 2.12 0 0 0.2 false false None.

(** A ball of radius [0.2] half sunk into the lower floor. *)
Definition sunkBall : Ball := mkBall 0 0.1 0 0 0.2 false false None.

(** A fresh ball far to the right of the world. *)
Definition strayBall : Ball := newBall 100 0 0.2.

(** A ball of radius [0.2] hovering [0.21] above the lower floor. *)
Definition hoverBall : Ball := mkBall 0 0.21 0 0 0.2 false false None.

(** A star already collected, a ball far away from it, and a clock. *)
Definition oldStar : Star := mkStar 0 0 true (Some 5) (Some 1.5).
Definition farBall : Ball := newBall 9 9 0.12.
Definition clockReading (k : nat) : R := INR k.

(** Two evaluators: the identity, and one that throws at every input. *)
Definition identityEvaluator : Evaluator := fun x => Returns (VNum x).
Definition throwingEvaluator : Evaluator := fun _ => Throws.


(** An engine that knows one expression only: the text [2*x + 3] in the
    variable [x]; every other text is a syntax error to it. *)
Definition linearEngine : EquationsJs.Engine :=
  EquationsJs.mkEngine
    (fun v e =>
       if (String.eqb v "x" && String.eqb e "2*x + 3")%bool
       then Some (fun x => Returns (VNum (2 * x + 3)))
       else None)
    (fun _ => None).

(** An engine with one function and one condition for every text: the
    function is the constant 1, the condition holds right of the origin and
    throws left of it. *)
Definition constantEngine : EquationsJs.Engine :=
  EquationsJs.mkEngine
    (fun _ _ => Some (fun _ => Returns (VNum 1)))
    (fun _ => Some (fun x _ => if Rltb x 0 then Throws else Returns (Rltb 0 x))).

(** A beginner game after a [resize] to a 900 by 600 canvas whose star
    generator chose the quadratic pattern. *)
Definition curvedGame : GameJs.Game :=
  GameJs.mkGame (Utils.mkWorld (-12) 12 (-8) 8 900 600) []
                [Physics.mkStar 1 2 false None None] []
                (-20) 0 0.08 20 0 false 0 1 true
                (Some (GameJs.Quadratic 0.1 0.5 0)) 0.


End Scenes.

(* ===================================================================== *)
(** * Properties *)
(* ===================================================================== *)

(** ** Comparisons, [hypot], [normalize] *)

Lemma Rltb_true (a b : R) : a < b -> Rltb a b = true.
Proof. intros H. unfold Rltb. destruct (Rlt_dec a b); [reflexivity | contradiction]. Qed.

Lemma Rltb_false (a b : R) : b <= a -> Rltb a b = false.
Proof. intros H. unfold Rltb. destruct (Rlt_dec a b); [lra | reflexivity]. Qed.

Lemma Rleb_true (a b : R) : a <= b -> Rleb a b = true.
Proof. intros H. unfold Rleb. destruct (Rle_dec a b); [reflexivity | contradiction]. Qed.

Lemma Rleb_false (a b : R) : b < a -> Rleb a b = false.
Proof. intros H. unfold Rleb. destruct (Rle_dec a b); [lra | reflexivity]. Qed.

Lemma Rltb_spec (a b : R) : Rltb a b = true <-> a < b.
Proof.
  split; [| apply Rltb_true].
  unfold Rltb. destruct (Rlt_dec a b); [trivial | discriminate].
Qed.

Lemma Rleb_spec (a b : R) : Rleb a b = true <-> a <= b.
Proof.
  split; [| apply Rleb_true].
  unfold Rleb. destruct (Rle_dec a b); [trivial | discriminate].
Qed.

Lemma Rltb_nspec (a b : R) : Rltb a b = false <-> b <= a.
Proof.
  split; [| apply Rltb_false].
  unfold Rltb. destruct (Rlt_dec a b); [discriminate | lra].
Qed.

Lemma Rleb_nspec (a b : R) : Rleb a b = false <-> b < a.
Proof.
  split; [| apply Rleb_false].
  unfold Rleb. destruct (Rle_dec a b); [discriminate | lra].
Qed.

Lemma Rabs_bound (x m : R) : Rabs x <= m -> - m <= x <= m.
Proof. unfold Rabs. destruct (Rcase_abs x); lra. Qed.

Lemma sum_squares_nonneg (x y : R) : 0 <= x * x + y * y.
Proof. nra. Qed.

Lemma hypot_nonneg (x y : R) : 0 <= hypot x y.
Proof. apply sqrt_pos. Qed.

Lemma hypot_sqr (x y : R) : hypot x y * hypot x y = x * x + y * y.
Proof. apply sqrt_sqrt, sum_squares_nonneg. Qed.

(** [hypot] is the one non-negative number with the right square. *)
Lemma hypot_unique (x y m : R) : 0 <= m -> m * m = x * x + y * y -> hypot x y = m.
Proof.
  intros Hm Hsq. unfold hypot.
  apply sqrt_lem_1; [apply sum_squares_nonneg | exact Hm | exact Hsq].
Qed.

Lemma hypot_abs_l (x y : R) : Rabs x <= hypot x y.
Proof.
  pose proof (hypot_nonneg x y) as Hn. pose proof (hypot_sqr x y) as Hs.
  apply Rabs_le. split; nra.
Qed.

Lemma hypot_abs_r (x y : R) : Rabs y <= hypot x y.
Proof.
  pose proof (hypot_nonneg x y) as Hn. pose proof (hypot_sqr x y) as Hs.
  apply Rabs_le. split; nra.
Qed.

Lemma hypot_zero_iff (x y : R) : hypot x y = 0 <-> x = 0 /\ y = 0.
Proof.
  split.
  - intros H. pose proof (hypot_sqr x y) as Hs. rewrite H in Hs. split; nra.
  - intros [-> ->]. apply hypot_unique; lra.
Qed.

Lemma hypot_scale (k x y : R) :
  x * x + y * y = 1 -> hypot (k * x) (k * y) = Rabs k.
Proof.
  intros Hu. apply hypot_unique; [apply Rabs_pos |].
  unfold Rabs. destruct (Rcase_abs k); nra.
Qed.

Module UtilsFacts.
Import Utils.

Lemma clamp_unit (t : R) : 0 <= clamp t 0 1 <= 1.
Proof.
  unfold clamp, Rmax, Rmin.
  destruct (Rle_dec 1 t); destruct (Rle_dec 0 _); lra.
Qed.

(** A non-zero vector is normalized to a unit vector, the zero vector to
    itself. *)
Lemma normalize_nonzero (x y : R) :
  x <> 0 \/ y <> 0 ->
  normalize x y = (x / hypot x y, y / hypot x y) /\ 0 < hypot x y.
Proof.
  intros Hnz. unfold normalize.
  destruct (Req_dec_T (hypot x y) 0) as [E | E].
  - apply hypot_zero_iff in E. lra.
  - split; [reflexivity |]. pose proof (hypot_nonneg x y). lra.
Qed.

Lemma normalize_unit (x y : R) :
  x <> 0 \/ y <> 0 ->
  fst (normalize x y) * fst (normalize x y)
  + snd (normalize x y) * snd (normalize x y) = 1.
Proof.
  intros Hnz. destruct (normalize_nonzero x y Hnz) as [-> Hpos]. simpl.
  pose proof (hypot_sqr x y) as Hs.
  replace (x / hypot x y * (x / hypot x y) + y / hypot x y * (y / hypot x y))
    with ((x * x + y * y) / (hypot x y * hypot x y)) by (field; lra).
  rewrite Hs. field. nra.
Qed.

Lemma normalize_zero : normalize 0 0 = (0, 0).
Proof.
  unfold normalize. destruct (Req_dec_T (hypot 0 0) 0) as [E | E]; [reflexivity |].
  exfalso. apply E. apply hypot_zero_iff. split; reflexivity.
Qed.

(** A unit vector is left alone, up to the division by one. *)
Lemma normalize_of_unit (x y : R) :
  x * x + y * y = 1 -> normalize x y = (x, y).
Proof.
  intros Hu. unfold normalize.
  assert (Hh : hypot x y = 1) by (apply hypot_unique; lra).
  rewrite Hh. destruct (Req_dec_T 1 0); [lra |]. f_equal; field.
Qed.

(** The closest point lies in the bounding box of the segment. *)
Lemma closest_in_box (px py ax ay bx by_ : R) :
  let q := closestPointOnSegment px py ax ay bx by_ in
  Rmin ax bx <= q_x q <= Rmax ax bx /\ Rmin ay by_ <= q_y q <= Rmax ay by_.
Proof.
  unfold closestPointOnSegment. cbv zeta. simpl q_x. simpl q_y.
  set (t := clamp _ 0 1). pose proof (clamp_unit
    (if Rgtb ((bx - ax) * (bx - ax) + (by_ - ay) * (by_ - ay)) 0
     then ((px - ax) * (bx - ax) + (py - ay) * (by_ - ay)) /
          ((bx - ax) * (bx - ax) + (by_ - ay) * (by_ - ay)) else 0)) as Ht.
  fold t in Ht.
  unfold Rmin, Rmax.
  destruct (Rle_dec ax bx); destruct (Rle_dec ay by_); repeat split; nra.
Qed.

End UtilsFacts.

(* ===================================================================== *)
(** ** Contact search *)
(* ===================================================================== *)

Module PhysicsFacts.
Import Utils Physics UtilsFacts.

(** The narrow phase answers exactly when the segment is in range. *)
Lemma narrow_inRange (b : Ball) (a c : Point) :
  inRange b (a, c) = true <-> exists k, narrow b a c = Some k.
Proof.
  unfold inRange, narrow. simpl fst. simpl snd. cbv zeta.
  destruct (Rleb _ (b_r b + 0.02)).
  - split; [intros _ | reflexivity].
    destruct (Rgeb _ 0); eexists; reflexivity.
  - split; [discriminate | intros [k Hk]; discriminate].
Qed.

Lemma narrow_out_of_range (b : Ball) (a c : Point) :
  inRange b (a, c) = false -> narrow b a c = None.
Proof.
  intros H. destruct (narrow b a c) as [k |] eqn:E; [| reflexivity].
  assert (inRange b (a, c) = true) by (apply narrow_inRange; eauto).
  congruence.
Qed.

(** What the narrow phase records about the segment it was given. *)
Lemma narrow_fields (b : Ball) (a c : Point) (k : Contact) :
  narrow b a c = Some k ->
  k_a k = a /\ k_c k = c /\
  k_q k = closestPointOnSegment (b_x b) (b_y b) (p_x a) (p_y a) (p_x c) (p_y c) /\
  k_dist k = distTo b (a, c) /\
  (k_tx k, k_ty k) = normalize (p_x c - p_x a) (p_y c - p_y a).
Proof.
  unfold narrow, distTo. cbv zeta. simpl fst. simpl snd.
  destruct (Rleb _ (b_r b + 0.02)); [| discriminate].
  destruct (Rgeb _ 0); intros H; inversion H; subst; clear H; simpl;
    repeat split; try reflexivity;
    destruct (normalize (p_x c - p_x a) (p_y c - p_y a)); reflexivity.
Qed.

(** The heart of the broad phase: a centre within [r + 0.02] of the closest
    point is inside the box grown by [r + 0.05]. *)
Lemma in_range_in_box (b : Ball) (a c : Point) :
  distTo b (a, c) <= b_r b + 0.02 ->
  Rmin (p_x a) (p_x c) - b_r b - 0.05 <= b_x b <= Rmax (p_x a) (p_x c) + b_r b + 0.05 /\
  Rmin (p_y a) (p_y c) - b_r b - 0.05 <= b_y b <= Rmax (p_y a) (p_y c) + b_r b + 0.05.
Proof.
  unfold distTo. simpl fst. simpl snd. cbv zeta. intros Hd.
  pose proof (closest_in_box (b_x b) (b_y b) (p_x a) (p_y a) (p_x c) (p_y c)) as Hbox.
  cbv zeta in Hbox.
  set (q := closestPointOnSegment _ _ _ _ _ _) in *.
  pose proof (hypot_abs_l (b_x b - q_x q) (b_y b - q_y q)) as Hx.
  pose proof (hypot_abs_r (b_x b - q_x q) (b_y b - q_y q)) as Hy.
  apply Rabs_bound in Hx. apply Rabs_bound in Hy. lra.
Qed.

Lemma in_range_not_rejected (b : Ball) (a c : Point) :
  inRange b (a, c) = true -> broadReject b a c = false.
Proof.
  intros H. apply Rleb_spec in H. fold (distTo b (a, c)) in H.
  apply in_range_in_box in H. destruct H as [[Hx1 Hx2] [Hy1 Hy2]].
  unfold broadReject, Rgtb. cbv zeta.
  rewrite !Rltb_false by lra. reflexivity.
Qed.

(** With or without the broad phase, one step of the loop does the same. *)
Lemma visit_exact_eq (b : Ball) (a c : option Point) (best : option Contact) :
  visit b a c best = visit_exact b a c best.
Proof.
  destruct a as [a |], c as [c |]; try reflexivity. simpl.
  destruct (inRange b (a, c)) eqn:E.
  - rewrite (in_range_not_rejected _ _ _ E). reflexivity.
  - rewrite (narrow_out_of_range _ _ _ E). destruct (broadReject b a c); reflexivity.
Qed.

Lemma scanPoints_exact_eq (b : Ball) (pts : Polyline) (best : option Contact) :
  scanPoints b pts best = scanPoints_exact b pts best.
Proof.
  revert best. induction pts as [| a rest IH]; intros best; [reflexivity |].
  destruct rest as [| c rest']; [reflexivity |].
  change (scanPoints b (c :: rest') (visit b a c best)
          = scanPoints_exact b (c :: rest') (visit_exact b a c best)).
  rewrite visit_exact_eq. apply IH.
Qed.

Lemma fold_scan_exact_eq (b : Ball) (curves : list Curve) (best : option Contact) :
  fold_left (fun best curve => scanPoints b (points curve) best) curves best
  = fold_left (fun best curve => scanPoints_exact b (points curve) best) curves best.
Proof.
  revert best. induction curves as [| cv rest IH]; intros best; [reflexivity |].
  simpl. rewrite scanPoints_exact_eq. apply IH.
Qed.

Lemma lastOpt_app_cons {A : Type} (l : list A) (x : A) (l' : list A) :
  lastOpt (l ++ x :: l') = lastOpt (x :: l').
Proof.
  induction l as [| y l IH]; [reflexivity |].
  simpl app. remember (l ++ x :: l') as m eqn:E. destruct m as [| z m].
  - destruct l; discriminate.
  - change (lastOpt (z :: m) = lastOpt (x :: l')). exact IH.
Qed.

Lemma lastOpt_app_nil {A : Type} (l : list A) : lastOpt (l ++ []) = lastOpt l.
Proof. rewrite app_nil_r. reflexivity. Qed.


Lemma lastOpt_none {A : Type} (l : list A) : lastOpt l = None -> l = [].
Proof.
  induction l as [| x l IH]; [reflexivity |].
  destruct l as [| y l]; [discriminate |].
  change (lastOpt (y :: l) = None -> x :: y :: l = []).
  intros H. apply IH in H. discriminate.
Qed.

Lemma lastOpt_app {A : Type} (l1 l2 : list A) :
  lastOpt (l1 ++ l2) =
  match lastOpt l2 with Some y => Some y | None => lastOpt l1 end.
Proof.
  destruct l2 as [| x l2].
  - rewrite app_nil_r. reflexivity.
  - rewrite lastOpt_app_cons.
    destruct (lastOpt (x :: l2)) eqn:E; [reflexivity |].
    apply lastOpt_none in E. discriminate.
Qed.

(** The contact the scan of one polyline ends with: that of the last segment
    in range if there is one, the incoming [best] otherwise. *)
Lemma scanPoints_exact_last (b : Ball) (pts : Polyline) (best : option Contact) :
  scanPoints_exact b pts best =
  match lastOpt (filter (inRange b) (segmentsOf pts)) with
  | Some seg => narrow b (fst seg) (snd seg)
  | None => best
  end.
Proof.
  revert best. induction pts as [| a rest IH]; intros best; [reflexivity |].
  destruct rest as [| c rest']; [reflexivity |].
  replace (scanPoints_exact b (a :: c :: rest') best)
    with (scanPoints_exact b (c :: rest') (visit_exact b a c best)) by reflexivity.
  rewrite IH.
  change (segmentsOf (a :: c :: rest')) with
    (match a, c with
     | Some a', Some c' => (a', c') :: segmentsOf (c :: rest')
     | _, _ => segmentsOf (c :: rest')
     end).
  destruct a as [a' |], c as [c' |]; try reflexivity.
  change (filter (inRange b) ((a', c') :: segmentsOf (Some c' :: rest')))
    with (if inRange b (a', c')
          then (a', c') :: filter (inRange b) (segmentsOf (Some c' :: rest'))
          else filter (inRange b) (segmentsOf (Some c' :: rest'))).
  unfold visit_exact.
  destruct (inRange b (a', c')) eqn:E.
  - change ((a', c') :: filter (inRange b) (segmentsOf (Some c' :: rest')))
      with ([(a', c')] ++ filter (inRange b) (segmentsOf (Some c' :: rest'))).
    rewrite lastOpt_app.
    destruct (lastOpt (filter (inRange b) (segmentsOf (Some c' :: rest'))));
      [reflexivity |].
    simpl. destruct (proj1 (narrow_inRange b a' c') E) as [k Hk].
    rewrite Hk. reflexivity.
  - rewrite (narrow_out_of_range _ _ _ E). reflexivity.
Qed.

Lemma fold_scan_exact_last (b : Ball) (curves : list Curve) (best : option Contact) :
  fold_left (fun best curve => scanPoints_exact b (points curve) best) curves best =
  match lastOpt (filter (inRange b) (allSegments curves)) with
  | Some seg => narrow b (fst seg) (snd seg)
  | None => best
  end.
Proof.
  revert best. induction curves as [| cv rest IH]; intros best; [reflexivity |].
  simpl fold_left. rewrite IH. unfold allSegments. simpl flat_map.
  rewrite filter_app, lastOpt_app.
  fold (allSegments rest).
  destruct (lastOpt (filter (inRange b) (allSegments rest))); [reflexivity |].
  apply scanPoints_exact_last.
Qed.

Lemma findBest_last (b : Ball) (curves : list Curve) :
  findBest b curves =
  match lastOpt (filter (inRange b) (allSegments curves)) with
  | Some seg => narrow b (fst seg) (snd seg)
  | None => None
  end.
Proof.
  unfold findBest. rewrite fold_scan_exact_eq. apply fold_scan_exact_last.
Qed.

(** Every contact the search answers is the narrow phase's record of the
    segment it names. *)
Lemma findBest_narrow (b : Ball) (curves : list Curve) (k : Contact) :
  findBest b curves = Some k -> narrow b (k_a k) (k_c k) = Some k.
Proof.
  rewrite findBest_last.
  destruct (lastOpt _) as [[a c] |]; [| discriminate].
  simpl. intros H. destruct (narrow_fields _ _ _ _ H) as (-> & -> & _). exact H.
Qed.

(** Evaluating comparisons, [Rmin] and [Rmax] on explicit numbers. *)
Ltac Rdecide :=
  unfold Rgtb, Rgeb;
  repeat match goal with
  | |- context [Rltb ?a ?b] =>
      first [rewrite (Rltb_true a b) by lra | rewrite (Rltb_false a b) by lra]
  | |- context [Rleb ?a ?b] =>
      first [rewrite (Rleb_true a b) by lra | rewrite (Rleb_false a b) by lra]
  | |- context [Rmin ?a ?b] =>
      first [rewrite (Rmin_left a b) by lra | rewrite (Rmin_right a b) by lra]
  | |- context [Rmax ?a ?b] =>
      first [rewrite (Rmax_left a b) by lra | rewrite (Rmax_right a b) by lra]
  end.

(** [hypot x y] is [m], given that [m] is non-negative with the right square. *)
Ltac hypot_is m :=
  match goal with
  | |- context [hypot ?x ?y] => rewrite (hypot_unique x y m) by lra
  end.

Lemma closest_upperFloor :
  closestPointOnSegment 0 0.2 (-1) 0.1 1 0.1 = mkClosest 0 0.1 0.5.
Proof.
  unfold closestPointOnSegment, clamp. cbv zeta. Rdecide. f_equal; lra.
Qed.

Lemma closest_lowerFloor :
  closestPointOnSegment 0 0.2 (-1) 0 1 0 = mkClosest 0 0 0.5.
Proof.
  unfold closestPointOnSegment, clamp. cbv zeta. Rdecide. f_equal; lra.
Qed.

Lemma distTo_upperFloor :
  distTo Scenes.restingBall (mkPoint (-1) 0.1, mkPoint 1 0.1) = 0.1.
Proof.
  unfold distTo, Scenes.restingBall. cbn [fst snd b_x b_y p_x p_y].
  rewrite closest_upperFloor. cbn [q_x q_y]. hypot_is 0.1. reflexivity.
Qed.

Lemma distTo_lowerFloor :
  distTo Scenes.restingBall (mkPoint (-1) 0, mkPoint 1 0) = 0.2.
Proof.
  unfold distTo, Scenes.restingBall. cbn [fst snd b_x b_y p_x p_y].
  rewrite closest_lowerFloor. cbn [q_x q_y]. hypot_is 0.2. reflexivity.
Qed.

(** C10.  The broad phase never turns away a segment the exact test would
    take: a centre within [b.r + 0.02] of a segment's closest point lies in
    the segment's bounding box grown by [b.r + 0.05], so the rejection test
    is false there; and the search with the broad phase finds the same
    contact as the search by the exact distance test alone. *)
Theorem broad_phase_conservative (b : Ball) :
  (forall a c : Point,
      distTo b (a, c) <= b_r b + 0.02 ->
      (Rmin (p_x a) (p_x c) - b_r b - 0.05 <= b_x b
         <= Rmax (p_x a) (p_x c) + b_r b + 0.05 /\
       Rmin (p_y a) (p_y c) - b_r b - 0.05 <= b_y b
         <= Rmax (p_y a) (p_y c) + b_r b + 0.05) /\
      broadReject b a c = false) /\
  (forall curves : list Curve, findBest b curves = findBest_exact b curves).
Proof.
  split.
  - intros a c H. split; [apply in_range_in_box; exact H |].
    apply in_range_not_rejected. apply Rleb_spec. exact H.
  - intros curves. unfold findBest, findBest_exact. apply fold_scan_exact_eq.
Qed.

Lemma broad_phase_conservative_witness :
  distTo Scenes.restingBall (mkPoint (-1) 0, mkPoint 1 0) <= 0.2 + 0.02 /\
  broadReject Scenes.restingBall (mkPoint (-1) 0) (mkPoint 1 0) = false.
Proof.
  assert (H : distTo Scenes.restingBall (mkPoint (-1) 0, mkPoint 1 0)
              <= b_r Scenes.restingBall + 0.02)
    by (rewrite distTo_lowerFloor; cbn [b_r Scenes.restingBall]; lra).
  split; [exact H |].
  exact (proj2 (proj1 (broad_phase_conservative Scenes.restingBall)
                  (mkPoint (-1) 0) (mkPoint 1 0) H)).
Defined.

(** C8.  The contact used is that of the last segment in range, in
    curve-then-segment order, whatever the distances: with two floors in
    range of a ball the later, farther one is taken. *)
Theorem last_qualifying_segment_wins :
  (forall (b : Ball) (curves : list Curve),
      findBest b curves =
      match lastOpt (filter (inRange b) (allSegments curves)) with
      | Some seg => narrow b (fst seg) (snd seg)
      | None => None
      end) /\
  (forall (b : Ball) (curves : list Curve) (seg : Point * Point),
      lastOpt (filter (inRange b) (allSegments curves)) = Some seg ->
      exists k, findBest b curves = Some k /\
                k_a k = fst seg /\ k_c k = snd seg /\ k_dist k = distTo b seg) /\
  (exists k,
      findBest Scenes.restingBall [Scenes.upperFloor; Scenes.lowerFloor] = Some k /\
      k_a k = mkPoint (-1) 0 /\ k_c k = mkPoint 1 0 /\ k_dist k = 0.2 /\
      inRange Scenes.restingBall (mkPoint (-1) 0.1, mkPoint 1 0.1) = true /\
      distTo Scenes.restingBall (mkPoint (-1) 0.1, mkPoint 1 0.1) = 0.1).
Proof.
  assert (Hgen : forall (b : Ball) (curves : list Curve) (seg : Point * Point),
      lastOpt (filter (inRange b) (allSegments curves)) = Some seg ->
      exists k, findBest b curves = Some k /\
                k_a k = fst seg /\ k_c k = snd seg /\ k_dist k = distTo b seg).
  { intros b curves [a c] Hlast. rewrite findBest_last, Hlast. simpl fst. simpl snd.
    assert (Hin : In (a, c) (filter (inRange b) (allSegments curves))).
    { clear -Hlast. induction (filter (inRange b) (allSegments curves)) as [| x l IH];
        [discriminate |].
      destruct l as [| y l]; [inversion Hlast; left; reflexivity |].
      right. apply IH. exact Hlast. }
    apply filter_In in Hin. destruct Hin as [_ Hr].
    destruct (proj1 (narrow_inRange b a c) Hr) as [k Hk].
    exists k. split; [exact Hk |].
    destruct (narrow_fields _ _ _ _ Hk) as (Ha & Hc & _ & Hd & _). auto. }
  split; [exact findBest_last |]. split; [exact Hgen |].
  assert (Hup : inRange Scenes.restingBall (mkPoint (-1) 0.1, mkPoint 1 0.1) = true).
  { apply Rleb_spec. fold (distTo Scenes.restingBall (mkPoint (-1) 0.1, mkPoint 1 0.1)).
    rewrite distTo_upperFloor. cbn [b_r Scenes.restingBall]. lra. }
  assert (Hlow : inRange Scenes.restingBall (mkPoint (-1) 0, mkPoint 1 0) = true).
  { apply Rleb_spec. fold (distTo Scenes.restingBall (mkPoint (-1) 0, mkPoint 1 0)).
    rewrite distTo_lowerFloor. cbn [b_r Scenes.restingBall]. lra. }
  destruct (Hgen Scenes.restingBall [Scenes.upperFloor; Scenes.lowerFloor]
              (mkPoint (-1) 0, mkPoint 1 0)) as (k & Hk & Ha & Hc & Hd).
  { unfold allSegments. simpl flat_map. simpl filter. rewrite Hup, Hlow. reflexivity. }
  exists k. rewrite Hd, distTo_lowerFloor, distTo_upperFloor.
  simpl in Ha, Hc. repeat split; assumption || reflexivity.
Qed.

(* ===================================================================== *)
(** ** Sliding *)
(* ===================================================================== *)

(** The guessed normal is perpendicular to the vector it was built from. *)
Lemma normalize_perp (x y : R) :
  fst (normalize (- y) x) * x + snd (normalize (- y) x) * y = 0.
Proof.
  unfold normalize. destruct (Req_dec_T (hypot (- y) x) 0) as [E | E]; simpl.
  - lra.
  - field. exact E.
Qed.

(** The contact normal is the guessed normal or its opposite, whichever
    points from the closest point towards the centre. *)
Lemma narrow_normal (b : Ball) (a c : Point) (k : Contact) :
  narrow b a c = Some k ->
  let gN := normalize (- k_ty k) (k_tx k) in
  let dx := b_x b - q_x (k_q k) in
  let dy := b_y b - q_y (k_q k) in
  (0 <= dx * fst gN + dy * snd gN /\ k_nx k = fst gN /\ k_ny k = snd gN) \/
  (dx * fst gN + dy * snd gN < 0 /\ k_nx k = - fst gN /\ k_ny k = - snd gN).
Proof.
  unfold narrow. cbv zeta.
  destruct (Rleb _ (b_r b + 0.02)); [| discriminate].
  destruct (Rgeb _ 0) eqn:E; intros H; inversion H; subst; clear H; simpl.
  - left. apply Rleb_spec in E. auto.
  - right. apply Rleb_nspec in E. auto.
Qed.

Lemma contact_normal_perp (b : Ball) (a c : Point) (k : Contact) :
  narrow b a c = Some k -> k_tx k * k_nx k + k_ty k * k_ny k = 0.
Proof.
  intros H. pose proof (normalize_perp (k_tx k) (k_ty k)) as Hp.
  destruct (narrow_normal _ _ _ _ H) as [(_ & -> & ->) | (_ & -> & ->)]; lra.
Qed.

(** On a segment with two distinct ends the tangent is a unit vector. *)
Lemma contact_tangent_unit (b : Ball) (a c : Point) (k : Contact) :
  narrow b a c = Some k ->
  p_x a <> p_x c \/ p_y a <> p_y c ->
  k_tx k * k_tx k + k_ty k * k_ty k = 1.
Proof.
  intros H Hne. destruct (narrow_fields _ _ _ _ H) as (_ & _ & _ & _ & Ht).
  pose proof (normalize_unit (p_x c - p_x a) (p_y c - p_y a)) as Hu.
  rewrite <- Ht in Hu. simpl in Hu. apply Hu. lra.
Qed.

(** [updateBalls] works on each ball of the array by itself. *)
Lemma updateBalls_nth (balls : list Ball) (dt gravity : R) (bounds : Bounds)
      (curves : list Curve) (i : nat) (b : Ball) :
  nth_error balls i = Some b ->
  nth_error (updateBalls balls dt gravity bounds curves) i
  = Some (updateBall dt gravity bounds curves b).
Proof. intros H. unfold updateBalls. apply map_nth_error. exact H. Qed.

(** The velocity a ball in contact leaves the tick with. *)
Lemma updateBall_contact (dt gravity : R) (bounds : Bounds) (curves : list Curve)
      (b : Ball) (k : Contact) :
  exited (applyGravity b dt gravity) bounds = false ->
  findBest (applyGravity b dt gravity) curves = Some k ->
  updateBall dt gravity bounds curves b =
  integrate (slideVelocity (snap (applyGravity b dt gravity) k) k dt gravity) dt.
Proof. intros He Hf. unfold updateBall. rewrite He, Hf. reflexivity. Qed.

Lemma snap_velocity (b : Ball) (k : Contact) :
  b_vx (snap b k) = b_vx b /\ b_vy (snap b k) = b_vy b.
Proof. unfold snap. destruct (Rgtb _ 0); split; reflexivity. Qed.

Lemma contact_velocity (dt gravity : R) (bounds : Bounds) (curves : list Curve)
      (b : Ball) (k : Contact) :
  exited (applyGravity b dt gravity) bounds = false ->
  findBest (applyGravity b dt gravity) curves = Some k ->
  let s := ((b_vx b * k_tx k + (b_vy b + gravity * dt) * k_ty k)
            + (0 * k_tx k + gravity * k_ty k) * dt) * 0.995 in
  b_vx (updateBall dt gravity bounds curves b) = s * k_tx k /\
  b_vy (updateBall dt gravity bounds curves b) = s * k_ty k.
Proof.
  intros He Hf s. rewrite (updateBall_contact _ _ _ _ _ _ He Hf).
  unfold integrate, slideVelocity. cbn [b_vx b_vy setPos setVel].
  destruct (snap_velocity (applyGravity b dt gravity) k) as [-> ->].
  unfold applyGravity. cbn [b_vx b_vy]. split; reflexivity.
Qed.

(** The slope scene, evaluated. *)
Lemma closest_slope :
  closestPointOnSegment 1.34 2.12 0 0 3 4 = mkClosest 1.5 2 0.5.
Proof.
  unfold closestPointOnSegment, clamp. cbv zeta. Rdecide. f_equal; lra.
Qed.

Lemma slope_contact :
  exited (applyGravity Scenes.slopeBall 0.1 (-10)) Scenes.world = false /\
  exists k, findBest (applyGravity Scenes.slopeBall 0.1 (-10)) [Scenes.slope] = Some k /\
            k_tx k = 3 / 5 /\ k_ty k = 4 / 5.
Proof.
  split.
  - unfold exited, applyGravity, Scenes.slopeBall, Scenes.world.
    cbn [b_x b_y b_r xMin xMax yMin yMax]. Rdecide. reflexivity.
  - set (b := applyGravity Scenes.slopeBall 0.1 (-10)).
    assert (Hr : inRange b (mkPoint 0 0, mkPoint 3 4) = true).
    { apply Rleb_spec. unfold b, applyGravity, Scenes.slopeBall.
      cbn [fst snd b_x b_y b_r p_x p_y]. rewrite closest_slope. cbn [q_x q_y].
      hypot_is 0.2. lra. }
    destruct (proj1 (narrow_inRange _ _ _) Hr) as [k Hk].
    exists k. split.
    + rewrite findBest_last. unfold allSegments, Scenes.slope.
      cbn [flat_map points segmentsOf app filter]. rewrite Hr. exact Hk.
    + destruct (narrow_fields _ _ _ _ Hk) as (_ & _ & _ & _ & Ht).
      cbn [p_x p_y] in Ht.
      destruct (normalize_nonzero (3 - 0) (4 - 0)) as [Hn _]; [lra |].
      rewrite Hn in Ht. rewrite (hypot_unique (3 - 0) (4 - 0) 5) in Ht by lra.
      inversion Ht. split; lra.
Qed.

(** What the contact branch leaves of the velocity.  A ball for which the
    tick finds a contact leaves the tick with a velocity along the segment
    tangent: it is [s] times the tangent, with no component along the contact
    normal, whatever the normal velocity was (discarded, not reflected).  The
    factor [s] is computed from the velocity as it stands after the gravity
    step of line 19, to which lines 87-90 add the tangential projection of
    gravity times [dt] once more, all times [0.995]; on a segment with
    distinct ends [s] is the tangential speed. *)
Theorem contact_velocity_tangential
        (balls : list Ball) (dt gravity : R) (bounds : Bounds)
        (curves : list Curve) (i : nat) (b : Ball) (k : Contact) :
  nth_error balls i = Some b ->
  exited (applyGravity b dt gravity) bounds = false ->
  findBest (applyGravity b dt gravity) curves = Some k ->
  exists b',
    nth_error (updateBalls balls dt gravity bounds curves) i = Some b' /\
    let vt := b_vx b * k_tx k + (b_vy b + gravity * dt) * k_ty k in
    let gt := 0 * k_tx k + gravity * k_ty k in
    let s := (vt + gt * dt) * 0.995 in
    b_vx b' = s * k_tx k /\
    b_vy b' = s * k_ty k /\
    b_vx b' * k_nx k + b_vy b' * k_ny k = 0 /\
    (p_x (k_a k) <> p_x (k_c k) \/ p_y (k_a k) <> p_y (k_c k) ->
     b_vx b' * k_tx k + b_vy b' * k_ty k = s).
Proof.
  intros Hnth He Hf.
  exists (updateBall dt gravity bounds curves b).
  split; [apply updateBalls_nth; exact Hnth |].
  intros vt gt s.
  destruct (contact_velocity dt gravity bounds curves b k He Hf) as [Hx Hy].
  cbv zeta in Hx, Hy. fold vt gt s in Hx, Hy.
  pose proof (findBest_narrow _ _ _ Hf) as Hn.
  pose proof (contact_normal_perp _ _ _ _ Hn) as Hperp.
  repeat split; [exact Hx | exact Hy | |].
  - rewrite Hx, Hy.
    replace (s * k_tx k * k_nx k + s * k_ty k * k_ny k)
      with (s * (k_tx k * k_nx k + k_ty k * k_ny k)) by ring.
    rewrite Hperp. ring.
  - intros Hne. pose proof (contact_tangent_unit _ _ _ _ Hn Hne) as Hu.
    rewrite Hx, Hy.
    replace (s * k_tx k * k_tx k + s * k_ty k * k_ty k)
      with (s * (k_tx k * k_tx k + k_ty k * k_ty k)) by ring.
    rewrite Hu. ring.
Qed.

Lemma contact_velocity_tangential_witness :
  exists k b',
    findBest (applyGravity Scenes.slopeBall 0.1 (-10)) [Scenes.slope] = Some k /\
    updateBalls [Scenes.slopeBall] 0.1 (-10) Scenes.world [Scenes.slope] = [b'] /\
    b_vx b' * k_nx k + b_vy b' * k_ny k = 0.
Proof.
  destruct slope_contact as [He (k & Hf & _ & _)].
  destruct (contact_velocity_tangential [Scenes.slopeBall] 0.1 (-10)
              Scenes.world [Scenes.slope] 0 Scenes.slopeBall k eq_refl He Hf)
    as (b' & Hb' & _ & _ & Hn & _).
  exists k, b'. split; [exact Hf |]. split; [| exact Hn].
  simpl in Hb'. inversion Hb'. reflexivity.
Defined.

(** C1.  The code at the failing input: a ball at rest on the slope from
    the origin to [(3, 4)], gravity [-10], [dt = 0.1].  The claim's formula,
    (old tangential speed + tangential projection of gravity times [dt])
    times [0.995], gives [(0 + (-8) * 0.1) * 0.995 = -0.796]; the tick leaves
    the tangential speed [-1.592].  Gravity acts twice along the tangent: the
    free-fall step of line 19 has already added [gravity * dt] to [vy] when
    lines 85-90 add gravity's tangential projection again. *)
Lemma old_speed_formula_fails :
  exists k b',
    findBest (applyGravity Scenes.slopeBall 0.1 (-10)) [Scenes.slope] = Some k /\
    k_tx k = 3 / 5 /\ k_ty k = 4 / 5 /\
    updateBalls [Scenes.slopeBall] 0.1 (-10) Scenes.world [Scenes.slope] = [b'] /\
    b_vx b' * k_tx k + b_vy b' * k_ty k = -1.592 /\
    ((b_vx Scenes.slopeBall * k_tx k + b_vy Scenes.slopeBall * k_ty k)
     + (0 * k_tx k + (-10) * k_ty k) * 0.1) * 0.995 = -0.796 /\
    b_vx b' * k_tx k + b_vy b' * k_ty k
    <> ((b_vx Scenes.slopeBall * k_tx k + b_vy Scenes.slopeBall * k_ty k)
        + (0 * k_tx k + (-10) * k_ty k) * 0.1) * 0.995.
Proof.
  destruct slope_contact as [He (k & Hf & Htx & Hty)].
  exists k, (updateBall 0.1 (-10) Scenes.world [Scenes.slope] Scenes.slopeBall).
  split; [exact Hf |]. split; [exact Htx |]. split; [exact Hty |].
  split; [reflexivity |].
  destruct (contact_velocity 0.1 (-10) Scenes.world [Scenes.slope]
              Scenes.slopeBall k He Hf) as [Hx Hy].
  cbv zeta in Hx, Hy. rewrite Hx, Hy, Htx, Hty.
  unfold Scenes.slopeBall. cbn [b_vx b_vy]. repeat split; lra.
Qed.

(* ===================================================================== *)
(** ** Leaving the world *)
(* ===================================================================== *)

Lemma exited_applyGravity (b : Ball) (dt gravity : R) (bounds : Bounds) :
  exited (applyGravity b dt gravity) bounds = exited b bounds.
Proof. reflexivity. Qed.

(** One tick on a ball outside the bounds: gravity, then the flag. *)
Lemma updateBall_exited (dt gravity : R) (bounds : Bounds) (curves : list Curve)
      (b : Ball) :
  exited b bounds = true ->
  updateBall dt gravity bounds curves b = markOob (applyGravity b dt gravity).
Proof.
  intros H. unfold updateBall. rewrite exited_applyGravity, H. reflexivity.
Qed.

(** C2 (as amended).  A ball whose circle lies outside the bounds, which
    is when a tick sets its flag, keeps its position, its radius and [vx]
    through every later call with the same bounds, and its flag is set from
    the first call on; [vy] however still gains [gravity * dt] in each call,
    since the gravity step comes before the bounds check. *)
Theorem out_of_bounds_ball_frozen_but_for_gravity
        (bounds : Bounds) (ticks : list (R * R * list Curve))
        (balls : list Ball) (i : nat) (b : Ball) :
  nth_error balls i = Some b ->
  exited b bounds = true ->
  exists b',
    nth_error (runTicks bounds ticks balls) i = Some b' /\
    b_x b' = b_x b /\ b_y b' = b_y b /\ b_r b' = b_r b /\
    b_vx b' = b_vx b /\
    b_vy b' = b_vy b + gravityGain ticks /\
    (ticks <> [] -> b_oob b' = true).
Proof.
  revert balls b. induction ticks as [| [[dt gravity] curves] more IH];
    intros balls b Hnth Hex.
  - exists b. simpl. repeat split; try assumption; try lra. congruence.
  - simpl runTicks.
    pose proof (updateBalls_nth balls dt gravity bounds curves i b Hnth) as Hstep.
    rewrite (updateBall_exited _ _ _ _ _ Hex) in Hstep.
    destruct (IH _ _ Hstep) as (b' & Hb' & Hx & Hy & Hr & Hvx & Hvy & Hoob).
    { exact Hex. }
    exists b'. split; [exact Hb' |].
    cbn [markOob applyGravity b_x b_y b_r b_vx b_vy] in Hx, Hy, Hr, Hvx, Hvy.
    repeat split; try assumption.
    + simpl gravityGain. lra.
    + intros _. destruct more as [| t more'].
      * simpl in Hb'. rewrite Hstep in Hb'. inversion Hb'. reflexivity.
      * apply Hoob. discriminate.
Qed.

Lemma strayBall_exited : exited Scenes.strayBall Scenes.world = true.
Proof.
  unfold exited, Scenes.strayBall, Scenes.world, newBall.
  cbn [b_x b_y b_r xMin xMax yMin yMax]. Rdecide. reflexivity.
Qed.

Lemma out_of_bounds_ball_frozen_but_for_gravity_witness :
  exists b',
    nth_error (runTicks Scenes.world [(0.1, -10, []); (0.1, -10, [])]
                 [Scenes.strayBall]) 0 = Some b' /\
    b_x b' = 100 /\ b_y b' = 0 /\ b_vy b' = -2 /\ b_oob b' = true.
Proof.
  destruct (out_of_bounds_ball_frozen_but_for_gravity Scenes.world
              [(0.1, -10, []); (0.1, -10, [])] [Scenes.strayBall] 0
              Scenes.strayBall eq_refl strayBall_exited)
    as (b' & Hb' & Hx & Hy & _ & _ & Hvy & Hoob).
  exists b'. split; [exact Hb' |].
  cbn [Scenes.strayBall newBall b_x b_y b_vy gravityGain] in Hx, Hy, Hvy.
  repeat split; try assumption; [lra | apply Hoob; discriminate].
Defined.

(** C2 as stated fails: the tick that flags the stray ball has already
    changed its [vy] before the bounds check, and the next call changes the
    flagged ball's [vy] again. *)
Lemma flagged_ball_velocity_changes :
  exists b1 b2,
    updateBalls [Scenes.strayBall] 0.1 (-10) Scenes.world [] = [b1] /\
    b_oob b1 = true /\
    b_vy b1 <> b_vy Scenes.strayBall /\
    updateBalls [b1] 0.1 (-10) Scenes.world [] = [b2] /\
    b_vy b2 <> b_vy b1.
Proof.
  exists (markOob (applyGravity Scenes.strayBall 0.1 (-10))).
  exists (markOob (applyGravity
            (markOob (applyGravity Scenes.strayBall 0.1 (-10))) 0.1 (-10))).
  pose proof strayBall_exited as H.
  repeat split.
  - unfold updateBalls. simpl map. rewrite (updateBall_exited _ _ _ _ _ H). reflexivity.
  - cbn [markOob applyGravity b_vy Scenes.strayBall newBall]. lra.
  - unfold updateBalls. simpl map. rewrite updateBall_exited; [reflexivity | exact H].
  - cbn [markOob applyGravity b_vy Scenes.strayBall newBall]. lra.
Qed.

(* ===================================================================== *)
(** ** The snap onto the surface *)
(* ===================================================================== *)

(** Moving the point at right angles to the segment keeps its closest point. *)
Lemma closest_shift (px py ax ay bx by_ ex ey : R) :
  ex * (bx - ax) + ey * (by_ - ay) = 0 ->
  closestPointOnSegment (px + ex) (py + ey) ax ay bx by_
  = closestPointOnSegment px py ax ay bx by_.
Proof.
  intros Hperp. unfold closestPointOnSegment. cbv zeta.
  replace ((px + ex - ax) * (bx - ax) + (py + ey - ay) * (by_ - ay))
    with ((px - ax) * (bx - ax) + (py - ay) * (by_ - ay)
          + (ex * (bx - ax) + ey * (by_ - ay))) by ring.
  rewrite Hperp, Rplus_0_r. reflexivity.
Qed.

(** What the snap does to a ball that has sunk into a segment with distinct
    ends, when its centre is straight above or below the closest point. *)
Lemma snap_distance (b : Ball) (a c : Point) (k : Contact) :
  narrow b a c = Some k ->
  k_dist k < b_r b ->
  p_x a <> p_x c \/ p_y a <> p_y c ->
  (b_x b - q_x (k_q k)) * (p_x c - p_x a)
  + (b_y b - q_y (k_q k)) * (p_y c - p_y a) = 0 ->
  b_x (snap b k) = b_x b + k_nx k * (b_r b - k_dist k + 1e-4) /\
  b_y (snap b k) = b_y b + k_ny k * (b_r b - k_dist k + 1e-4) /\
  closestPointOnSegment (b_x (snap b k)) (b_y (snap b k))
    (p_x a) (p_y a) (p_x c) (p_y c) = k_q k /\
  hypot (b_x (snap b k) - q_x (k_q k)) (b_y (snap b k) - q_y (k_q k))
  = b_r b + 1e-4.
Proof.
  intros Hn Hlt Hne Hperp.
  pose proof (contact_tangent_unit _ _ _ _ Hn Hne) as Hu.
  pose proof (contact_normal_perp _ _ _ _ Hn) as Htn.
  destruct (narrow_fields _ _ _ _ Hn) as (_ & _ & Hq & Hd & Ht).
  destruct (normalize_nonzero (p_x c - p_x a) (p_y c - p_y a)) as [Hnorm Hm];
    [lra |].
  rewrite Hnorm in Ht. inversion Ht as [[Htx Hty]]. clear Ht.
  set (m := hypot (p_x c - p_x a) (p_y c - p_y a)) in *.
  assert (Hsx : p_x c - p_x a = k_tx k * m) by (rewrite Htx; field; lra).
  assert (Hsy : p_y c - p_y a = k_ty k * m) by (rewrite Hty; field; lra).
  set (dx := b_x b - q_x (k_q k)) in *. set (dy := b_y b - q_y (k_q k)) in *.
  assert (Hdt : dx * k_tx k + dy * k_ty k = 0).
  { rewrite Hsx, Hsy in Hperp.
    assert (Hz : (dx * k_tx k + dy * k_ty k) * m = 0) by lra.
    apply Rmult_integral in Hz. destruct Hz; lra. }
  assert (Hns : k_nx k * (p_x c - p_x a) + k_ny k * (p_y c - p_y a) = 0).
  { rewrite Hsx, Hsy.
    replace (k_nx k * (k_tx k * m) + k_ny k * (k_ty k * m))
      with ((k_tx k * k_nx k + k_ty k * k_ny k) * m) by ring.
    rewrite Htn. ring. }
  (* the normal is a unit vector, and the offset is [dist] times it *)
  assert (Hg : normalize (- k_ty k) (k_tx k) = (- k_ty k, k_tx k))
    by (apply normalize_of_unit; lra).
  assert (Hdist : k_dist k = hypot dx dy).
  { rewrite Hd. unfold distTo. simpl fst. simpl snd. cbv zeta.
    rewrite <- Hq. reflexivity. }
  assert (Hnu : k_nx k * k_nx k + k_ny k * k_ny k = 1 /\
                dx = k_dist k * k_nx k /\ dy = k_dist k * k_ny k).
  { set (e := dx * - k_ty k + dy * k_tx k).
    assert (F1 : dx = e * - k_ty k).
    { transitivity (dx * (k_tx k * k_tx k + k_ty k * k_ty k)
                    - k_tx k * (dx * k_tx k + dy * k_ty k));
        [rewrite Hu, Hdt; ring | unfold e; ring]. }
    assert (F2 : dy = e * k_tx k).
    { transitivity (dy * (k_tx k * k_tx k + k_ty k * k_ty k)
                    - k_ty k * (dx * k_tx k + dy * k_ty k));
        [rewrite Hu, Hdt; ring | unfold e; ring]. }
    assert (F3 : e * e = dx * dx + dy * dy).
    { transitivity ((dx * dx + dy * dy) * (k_tx k * k_tx k + k_ty k * k_ty k)
                    - (dx * k_tx k + dy * k_ty k) * (dx * k_tx k + dy * k_ty k));
        [unfold e; ring | rewrite Hu, Hdt; ring]. }
    destruct (narrow_normal _ _ _ _ Hn) as [(Hsg & Hnx & Hny) | (Hsg & Hnx & Hny)];
      fold dx dy in Hsg; rewrite Hg in Hsg, Hnx, Hny; simpl in Hsg, Hnx, Hny;
      fold e in Hsg.
    - assert (He : hypot dx dy = e) by (apply hypot_unique; lra).
      rewrite Hdist, He, Hnx, Hny. repeat split; [lra | exact F1 | exact F2].
    - assert (He : hypot dx dy = - e) by (apply hypot_unique; lra).
      rewrite Hdist, He, Hnx, Hny.
      repeat split; [lra | rewrite F1 at 1; ring | rewrite F2 at 1; ring]. }
  destruct Hnu as (Hnn & Hdx & Hdy).
  assert (Hsnap : snap b k =
                  setPos b (b_x b + k_nx k * (b_r b - k_dist k + 1e-4))
                           (b_y b + k_ny k * (b_r b - k_dist k + 1e-4))).
  { unfold snap. cbv zeta. unfold Rgtb. rewrite Rltb_true by lra. reflexivity. }
  rewrite Hsnap. cbn [setPos b_x b_y].
  split; [reflexivity |]. split; [reflexivity |]. split.
  - rewrite closest_shift; [symmetry; exact Hq |].
    replace (k_nx k * (b_r b - k_dist k + 1e-4) * (p_x c - p_x a)
             + k_ny k * (b_r b - k_dist k + 1e-4) * (p_y c - p_y a))
      with ((b_r b - k_dist k + 1e-4)
            * (k_nx k * (p_x c - p_x a) + k_ny k * (p_y c - p_y a))) by ring.
    rewrite Hns. ring.
  - replace (b_x b + k_nx k * (b_r b - k_dist k + 1e-4) - q_x (k_q k))
      with ((b_r b + 1e-4) * k_nx k) by (unfold dx in Hdx; nra).
    replace (b_y b + k_ny k * (b_r b - k_dist k + 1e-4) - q_y (k_q k))
      with ((b_r b + 1e-4) * k_ny k) by (unfold dy in Hdy; nra).
    rewrite (hypot_scale _ _ _ Hnn).
    pose proof (hypot_nonneg dx dy). apply Rabs_pos_eq. lra.
Qed.

(** C7 (as amended).  When the contacted ball has sunk into a segment with
    distinct ends (closest-point distance below its radius) and its centre is
    offset from the closest point at right angles to the segment, as it always
    is over the inside of the segment, the snap moves it along the contact
    normal by [radius - dist + 1e-4]; the closest point stays the same and the
    centre ends [radius + 1e-4] away from it. *)
Theorem snap_leaves_radius_plus_epsilon
        (b : Ball) (curves : list Curve) (k : Contact) :
  findBest b curves = Some k ->
  k_dist k < b_r b ->
  p_x (k_a k) <> p_x (k_c k) \/ p_y (k_a k) <> p_y (k_c k) ->
  (b_x b - q_x (k_q k)) * (p_x (k_c k) - p_x (k_a k))
  + (b_y b - q_y (k_q k)) * (p_y (k_c k) - p_y (k_a k)) = 0 ->
  let b' := snap b k in
  b_x b' = b_x b + k_nx k * (b_r b - k_dist k + 1e-4) /\
  b_y b' = b_y b + k_ny k * (b_r b - k_dist k + 1e-4) /\
  closestPointOnSegment (b_x b') (b_y b')
    (p_x (k_a k)) (p_y (k_a k)) (p_x (k_c k)) (p_y (k_c k)) = k_q k /\
  hypot (b_x b' - q_x (k_q k)) (b_y b' - q_y (k_q k)) = b_r b + 1e-4.
Proof.
  intros Hf Hlt Hne Hperp b'.
  apply (snap_distance b (k_a k) (k_c k) k (findBest_narrow _ _ _ Hf) Hlt Hne Hperp).
Qed.

(** The sunk ball on the lower floor, evaluated. *)
Lemma closest_sunk :
  closestPointOnSegment 0 0.1 (-1) 0 1 0 = mkClosest 0 0 0.5.
Proof.
  unfold closestPointOnSegment, clamp. cbv zeta. Rdecide. f_equal; lra.
Qed.

Lemma sunk_contact :
  exists k, findBest Scenes.sunkBall [Scenes.lowerFloor] = Some k /\
            narrow Scenes.sunkBall (mkPoint (-1) 0) (mkPoint 1 0) = Some k /\
            k_a k = mkPoint (-1) 0 /\ k_c k = mkPoint 1 0 /\
            k_q k = mkClosest 0 0 0.5 /\ k_dist k = 0.1.
Proof.
  assert (Hd : distTo Scenes.sunkBall (mkPoint (-1) 0, mkPoint 1 0) = 0.1).
  { unfold distTo, Scenes.sunkBall. cbn [fst snd b_x b_y p_x p_y].
    rewrite closest_sunk. cbn [q_x q_y]. hypot_is 0.1. reflexivity. }
  assert (Hr : inRange Scenes.sunkBall (mkPoint (-1) 0, mkPoint 1 0) = true).
  { apply Rleb_spec. fold (distTo Scenes.sunkBall (mkPoint (-1) 0, mkPoint 1 0)).
    rewrite Hd. cbn [b_r Scenes.sunkBall]. lra. }
  destruct (proj1 (narrow_inRange _ _ _) Hr) as [k Hk].
  exists k. split.
  - rewrite findBest_last. unfold allSegments, Scenes.lowerFloor.
    cbn [flat_map points segmentsOf app filter]. rewrite Hr. exact Hk.
  - destruct (narrow_fields _ _ _ _ Hk) as (Ha & Hc & Hq & Hdist & _).
    cbn [Scenes.sunkBall b_x b_y p_x p_y] in Hq. rewrite closest_sunk in Hq.
    rewrite Hd in Hdist. auto.
Qed.

Lemma snap_leaves_radius_plus_epsilon_witness :
  exists k,
    findBest Scenes.sunkBall [Scenes.lowerFloor] = Some k /\
    hypot (b_x (snap Scenes.sunkBall k) - q_x (k_q k))
          (b_y (snap Scenes.sunkBall k) - q_y (k_q k)) = 0.2 + 1e-4.
Proof.
  destruct sunk_contact as (k & Hf & _ & Ha & Hc & Hq & Hd).
  exists k. split; [exact Hf |].
  refine (proj2 (proj2 (proj2
    (snap_leaves_radius_plus_epsilon Scenes.sunkBall [Scenes.lowerFloor] k
       Hf _ _ _)))).
  - rewrite Hd. cbn [b_r Scenes.sunkBall]. lra.
  - rewrite Ha, Hc. cbn [p_x]. left. lra.
  - rewrite Ha, Hc, Hq. cbn [p_x p_y q_x q_y b_x b_y Scenes.sunkBall]. lra.
Defined.

(** C7 as stated fails: the ball sunk [0.1] into the lower floor is put
    [0.2001] from the closest point of the segment, not at its radius [0.2]. *)
Lemma snap_distance_is_not_radius :
  exists k,
    findBest Scenes.sunkBall [Scenes.lowerFloor] = Some k /\
    k_a k = mkPoint (-1) 0 /\ k_c k = mkPoint 1 0 /\
    k_dist k < b_r Scenes.sunkBall /\
    hypot (b_x (snap Scenes.sunkBall k)
           - q_x (closestPointOnSegment (b_x (snap Scenes.sunkBall k))
                    (b_y (snap Scenes.sunkBall k)) (-1) 0 1 0))
          (b_y (snap Scenes.sunkBall k)
           - q_y (closestPointOnSegment (b_x (snap Scenes.sunkBall k))
                    (b_y (snap Scenes.sunkBall k)) (-1) 0 1 0))
    <> b_r Scenes.sunkBall.
Proof.
  destruct sunk_contact as (k & Hf & Hn & Ha & Hc & Hq & Hd).
  exists k. split; [exact Hf |]. split; [exact Ha |]. split; [exact Hc |].
  assert (Hlt : k_dist k < b_r Scenes.sunkBall)
    by (rewrite Hd; cbn [b_r Scenes.sunkBall]; lra).
  split; [exact Hlt |].
  destruct (snap_distance Scenes.sunkBall (mkPoint (-1) 0) (mkPoint 1 0) k Hn Hlt)
    as (_ & _ & Hq' & Hh).
  - cbn [p_x]. left. lra.
  - rewrite Hq. cbn [p_x p_y q_x q_y b_x b_y Scenes.sunkBall]. lra.
  - cbn [p_x p_y] in Hq'. rewrite Hq', Hh. cbn [b_r Scenes.sunkBall]. lra.
Qed.

End PhysicsFacts.

(* ===================================================================== *)
(** ** Star collection *)
(* ===================================================================== *)

Module CollectionFacts.
Import Physics.

(** The inner loop on a star not yet collected: either no ball is in range
    and nothing changes, or the star is collected and counted once. *)
Lemma scanBalls_effect (now : nat -> R) (radius : R) (s : Star)
      (seen todo : list Ball) (st : CollectState) :
  s_collected s = false ->
  let '(s', st') := scanBalls now radius s seen todo st in
  (s' = s /\ cs_count st' = cs_count st) \/
  (s_collected s' = true /\ cs_count st' = S (cs_count st)).
Proof.
  intros Hs. revert seen. induction todo as [| b rest IH]; intros seen.
  - simpl. left. split; reflexivity.
  - simpl. destruct (Rleb _ _).
    + rewrite Hs. simpl. right. split; reflexivity.
    + apply IH.
Qed.

Lemma countCollected_cons (s : Star) (stars : list Star) :
  countCollected (s :: stars)
  = ((if s_collected s then 1 else 0) + countCollected stars)%nat.
Proof. unfold countCollected. simpl. destruct (s_collected s); reflexivity. Qed.

(** The outer loop: collected stars are passed over untouched, and the
    count grows by the number of stars that are collected at the end. *)
Lemma scanStars_effect (now : nat -> R) (radius : R) (stars : list Star)
      (st : CollectState) :
  let '(stars', st') := scanStars now radius stars st in
  (forall i s, nth_error stars i = Some s -> s_collected s = true ->
               nth_error stars' i = Some s) /\
  cs_count st' = (cs_count st + countCollected stars')%nat.
Proof.
  revert st. induction stars as [| s rest IH]; intros st.
  - simpl. split; [intros i s H _; exact H | unfold countCollected; simpl; lia].
  - simpl. destruct (s_collected s) eqn:Hs.
    + specialize (IH (mkCollectState (cs_balls st) (cs_clock st)
                                     (S (cs_count st)) (cs_newly st))).
      destruct (scanStars now radius rest _) as [rest' st''].
      destruct IH as [Hkeep Hcount]. split.
      * intros [| i] s0 Hn Hc; [exact Hn | simpl in *; apply Hkeep; assumption].
      * rewrite countCollected_cons, Hs, Hcount. simpl. lia.
    + pose proof (scanBalls_effect now radius s [] (cs_balls st) st Hs) as Hb.
      destruct (scanBalls now radius s [] (cs_balls st) st) as [s' st'].
      specialize (IH st').
      destruct (scanStars now radius rest st') as [rest' st''].
      destruct IH as [Hkeep Hcount]. split.
      * intros [| i] s0 Hn Hc.
        -- simpl in Hn. inversion Hn; subst. congruence.
        -- simpl in *. apply Hkeep; assumption.
      * rewrite countCollected_cons, Hcount.
        destruct Hb as [[-> Hc] | [Hc1 Hc2]].
        -- rewrite Hs, Hc. simpl. lia.
        -- rewrite Hc1, Hc2. simpl. lia.
Qed.

Lemma checkStarCollection_effect (now : nat -> R) (clock : nat)
      (balls : list Ball) (stars : list Star) (radius : R) :
  let '(res, stars', _, _) := checkStarCollection now clock balls stars radius in
  (forall i s, nth_error stars i = Some s -> s_collected s = true ->
               nth_error stars' i = Some s) /\
  count res = countCollected stars'.
Proof.
  unfold checkStarCollection.
  pose proof (scanStars_effect now radius stars
                (mkCollectState balls clock 0%nat false)) as H.
  destruct (scanStars now radius stars _) as [stars' st].
  destruct H as [Hkeep Hcount]. split; [exact Hkeep |]. simpl in *. exact Hcount.
Qed.

Lemma collected_counted (stars : list Star) (i : nat) (s : Star) :
  nth_error stars i = Some s -> s_collected s = true ->
  (1 <= countCollected stars)%nat.
Proof.
  intros Hn Hc. unfold countCollected.
  assert (Hin : In s (filter s_collected stars)).
  { apply filter_In. split; [eapply nth_error_In; exact Hn | exact Hc]. }
  destruct (filter s_collected stars); [contradiction | simpl; lia].
Qed.

(** C9.  A star that is collected stays exactly as it is through any run
    of calls, whatever balls each call is given, and every call's count is
    the number of stars collected after it, the star among them. *)
Theorem collected_star_stays_collected
        (now : nat -> R) (clock : nat) (frames : list (list Ball * R))
        (stars : list Star) (i : nat) (s : Star) :
  nth_error stars i = Some s ->
  s_collected s = true ->
  Forall (fun step : StarResult * list Star =>
            nth_error (snd step) i = Some s /\
            count (fst step) = countCollected (snd step) /\
            (1 <= count (fst step))%nat)
         (collectRun now clock frames stars).
Proof.
  intros Hn Hc. revert clock stars Hn.
  induction frames as [| [balls radius] more IH]; intros clock stars Hn.
  - constructor.
  - simpl.
    pose proof (checkStarCollection_effect now clock balls stars radius) as H.
    destruct (checkStarCollection now clock balls stars radius)
      as [[[res stars'] balls'] clock'].
    destruct H as [Hkeep Hcount].
    pose proof (Hkeep i s Hn Hc) as Hn'.
    constructor.
    + simpl. split; [exact Hn' |]. split; [exact Hcount |].
      rewrite Hcount. eapply collected_counted; eassumption.
    + apply IH. exact Hn'.
Qed.

Lemma collected_star_stays_collected_witness :
  Forall (fun step : StarResult * list Star =>
            nth_error (snd step) 0 = Some Scenes.oldStar /\
            count (fst step) = countCollected (snd step) /\
            (1 <= count (fst step))%nat)
         (collectRun Scenes.clockReading 0
            [([Scenes.farBall], 0.35); ([], 0.3)] [Scenes.oldStar]).
Proof.
  exact (collected_star_stays_collected Scenes.clockReading 0
           [([Scenes.farBall], 0.35); ([], 0.3)] [Scenes.oldStar] 0
           Scenes.oldStar eq_refl eq_refl).
Defined.

End CollectionFacts.

(* ===================================================================== *)
(** ** The sampler *)
(* ===================================================================== *)

Module SamplerFacts.
Import EquationsJs.
Import PhysicsFacts.

(** *** The cleaning loop *)

Lemma neighboursOK_snoc (l : Polyline) (x : option Point) :
  neighboursOK l ->
  match lastOpt l with Some a => pairOK a x | None => True end ->
  neighboursOK (l ++ [x]).
Proof.
  induction l as [| a rest IH]; intros Hl Hx; [exact I |].
  destruct rest as [| b rest'].
  - simpl in *. split; [exact Hx | exact I].
  - change (pairOK a b /\ neighboursOK ((b :: rest') ++ [x])).
    destruct Hl as [Hab Hrest]. split; [exact Hab |].
    apply IH; [exact Hrest | exact Hx].
Qed.

Lemma noLeadingBreak_snoc (l : Polyline) (x : option Point) :
  noLeadingBreak l -> (l = [] -> x <> None) -> noLeadingBreak (l ++ [x]).
Proof.
  destruct l as [| a rest]; intros Hl Hx.
  - simpl. destruct x; [exact I | apply Hx; reflexivity].
  - exact Hl.
Qed.

Lemma cleanStep_keeps (out : Polyline) (p : option Point) :
  noLeadingBreak out /\ neighboursOK out ->
  noLeadingBreak (cleanStep out p) /\ neighboursOK (cleanStep out p).
Proof.
  intros [Hh Hn]. unfold cleanStep, push.
  destruct p as [p |]; destruct (lastOpt out) as [[l |] |] eqn:El.
  - destruct (Rgtb _ 1e-9) eqn:E; [| split; assumption].
    apply Rltb_spec in E. split.
    + apply noLeadingBreak_snoc; [exact Hh | discriminate].
    + apply neighboursOK_snoc; [exact Hn |]. rewrite El. exact E.
  - split.
    + apply noLeadingBreak_snoc; [exact Hh | discriminate].
    + apply neighboursOK_snoc; [exact Hn |]. rewrite El. exact I.
  - split.
    + apply noLeadingBreak_snoc; [exact Hh | discriminate].
    + apply neighboursOK_snoc; [exact Hn |]. rewrite El. exact I.
  - split.
    + apply noLeadingBreak_snoc; [exact Hh |].
      intros ->. discriminate.
    + apply neighboursOK_snoc; [exact Hn |]. rewrite El. exact I.
  - split; assumption.
  - split; assumption.
Qed.

Lemma cleanUp_from (pts out : Polyline) :
  noLeadingBreak out /\ neighboursOK out ->
  noLeadingBreak (fold_left cleanStep pts out) /\
  neighboursOK (fold_left cleanStep pts out).
Proof.
  revert out. induction pts as [| p rest IH]; intros out H; [exact H |].
  simpl. apply IH. apply cleanStep_keeps. exact H.
Qed.

Lemma cleanUp_wellformed (pts : Polyline) :
  noLeadingBreak (cleanUp pts) /\ neighboursOK (cleanUp pts).
Proof. apply cleanUp_from. split; exact I. Qed.

(** The invariant read by positions. *)
Lemma neighboursOK_nth (l : Polyline) (i : nat) (a b : option Point) :
  neighboursOK l ->
  nth_error l i = Some a -> nth_error l (S i) = Some b -> pairOK a b.
Proof.
  revert i. induction l as [| x rest IH]; intros i Hl Ha Hb.
  - destruct i; discriminate.
  - destruct rest as [| y rest']; [destruct i; discriminate |].
    destruct Hl as [Hxy Hrest]. destruct i as [| i].
    + simpl in Ha, Hb. inversion Ha; inversion Hb; subst. exact Hxy.
    + apply (IH i Hrest); assumption.
Qed.

Lemma cleanStep_subset (out : Polyline) (p x : option Point) :
  In x (cleanStep out p) -> In x out \/ x = p.
Proof.
  unfold cleanStep, push.
  destruct p as [p |]; destruct (lastOpt out) as [[l |] |];
    try destruct (Rgtb _ 1e-9); intros H;
    try (left; exact H);
    apply in_app_or in H; destruct H as [H | [H | []]]; auto.
Qed.

Lemma cleanUp_subset_from (pts out : Polyline) (x : option Point) :
  In x (fold_left cleanStep pts out) -> In x out \/ In x pts.
Proof.
  revert out. induction pts as [| p rest IH]; intros out H; [left; exact H |].
  simpl in H. apply IH in H. destruct H as [H | H]; [| right; right; exact H].
  apply cleanStep_subset in H. destruct H as [H | H];
    [left; exact H | right; left; symmetry; exact H].
Qed.

Lemma cleanUp_subset (pts : Polyline) (x : option Point) :
  In x (cleanUp pts) -> In x pts.
Proof.
  intros H. apply cleanUp_subset_from in H. destruct H as [[] | H]. exact H.
Qed.

(** *** Where the stored points come from *)

Lemma safeEval_spec (f : Evaluator) (cond : option Predicate) (x y : R) :
  safeEval f cond x = Some y <->
  f x = Returns (VNum y) /\ Rabs y <= 1e6 /\
  (forall c, cond = Some c -> c x y = Returns true).
Proof.
  unfold safeEval, MAX_Y. split.
  - destruct (f x) as [| [v | | | |]]; try discriminate.
    destruct (Rgtb (Rabs v) 1e6) eqn:E; [discriminate |].
    apply Rltb_nspec in E.
    destruct cond as [c |].
    + destruct (c x v) as [| [|]] eqn:Ec; try discriminate.
      intros H; inversion H; subst. repeat split; try assumption.
      intros c' Hc'. inversion Hc'; subst. exact Ec.
    + intros H; inversion H; subst. repeat split; try assumption.
      intros c' Hc'. discriminate.
  - intros (Hf & Hb & Hc). rewrite Hf. unfold Rgtb. rewrite Rltb_false by exact Hb.
    destruct cond as [c |]; [| reflexivity]. rewrite (Hc c eq_refl). reflexivity.
Qed.

Lemma safeEvalY_spec (g : Evaluator) (cond : option Predicate) (y x : R) :
  safeEvalY g cond y = Some x <->
  g y = Returns (VNum x) /\ Rabs x <= 1e6 /\
  (forall c, cond = Some c -> c x y = Returns true).
Proof.
  unfold safeEvalY, MAX_X. split.
  - destruct (g y) as [| [v | | | |]]; try discriminate.
    destruct (Rgtb (Rabs v) 1e6) eqn:E; [discriminate |].
    apply Rltb_nspec in E.
    destruct cond as [c |].
    + destruct (c v y) as [| [|]] eqn:Ec; try discriminate.
      intros H; inversion H; subst. repeat split; try assumption.
      intros c' Hc'. inversion Hc'; subst. exact Ec.
    + intros H; inversion H; subst. repeat split; try assumption.
      intros c' Hc'. discriminate.
  - intros (Hf & Hb & Hc). rewrite Hf. unfold Rgtb. rewrite Rltb_false by exact Hb.
    destruct cond as [c |]; [| reflexivity]. rewrite (Hc c eq_refl). reflexivity.
Qed.

Lemma in_push (pts : Polyline) (p x : option Point) :
  In x (push pts p) -> In x pts \/ x = p.
Proof.
  unfold push. intros H. apply in_app_or in H.
  destruct H as [H | [H | []]]; auto.
Qed.

Lemma addBreak_points (pts : Polyline) (p : Point) :
  In (Some p) (addBreak pts) -> In (Some p) pts.
Proof.
  unfold addBreak. destruct (lastOpt pts) as [[l |] |]; intros H;
    try exact H; apply in_push in H; destruct H as [H | H];
    try exact H; discriminate.
Qed.

Lemma accept_points (x0 y0 xm ym x1 y1 : R) (pts : Polyline) (p : Point) :
  In (Some p) (accept x0 y0 xm ym x1 y1 pts) ->
  In (Some p) pts \/ p = mkPoint x0 y0 \/ p = mkPoint xm ym \/ p = mkPoint x1 y1.
Proof.
  unfold accept.
  set (pts1 := match lastOpt pts with
               | Some (Some _) => pts
               | _ => push pts (Some (mkPoint x0 y0))
               end).
  set (pts2 := match lastOpt pts1 with
               | Some (Some last) =>
                   if Rgtb (Rabs (xm - p_x last)) 1e-9
                   then push pts1 (Some (mkPoint xm ym)) else pts1
               | _ => push pts1 (Some (mkPoint xm ym))
               end).
  assert (H1 : In (Some p) pts1 -> In (Some p) pts \/ p = mkPoint x0 y0).
  { unfold pts1. destruct (lastOpt pts) as [[l |] |]; intros H; auto;
      apply in_push in H; destruct H as [H | H]; auto; inversion H; auto. }
  assert (H2 : In (Some p) pts2 -> In (Some p) pts1 \/ p = mkPoint xm ym).
  { unfold pts2. destruct (lastOpt pts1) as [[l |] |];
      try destruct (Rgtb _ 1e-9); intros H; auto;
      apply in_push in H; destruct H as [H | H]; auto; inversion H; auto. }
  destruct (Rgtb (Rabs (x1 - xm)) 1e-9); intros H.
  - apply in_push in H. destruct H as [H | H]; [| inversion H; auto].
    apply H2 in H. destruct H as [H | H]; [| auto].
    apply H1 in H. destruct H; auto.
  - apply H2 in H. destruct H as [H | H]; [| auto].
    apply H1 in H. destruct H; auto.
Qed.

Lemma acceptY_points (y0 x0 ym xm y1 x1 : R) (pts : Polyline) (p : Point) :
  In (Some p) (acceptY y0 x0 ym xm y1 x1 pts) ->
  In (Some p) pts \/ p = mkPoint x0 y0 \/ p = mkPoint xm ym \/ p = mkPoint x1 y1.
Proof.
  unfold acceptY.
  set (pts1 := match lastOpt pts with
               | Some (Some _) => pts
               | _ => push pts (Some (mkPoint x0 y0))
               end).
  set (pts2 := match lastOpt pts1 with
               | Some (Some last) =>
                   if Rgtb (Rabs (ym - p_y last)) 1e-9
                   then push pts1 (Some (mkPoint xm ym)) else pts1
               | _ => push pts1 (Some (mkPoint xm ym))
               end).
  assert (H1 : In (Some p) pts1 -> In (Some p) pts \/ p = mkPoint x0 y0).
  { unfold pts1. destruct (lastOpt pts) as [[l |] |]; intros H; auto;
      apply in_push in H; destruct H as [H | H]; auto; inversion H; auto. }
  assert (H2 : In (Some p) pts2 -> In (Some p) pts1 \/ p = mkPoint xm ym).
  { unfold pts2. destruct (lastOpt pts1) as [[l |] |];
      try destruct (Rgtb _ 1e-9); intros H; auto;
      apply in_push in H; destruct H as [H | H]; auto; inversion H; auto. }
  destruct (Rgtb (Rabs (y1 - ym)) 1e-9); intros H.
  - apply in_push in H. destruct H as [H | H]; [| inversion H; auto].
    apply H2 in H. destruct H as [H | H]; [| auto].
    apply H1 in H. destruct H; auto.
  - apply H2 in H. destruct H as [H | H]; [| auto].
    apply H1 in H. destruct H; auto.
Qed.

(** Every point [subdivide] stores is an end or a midpoint it was handed or
    has evaluated itself. *)
Lemma subdivide_sampled (f : Evaluator) (cond : option Predicate)
      (x0 : R) (y0 : option R) (x1 : R) (y1 : option R)
      (depth : nat) (pts : Polyline) :
  (forall v, y0 = Some v -> safeEval f cond x0 = Some v) ->
  (forall v, y1 = Some v -> safeEval f cond x1 = Some v) ->
  (forall p, In (Some p) pts -> safeEval f cond (p_x p) = Some (p_y p)) ->
  forall p, In (Some p) (subdivide f cond x0 y0 x1 y1 depth pts) ->
            safeEval f cond (p_x p) = Some (p_y p).
Proof.
  funelim (subdivide f cond x0 y0 x1 y1 depth pts); intros Hy0 Hy1 Hpts p Hin;
    try (apply Hpts, addBreak_points; exact Hin);
    try (apply accept_points in Hin;
         destruct Hin as [Hin | [-> | [-> | ->]]]; simpl;
         [apply Hpts; exact Hin | apply Hy0; reflexivity
         | assumption | apply Hy1; reflexivity]).
  all: match goal with
       | IH2 : context [subdivide _ _ _ _ _ _ _ (subdivide _ _ _ _ _ _ _ _)],
         IH1 : _ |- _ =>
           eapply IH2; [| | | exact Hin];
           [ try (intros v Hv; inversion Hv; subst; assumption);
             try (intros v Hv; exact Hv); try discriminate
           | assumption
           | intros q Hq; eapply IH1; [| | | exact Hq];
             [ assumption
             | try (intros v Hv; inversion Hv; subst; assumption);
               try (intros v Hv; exact Hv); try discriminate
             | assumption ] ]
       end.
Qed.

Lemma subdivideY_sampled (g : Evaluator) (cond : option Predicate)
      (y0 : R) (x0 : option R) (y1 : R) (x1 : option R)
      (depth : nat) (pts : Polyline) :
  (forall v, x0 = Some v -> safeEvalY g cond y0 = Some v) ->
  (forall v, x1 = Some v -> safeEvalY g cond y1 = Some v) ->
  (forall p, In (Some p) pts -> safeEvalY g cond (p_y p) = Some (p_x p)) ->
  forall p, In (Some p) (subdivideY g cond y0 x0 y1 x1 depth pts) ->
            safeEvalY g cond (p_y p) = Some (p_x p).
Proof.
  funelim (subdivideY g cond y0 x0 y1 x1 depth pts); intros Hx0 Hx1 Hpts p Hin;
    try (apply Hpts, addBreak_points; exact Hin);
    try (apply acceptY_points in Hin;
         destruct Hin as [Hin | [-> | [-> | ->]]]; simpl;
         [apply Hpts; exact Hin | apply Hx0; reflexivity
         | assumption | apply Hx1; reflexivity]).
  all: match goal with
       | IH2 : context [subdivideY _ _ _ _ _ _ _ (subdivideY _ _ _ _ _ _ _ _)],
         IH1 : _ |- _ =>
           eapply IH2; [| | | exact Hin];
           [ try (intros v Hv; inversion Hv; subst; assumption);
             try (intros v Hv; exact Hv); try discriminate
           | assumption
           | intros q Hq; eapply IH1; [| | | exact Hq];
             [ assumption
             | try (intros v Hv; inversion Hv; subst; assumption);
               try (intros v Hv; exact Hv); try discriminate
             | assumption ] ]
       end.
Qed.

(** *** The coarse loop *)

Lemma sampleLoop_sampled (f : Evaluator) (cond : option Predicate)
      (fuel : nat) (xMax coarse x0 : R) (y0 : option R) (x1 : R)
      (pts out : Polyline) :
  (forall v, y0 = Some v -> safeEval f cond x0 = Some v) ->
  (forall p, In (Some p) pts -> safeEval f cond (p_x p) = Some (p_y p)) ->
  sampleLoop f cond fuel xMax coarse x0 y0 x1 pts = Some out ->
  forall p, In (Some p) out -> safeEval f cond (p_x p) = Some (p_y p).
Proof.
  revert x0 y0 x1 pts. induction fuel as [| fuel IH]; intros x0 y0 x1 pts Hy0 Hpts;
    [discriminate |].
  simpl. destruct (Rltb x0 (xMax + 1e-9)).
  - assert (Hnew : forall p,
               In (Some p) (subdivide f cond x0 y0 x1 (safeEval f cond x1) 0 pts) ->
               safeEval f cond (p_x p) = Some (p_y p)).
    { apply subdivide_sampled; [exact Hy0 | intros v Hv; exact Hv | exact Hpts]. }
    destruct (Rgeb x1 xMax).
    + intros H; inversion H; subst. exact Hnew.
    + apply IH; [intros v Hv; exact Hv | exact Hnew].
  - intros H; inversion H; subst. exact Hpts.
Qed.

Lemma sampleLoopY_sampled (g : Evaluator) (cond : option Predicate)
      (fuel : nat) (yMax coarse y0 : R) (x0 : option R) (y1 : R)
      (pts out : Polyline) :
  (forall v, x0 = Some v -> safeEvalY g cond y0 = Some v) ->
  (forall p, In (Some p) pts -> safeEvalY g cond (p_y p) = Some (p_x p)) ->
  sampleLoopY g cond fuel yMax coarse y0 x0 y1 pts = Some out ->
  forall p, In (Some p) out -> safeEvalY g cond (p_y p) = Some (p_x p).
Proof.
  revert y0 x0 y1 pts. induction fuel as [| fuel IH]; intros y0 x0 y1 pts Hx0 Hpts;
    [discriminate |].
  simpl. destruct (Rltb y0 (yMax + 1e-9)).
  - assert (Hnew : forall p,
               In (Some p) (subdivideY g cond y0 x0 y1 (safeEvalY g cond y1) 0 pts) ->
               safeEvalY g cond (p_y p) = Some (p_x p)).
    { apply subdivideY_sampled; [exact Hx0 | intros v Hv; exact Hv | exact Hpts]. }
    destruct (Rgeb y1 yMax).
    + intros H; inversion H; subst. exact Hnew.
    + apply IH; [intros v Hv; exact Hv | exact Hnew].
  - intros H; inversion H; subst. exact Hpts.
Qed.

(** More fuel does not change what the loop returns. *)
Lemma sampleLoop_more_fuel (f : Evaluator) (cond : option Predicate)
      (fuel k : nat) (xMax coarse x0 : R) (y0 : option R) (x1 : R)
      (pts out : Polyline) :
  sampleLoop f cond fuel xMax coarse x0 y0 x1 pts = Some out ->
  sampleLoop f cond (fuel + k) xMax coarse x0 y0 x1 pts = Some out.
Proof.
  revert x0 y0 x1 pts. induction fuel as [| fuel IH]; intros x0 y0 x1 pts;
    [discriminate |].
  simpl. destruct (Rltb x0 (xMax + 1e-9)); [| trivial].
  destruct (Rgeb x1 xMax); [trivial | apply IH].
Qed.

Lemma sampleLoopY_more_fuel (g : Evaluator) (cond : option Predicate)
      (fuel k : nat) (yMax coarse y0 : R) (x0 : option R) (y1 : R)
      (pts out : Polyline) :
  sampleLoopY g cond fuel yMax coarse y0 x0 y1 pts = Some out ->
  sampleLoopY g cond (fuel + k) yMax coarse y0 x0 y1 pts = Some out.
Proof.
  revert y0 x0 y1 pts. induction fuel as [| fuel IH]; intros y0 x0 y1 pts;
    [discriminate |].
  simpl. destruct (Rltb y0 (yMax + 1e-9)); [| trivial].
  destruct (Rgeb y1 yMax); [trivial | apply IH].
Qed.

(** The loop is over after at most [n + 1] rounds once the far end is
    within [n] coarse steps. *)
Lemma sampleLoop_returns (f : Evaluator) (cond : option Predicate)
      (n : nat) (xMax coarse x0 : R) (y0 : option R) (x1 : R) (pts : Polyline) :
  0 <= coarse ->
  xMax - x1 <= INR n * coarse ->
  exists out, sampleLoop f cond (S n) xMax coarse x0 y0 x1 pts = Some out.
Proof.
  intros Hc. revert x0 y0 x1 pts. induction n as [| n IH]; intros x0 y0 x1 pts Hx.
  - simpl in *. destruct (Rltb x0 (xMax + 1e-9)); [| eexists; reflexivity].
    unfold Rgeb. rewrite Rleb_true by lra. eexists; reflexivity.
  - change (sampleLoop f cond (S (S n)) xMax coarse x0 y0 x1 pts)
      with (if Rltb x0 (xMax + 1e-9) then
              if Rgeb x1 xMax
              then Some (subdivide f cond x0 y0 x1 (safeEval f cond x1) 0 pts)
              else sampleLoop f cond (S n) xMax coarse x1 (safeEval f cond x1)
                     (Rmin (x1 + coarse) xMax)
                     (subdivide f cond x0 y0 x1 (safeEval f cond x1) 0 pts)
            else Some pts).
    destruct (Rltb x0 (xMax + 1e-9)); [| eexists; reflexivity].
    destruct (Rgeb x1 xMax); [eexists; reflexivity |].
    apply IH. rewrite S_INR in Hx.
    unfold Rmin. destruct (Rle_dec (x1 + coarse) xMax).
    + lra.
    + pose proof (pos_INR n). nra.
Qed.

Lemma sampleLoopY_returns (g : Evaluator) (cond : option Predicate)
      (n : nat) (yMax coarse y0 : R) (x0 : option R) (y1 : R) (pts : Polyline) :
  0 <= coarse ->
  yMax - y1 <= INR n * coarse ->
  exists out, sampleLoopY g cond (S n) yMax coarse y0 x0 y1 pts = Some out.
Proof.
  intros Hc. revert y0 x0 y1 pts. induction n as [| n IH]; intros y0 x0 y1 pts Hy.
  - simpl in *. destruct (Rltb y0 (yMax + 1e-9)); [| eexists; reflexivity].
    unfold Rgeb. rewrite Rleb_true by lra. eexists; reflexivity.
  - change (sampleLoopY g cond (S (S n)) yMax coarse y0 x0 y1 pts)
      with (if Rltb y0 (yMax + 1e-9) then
              if Rgeb y1 yMax
              then Some (subdivideY g cond y0 x0 y1 (safeEvalY g cond y1) 0 pts)
              else sampleLoopY g cond (S n) yMax coarse y1 (safeEvalY g cond y1)
                     (Rmin (y1 + coarse) yMax)
                     (subdivideY g cond y0 x0 y1 (safeEvalY g cond y1) 0 pts)
            else Some pts).
    destruct (Rltb y0 (yMax + 1e-9)); [| eexists; reflexivity].
    destruct (Rgeb y1 yMax); [eexists; reflexivity |].
    apply IH. rewrite S_INR in Hy.
    unfold Rmin. destruct (Rle_dec (y1 + coarse) yMax).
    + lra.
    + pose proof (pos_INR n). nra.
Qed.

(** From the start of [sampleCurve] the loop needs at most 64 rounds. *)
Lemma sampleLoop_start_returns (f : Evaluator) (cond : option Predicate)
      (xMin xMax step : R) (y0 : option R) (pts : Polyline) :
  let coarse := Rmax step ((xMax - xMin) / 64) in
  exists out, forall k,
    sampleLoop f cond (64 + k) xMax coarse xMin y0 (Rmin (xMin + coarse) xMax) pts
    = Some out.
Proof.
  intros coarse.
  assert (Hc : (xMax - xMin) / 64 <= coarse) by apply Rmax_r.
  destruct (Rlt_dec xMin xMax) as [Hlt | Hge].
  - destruct (sampleLoop_returns f cond 63 xMax coarse xMin y0
                (Rmin (xMin + coarse) xMax) pts) as [out Hout].
    + lra.
    + replace (INR 63) with 63 by (simpl; lra).
      unfold Rmin. destruct (Rle_dec (xMin + coarse) xMax); lra.
    + exists out. intros k. apply (sampleLoop_more_fuel f cond 64 k). exact Hout.
  - destruct (Rlt_dec xMin (xMax + 1e-9)) as [Hnear | Hfar].
    + assert (Hx1 : Rmin (xMin + coarse) xMax = xMax)
        by (apply Rmin_right; lra).
      rewrite Hx1.
      exists (subdivide f cond xMin y0 xMax (safeEval f cond xMax) 0 pts).
      intros k. change (64 + k)%nat with (S (63 + k)). simpl.
      rewrite Rltb_true by exact Hnear. unfold Rgeb.
      rewrite Rleb_true by lra. reflexivity.
    + exists pts. intros k. change (64 + k)%nat with (S (63 + k)). simpl.
      rewrite Rltb_false by lra. reflexivity.
Qed.

Lemma sampleLoopY_start_returns (g : Evaluator) (cond : option Predicate)
      (yMin yMax step : R) (x0 : option R) (pts : Polyline) :
  let coarse := Rmax step ((yMax - yMin) / 64) in
  exists out, forall k,
    sampleLoopY g cond (64 + k) yMax coarse yMin x0 (Rmin (yMin + coarse) yMax) pts
    = Some out.
Proof.
  intros coarse.
  assert (Hc : (yMax - yMin) / 64 <= coarse) by apply Rmax_r.
  destruct (Rlt_dec yMin yMax) as [Hlt | Hge].
  - destruct (sampleLoopY_returns g cond 63 yMax coarse yMin x0
                (Rmin (yMin + coarse) yMax) pts) as [out Hout].
    + lra.
    + replace (INR 63) with 63 by (simpl; lra).
      unfold Rmin. destruct (Rle_dec (yMin + coarse) yMax); lra.
    + exists out. intros k. apply (sampleLoopY_more_fuel g cond 64 k). exact Hout.
  - destruct (Rlt_dec yMin (yMax + 1e-9)) as [Hnear | Hfar].
    + assert (Hy1 : Rmin (yMin + coarse) yMax = yMax)
        by (apply Rmin_right; lra).
      rewrite Hy1.
      exists (subdivideY g cond yMin x0 yMax (safeEvalY g cond yMax) 0 pts).
      intros k. change (64 + k)%nat with (S (63 + k)). simpl.
      rewrite Rltb_true by exact Hnear. unfold Rgeb.
      rewrite Rleb_true by lra. reflexivity.
    + exists pts. intros k. change (64 + k)%nat with (S (63 + k)). simpl.
      rewrite Rltb_false by lra. reflexivity.
Qed.

(** [sampleCurve] returns, with the same polyline for every sufficient
    fuel, and that polyline is the cleaned array of the loop. *)
Lemma sampleCurve_returns (f : Evaluator) (cond : option Predicate)
      (xMin xMax step : R) :
  exists pts,
    (forall k, sampleLoop f cond (64 + k) xMax (Rmax step ((xMax - xMin) / 64))
                 xMin (safeEval f cond xMin)
                 (Rmin (xMin + Rmax step ((xMax - xMin) / 64)) xMax) []
               = Some pts) /\
    (forall k, sampleCurve f cond (64 + k) xMin xMax step = Some (cleanUp pts)) /\
    (forall fuel out, sampleCurve f cond fuel xMin xMax step = Some out ->
                      out = cleanUp pts).
Proof.
  destruct (sampleLoop_start_returns f cond xMin xMax step
              (safeEval f cond xMin) []) as [pts Hpts].
  cbv zeta in Hpts. exists pts. split; [exact Hpts |]. split.
  - intros k. unfold sampleCurve. cbv zeta. rewrite Hpts. reflexivity.
  - intros fuel out. unfold sampleCurve. cbv zeta.
    destruct (sampleLoop f cond fuel _ _ _ _ _ _) as [pts' |] eqn:E; [| discriminate].
    apply (sampleLoop_more_fuel f cond fuel 64) in E.
    rewrite Nat.add_comm, Hpts in E. inversion E; subst.
    intros H; inversion H; reflexivity.
Qed.

Lemma sampleCurveY_returns (g : Evaluator) (cond : option Predicate)
      (yMin yMax step : R) :
  exists pts,
    (forall k, sampleLoopY g cond (64 + k) yMax (Rmax step ((yMax - yMin) / 64))
                 yMin (safeEvalY g cond yMin)
                 (Rmin (yMin + Rmax step ((yMax - yMin) / 64)) yMax) []
               = Some pts) /\
    (forall k, sampleCurveY g cond (64 + k) yMin yMax step = Some (cleanUp pts)) /\
    (forall fuel out, sampleCurveY g cond fuel yMin yMax step = Some out ->
                      out = cleanUp pts).
Proof.
  destruct (sampleLoopY_start_returns g cond yMin yMax step
              (safeEvalY g cond yMin) []) as [pts Hpts].
  cbv zeta in Hpts. exists pts. split; [exact Hpts |]. split.
  - intros k. unfold sampleCurveY. cbv zeta. rewrite Hpts. reflexivity.
  - intros fuel out. unfold sampleCurveY. cbv zeta.
    destruct (sampleLoopY g cond fuel _ _ _ _ _ _) as [pts' |] eqn:E; [| discriminate].
    apply (sampleLoopY_more_fuel g cond fuel 64) in E.
    rewrite Nat.add_comm, Hpts in E. inversion E; subst.
    intros H; inversion H; reflexivity.
Qed.

(** *** Breaks where the evaluation fails *)






















(** *** The loop under a machine addition *)








(** C4.  In the polyline either sampler returns, the first entry is not a
    break, no two neighbouring entries are both breaks, and two neighbouring
    points are more than [1e-9] apart. *)
Theorem sampled_polyline_wellformed
        (f : Evaluator) (cond : option Predicate) (lo hi step : R) :
  (exists out,
      (forall k, sampleCurve f cond (64 + k) lo hi step = Some out) /\
      (forall fuel out', sampleCurve f cond fuel lo hi step = Some out' -> out' = out) /\
      nth_error out 0 <> Some None /\
      (forall i a b, nth_error out i = Some a -> nth_error out (S i) = Some b ->
                     ~ (a = None /\ b = None) /\
                     (forall p q, a = Some p -> b = Some q ->
                                  1e-9 < hypot (p_x q - p_x p) (p_y q - p_y p)))) /\
  (exists out,
      (forall k, sampleCurveY f cond (64 + k) lo hi step = Some out) /\
      (forall fuel out', sampleCurveY f cond fuel lo hi step = Some out' -> out' = out) /\
      nth_error out 0 <> Some None /\
      (forall i a b, nth_error out i = Some a -> nth_error out (S i) = Some b ->
                     ~ (a = None /\ b = None) /\
                     (forall p q, a = Some p -> b = Some q ->
                                  1e-9 < hypot (p_x q - p_x p) (p_y q - p_y p)))).
Proof.
  assert (Hwf : forall pts,
             nth_error (cleanUp pts) 0 <> Some None /\
             (forall i a b, nth_error (cleanUp pts) i = Some a ->
                            nth_error (cleanUp pts) (S i) = Some b ->
                            ~ (a = None /\ b = None) /\
                            (forall p q, a = Some p -> b = Some q ->
                               1e-9 < hypot (p_x q - p_x p) (p_y q - p_y p)))).
  { intros pts. destruct (cleanUp_wellformed pts) as [Hh Hn]. split.
    - destruct (cleanUp pts) as [| [p |] rest]; simpl; try discriminate.
      contradiction.
    - intros i a b Ha Hb. pose proof (neighboursOK_nth _ _ _ _ Hn Ha Hb) as Hp.
      split.
      + intros [-> ->]. exact Hp.
      + intros p q -> ->. exact Hp. }
  split.
  - destruct (sampleCurve_returns f cond lo hi step) as (pts & _ & Hret & Hsame).
    exists (cleanUp pts). destruct (Hwf pts) as [H1 H2]. auto.
  - destruct (sampleCurveY_returns f cond lo hi step) as (pts & _ & Hret & Hsame).
    exists (cleanUp pts). destruct (Hwf pts) as [H1 H2]. auto.
Qed.

(** *** Two runs of [sampleCurve] *)

Ltac Rabs_decide :=
  repeat match goal with
  | |- context [Rabs ?a] =>
      first [rewrite (Rabs_pos_eq a) by lra | rewrite (Rabs_left1 a) by lra]
  end.

Lemma far_apart (x y : R) : 1e-9 < Rabs x -> Rgtb (hypot x y) 1e-9 = true.
Proof.
  intros H. apply Rltb_true. pose proof (hypot_abs_l x y). lra.
Qed.

Lemma safeEval_identity (x : R) :
  Rabs x <= 1e6 -> safeEval Scenes.identityEvaluator None x = Some x.
Proof.
  intros H. apply safeEval_spec. repeat split; [exact H |].
  intros c Hc. discriminate.
Qed.

Lemma subdivide_identity :
  subdivide Scenes.identityEvaluator None 0 (Some 0) 1 (Some 1) 0 []
  = [Some (mkPoint 0 0); Some (mkPoint 0.5 0.5); Some (mkPoint 1 1)].
Proof.
  simp subdivide.
  assert (E : safeEval Scenes.identityEvaluator None (0.5 * (0 + 1)) = Some 0.5).
  { replace (0.5 * (0 + 1)) with 0.5 by lra.
    apply safeEval_identity. Rabs_decide. lra. }
  rewrite E. simpl.
  assert (N : needsSplit 0 0 (0.5 * (0 + 1)) 0.5 1 1 = false).
  { unfold needsSplit, TOL. cbv zeta. destruct (Req_dec_T 1 0); [lra |].
    Rabs_decide. Rdecide. Rabs_decide. Rdecide. reflexivity. }
  rewrite N. simpl.
  unfold accept, push. cbn [lastOpt app p_x]. Rabs_decide. Rdecide.
  cbn [lastOpt app p_x]. Rabs_decide. Rdecide. cbn [lastOpt app].
  repeat f_equal; lra.
Qed.

(** The identity over [[0, 1]] with step 1: one accepted interval, stored
    with its start, middle and end. *)
Lemma sampleCurve_identity (k : nat) :
  sampleCurve Scenes.identityEvaluator None (1 + k) 0 1 1
  = Some [Some (mkPoint 0 0); Some (mkPoint 0.5 0.5); Some (mkPoint 1 1)].
Proof.
  unfold sampleCurve. cbv zeta.
  assert (C : Rmax 1 ((1 - 0) / 64) = 1) by (apply Rmax_left; lra).
  rewrite C. replace (Rmin (0 + 1) 1) with 1 by (rewrite Rmin_left; lra).
  simpl sampleLoop. Rdecide.
  rewrite !safeEval_identity by (Rabs_decide; lra).
  rewrite subdivide_identity.
  unfold cleanUp. simpl fold_left. unfold cleanStep, push.
  cbn [lastOpt app p_x p_y].
  rewrite (far_apart (0.5 - 0) (0.5 - 0)) by (Rabs_decide; lra).
  cbn [lastOpt app p_x p_y].
  rewrite (far_apart (1 - 0.5) (1 - 0.5)) by (Rabs_decide; lra).
  reflexivity.
Qed.

(** An evaluator that always throws: the loop stores one break, which the
    cleaning drops as a leading break. *)
Lemma sampleCurve_throwing (k : nat) :
  sampleCurve Scenes.throwingEvaluator None (1 + k) 0 1 1 = Some [].
Proof.
  unfold sampleCurve. cbv zeta.
  assert (C : Rmax 1 ((1 - 0) / 64) = 1) by (apply Rmax_left; lra).
  rewrite C. replace (Rmin (0 + 1) 1) with 1 by (rewrite Rmin_left; lra).
  simpl sampleLoop. Rdecide.
  change (safeEval Scenes.throwingEvaluator None 0) with (@None R).
  change (safeEval Scenes.throwingEvaluator None 1) with (@None R).
  simp subdivide. reflexivity.
Qed.

End SamplerFacts.

(* ===================================================================== *)
(** ** The parser *)
(* ===================================================================== *)

Module ParserFacts.
Import Text EquationsJs.

Local Open Scope string_scope.

(** The path through [parseEquationToFunction] of an input without a
    condition clause and without a leading [x =]. *)
Lemma parse_plain (E : Engine) (input base e : string) :
  extractCondition (trim input) = (base, None) ->
  startsWithXEquals (toLowerCase base) = false ->
  sanitizeExpression base = e ->
  parseEquationToFunction E input =
  match validateExpression e with
  | Err msg => Err msg
  | Ok _ =>
      match compileExpr E "x" e with
      | Some f => Ok (mkParsed e f (centralDifference f) yOfX None)
      | None => Err "Failed to parse expression"
      end
  end.
Proof.
  intros Hx Hy Hs. unfold parseEquationToFunction. rewrite Hx.
  cbn [buildCondition]. rewrite Hy, Hs.
  destruct (validateExpression e); [| reflexivity].
  unfold buildDerivative, buildFunction.
  destruct (compileExpr E "x" e); reflexivity.
Qed.

(** The normalization and the condition clause on a few inputs. *)
Example sanitize_polynomial :
  sanitizeExpression "  Y=  -0.1x^2 + 3x - 4 " = "-0.1*x**2 + 3*x - 4".
Proof. reflexivity. Qed.

Example sanitize_products :
  sanitizeExpression "x = ln (y)(y+1)x 2 y(3)" = "log(y)*(y+1)*x*2*y*(3)".
Proof. reflexivity. Qed.

Example sanitize_keeps_names :
  sanitizeExpression "y = max(x, 2) + exp(x)" = "max(x, 2) + exp(x)".
Proof. reflexivity. Qed.

Example extract_condition :
  extractCondition "y = x^2 { x > 0 }" = ("y = x^2", Some "x > 0").
Proof. reflexivity. Qed.

Example identifiers_found :
  identifiers "2abc + a2b_c*sin(x)" = ["abc"; "a2b_c"; "sin"; "x"].
Proof. reflexivity. Qed.

Example natural_log_accepted :
  validateExpression (sanitizeExpression "y = ln(x)") = Ok tt.
Proof. reflexivity. Qed.

(** C5.  The two spellings are normalized to the same text [2*x + 3];
    with an engine that builds a function for that text which returns a
    finite number at 0, 1, -5 and 100, both inputs parse, to the same
    evaluator, and the two evaluators agree within [1e-9] at those points. *)
Theorem implicit_multiplication_agrees (E : Engine) (f0 : Evaluator) :
  compileExpr E "x" "2*x + 3" = Some f0 ->
  (forall x, In x [0; 1; -5; 100]%R -> exists v, f0 x = Returns (VNum v)) ->
  sanitizeExpression "y = 2x + 3" = "2*x + 3" /\
  sanitizeExpression "y = 2*x + 3" = "2*x + 3" /\
  exists r1 r2,
    parseEquationToFunction E "y = 2x + 3" = Ok r1 /\
    parseEquationToFunction E "y = 2*x + 3" = Ok r2 /\
    f r1 = f0 /\ f r2 = f0 /\
    forall x, In x [0; 1; -5; 100]%R ->
      exists v1 v2, f r1 x = Returns (VNum v1) /\ f r2 x = Returns (VNum v2) /\
                    (Rabs (v1 - v2) <= 1e-9)%R.
Proof.
  intros Hc Hfin.
  split; [reflexivity |]. split; [reflexivity |].
  exists (mkParsed "2*x + 3" f0 (centralDifference f0) yOfX None).
  exists (mkParsed "2*x + 3" f0 (centralDifference f0) yOfX None).
  split; [| split].
  - rewrite (parse_plain E "y = 2x + 3" "y = 2x + 3" "2*x + 3");
      try reflexivity.
    change (validateExpression "2*x + 3") with (@Ok unit tt).
    cbv iota beta. rewrite Hc. reflexivity.
  - rewrite (parse_plain E "y = 2*x + 3" "y = 2*x + 3" "2*x + 3");
      try reflexivity.
    change (validateExpression "2*x + 3") with (@Ok unit tt).
    cbv iota beta. rewrite Hc. reflexivity.
  - split; [reflexivity |]. split; [reflexivity |].
    intros x Hx. destruct (Hfin x Hx) as [v Hv].
    exists v, v. cbn [f]. repeat split; try exact Hv.
    replace (v - v)%R with 0%R by ring. rewrite Rabs_R0. lra.
Qed.

Lemma implicit_multiplication_agrees_witness :
  exists r1 r2,
    parseEquationToFunction Scenes.linearEngine "y = 2x + 3" = Ok r1 /\
    parseEquationToFunction Scenes.linearEngine "y = 2*x + 3" = Ok r2 /\
    forall x, In x [0; 1; -5; 100]%R ->
      exists v1 v2, f r1 x = Returns (VNum v1) /\ f r2 x = Returns (VNum v2) /\
                    (Rabs (v1 - v2) <= 1e-9)%R.
Proof.
  destruct (implicit_multiplication_agrees Scenes.linearEngine
              (fun x => Returns (VNum (2 * x + 3))) eq_refl
              (fun x _ => ex_intro _ (2 * x + 3)%R eq_refl))
    as (_ & _ & r1 & r2 & H1 & H2 & _ & _ & H).
  exists r1, r2. auto.
Defined.

Lemma firstUnknown_some (ids : list string) (id : string) :
  In id ids -> allowed id = false -> exists id', firstUnknown ids = Some id'.
Proof.
  intros Hin Hno. unfold firstUnknown.
  destruct (find (fun id0 => negb (allowed id0)) ids) as [id' |] eqn:E;
    [eexists; reflexivity |].
  pose proof (find_none _ _ E id Hin) as Hn. simpl in Hn.
  rewrite Hno in Hn. discriminate.
Qed.

Lemma firstUnknown_unknown (ids : list string) (id : string) :
  firstUnknown ids = Some id -> In id ids /\ allowed id = false.
Proof.
  unfold firstUnknown. intros H. apply find_some in H. destruct H as [Hin Hn].
  split; [exact Hin |]. destruct (allowed id); [discriminate | reflexivity].
Qed.

(** C6.  [y = foo(x)] is rejected with the message naming [foo]; and no
    input whose normalized expression holds an identifier outside the allowed
    set yields an evaluator: the parse ends in an error, which names the first
    such identifier whenever the condition clause and the characters of the
    expression pass. *)
Theorem unknown_identifier_rejected (E : Engine) :
  parseEquationToFunction E "y = foo(x)" = Err "Unknown identifier: foo" /\
  (forall input id,
      In id (identifiers
               (sanitizeExpression (fst (extractCondition (trim input))))) ->
      allowed id = false ->
      exists msg, parseEquationToFunction E input = Err msg) /\
  (forall input c,
      buildCondition E (snd (extractCondition (trim input))) = Ok c ->
      allChars exprChar
        (sanitizeExpression (fst (extractCondition (trim input)))) = true ->
      forall id,
        firstUnknown
          (identifiers
             (sanitizeExpression (fst (extractCondition (trim input)))))
        = Some id ->
        allowed id = false /\
        parseEquationToFunction E input = Err ("Unknown identifier: " ++ id)).
Proof.
  split; [reflexivity |]. split.
  - intros input id Hin Hno. unfold parseEquationToFunction.
    destruct (extractCondition (trim input)) as [base condSrc]. simpl fst in Hin.
    destruct (buildCondition E condSrc) as [c | msg]; [| eexists; reflexivity].
    unfold validateExpression.
    destruct (negb (allChars exprChar (sanitizeExpression base)));
      [eexists; reflexivity |].
    destruct (firstUnknown_some _ _ Hin Hno) as [id' ->]. eexists; reflexivity.
  - intros input c Hc Hchars id Hid. split.
    + apply (firstUnknown_unknown _ _ Hid).
    + unfold parseEquationToFunction.
      destruct (extractCondition (trim input)) as [base condSrc].
      simpl fst in *. simpl snd in *. rewrite Hc.
      unfold validateExpression. rewrite Hchars, Hid. reflexivity.
Qed.

Lemma unknown_identifier_rejected_witness :
  exists msg,
    parseEquationToFunction Scenes.linearEngine "y = 2*x + 3 + bar" = Err msg.
Proof.
  refine (proj1 (proj2 (unknown_identifier_rejected Scenes.linearEngine))
            "y = 2*x + 3 + bar" "bar" _ _).
  - vm_compute. right. left. reflexivity.
  - reflexivity.
Defined.

End ParserFacts.

(* ===================================================================== *)
(** ** More on utils.js *)
(* ===================================================================== *)

Module UtilsMore.
Import Utils UtilsFacts.

(** X1.  On a world with non-empty extent and a canvas of non-zero size
    the two coordinate mappings undo each other, in both orders. *)
Theorem world_pixel_round_trip (wd : World) :
  w_xMax wd <> w_xMin wd -> w_yMax wd <> w_yMin wd ->
  w_width wd <> 0 -> w_height wd <> 0 ->
  (forall x y, exists px py,
      toPixel wd x y = (Some px, Some py) /\
      toWorld wd px py = (Some x, Some y)) /\
  (forall px py, exists x y,
      toWorld wd px py = (Some x, Some y) /\
      toPixel wd x y = (Some px, Some py)).
Proof.
  intros Hx Hy Hw Hh.
  assert (Q : forall a b, b <> 0 -> quotient a b = Some (a / b)).
  { intros a b Hb. unfold quotient. destruct (Req_dec_T b 0); [contradiction | reflexivity]. }
  split.
  - intros x y.
    exists ((x - w_xMin wd) / (w_xMax wd - w_xMin wd) * w_width wd).
    exists (w_height wd - (y - w_yMin wd) / (w_yMax wd - w_yMin wd) * w_height wd).
    unfold toPixel, toWorld. cbv zeta.
    rewrite !Q by lra. split; [reflexivity |].
    f_equal; f_equal; field; lra.
  - intros px py.
    exists (w_xMin wd + px / w_width wd * (w_xMax wd - w_xMin wd)).
    exists (w_yMin wd + (w_height wd - py) / w_height wd * (w_yMax wd - w_yMin wd)).
    unfold toPixel, toWorld. cbv zeta.
    rewrite !Q by lra. split; [reflexivity |].
    f_equal; f_equal; field; lra.
Qed.

Lemma world_pixel_round_trip_witness :
  exists px py,
    toPixel newWorld 2 3 = (Some px, Some py) /\
    toWorld newWorld px py = (Some 2, Some 3).
Proof.
  refine (proj1 (world_pixel_round_trip newWorld _ _ _ _) 2 3);
    unfold newWorld; cbn [w_xMin w_xMax w_yMin w_yMax w_width w_height]; lra.
Defined.

Lemma sum_squares_zero (x y : R) : x * x + y * y <= 0 -> x = 0 /\ y = 0.
Proof.
  intros H. pose proof (Rle_0_sqr x) as Hx. pose proof (Rle_0_sqr y) as Hy.
  unfold Rsqr in Hx, Hy.
  assert (Ex : x * x = 0) by lra. assert (Ey : y * y = 0) by lra.
  apply Rmult_integral in Ex. apply Rmult_integral in Ey.
  split; [destruct Ex | destruct Ey]; assumption.
Qed.

Lemma hypot_le_of_squares (x1 y1 x2 y2 : R) :
  x1 * x1 + y1 * y1 <= x2 * x2 + y2 * y2 -> hypot x1 y1 <= hypot x2 y2.
Proof. intros H. unfold hypot. apply sqrt_le_1_alt. exact H. Qed.

Lemma clamp_into_unit (t : R) : 0 <= t <= 1 -> clamp t 0 1 = t.
Proof.
  intros H. unfold clamp, Rmax, Rmin.
  destruct (Rle_dec 1 t); destruct (Rle_dec 0 _); lra.
Qed.

(** The clamped parameter minimizes a parabola [L s^2 - 2 u s] over the unit
    interval. *)
Lemma clamp_minimizes (L u s : R) :
  0 < L -> 0 <= s <= 1 ->
  L * (clamp (u / L) 0 1) * (clamp (u / L) 0 1) - 2 * u * clamp (u / L) 0 1
  <= L * s * s - 2 * u * s.
Proof.
  intros HL Hs.
  assert (Hu : u = (u / L) * L) by (field; lra).
  set (t0 := u / L) in *. rewrite Hu. clear Hu. clearbody t0.
  unfold clamp, Rmax, Rmin.
  destruct (Rle_dec 1 t0) as [H1 | H1]; destruct (Rle_dec 0 _) as [H0 | H0];
    try lra.
  - (* t = 1 *)
    assert (0 <= L * (1 - s) * (2 * t0 - 1 - s)).
    { apply Rmult_le_pos; [apply Rmult_le_pos |]; lra. }
    nra.
  - (* t = t0 *)
    assert (0 <= L * ((s - t0) * (s - t0))).
    { apply Rmult_le_pos; [lra | apply Rle_0_sqr]. }
    nra.
  - (* t = 0 *)
    assert (0 <= L * s * (s - 2 * t0)).
    { apply Rmult_le_pos; [apply Rmult_le_pos |]; lra. }
    nra.
Qed.

(** X2.  The point [closestPointOnSegment] answers lies on the segment
    (its parameter [t] is in [[0, 1]] and the point is [a + t (b - a)]), and
    no point of the segment is nearer to [p]. *)
Theorem closest_point_is_nearest (px py ax ay bx by_ : R) :
  let q := closestPointOnSegment px py ax ay bx by_ in
  0 <= q_t q <= 1 /\
  q_x q = ax + q_t q * (bx - ax) /\
  q_y q = ay + q_t q * (by_ - ay) /\
  forall s, 0 <= s <= 1 ->
    hypot (px - q_x q) (py - q_y q)
    <= hypot (px - (ax + s * (bx - ax))) (py - (ay + s * (by_ - ay))).
Proof.
  intros q. split; [apply clamp_unit |]. split; [reflexivity |].
  split; [reflexivity |]. intros s Hs.
  apply hypot_le_of_squares. unfold q, closestPointOnSegment. cbv zeta.
  cbn [q_x q_y].
  set (L := (bx - ax) * (bx - ax) + (by_ - ay) * (by_ - ay)).
  set (u := (px - ax) * (bx - ax) + (py - ay) * (by_ - ay)).
  unfold Rgtb. destruct (Rlt_dec 0 L) as [HL | HL].
  - rewrite Rltb_true by exact HL.
    pose proof (clamp_minimizes L u s HL Hs) as Hmin.
    set (t := clamp (u / L) 0 1) in *.
    replace ((px - (ax + t * (bx - ax))) * (px - (ax + t * (bx - ax)))
             + (py - (ay + t * (by_ - ay))) * (py - (ay + t * (by_ - ay))))
      with ((px - ax) * (px - ax) + (py - ay) * (py - ay)
            + (L * t * t - 2 * u * t)) by (unfold L, u; ring).
    replace ((px - (ax + s * (bx - ax))) * (px - (ax + s * (bx - ax)))
             + (py - (ay + s * (by_ - ay))) * (py - (ay + s * (by_ - ay))))
      with ((px - ax) * (px - ax) + (py - ay) * (py - ay)
            + (L * s * s - 2 * u * s)) by (unfold L, u; ring).
    lra.
  - rewrite Rltb_false by lra.
    destruct (sum_squares_zero (bx - ax) (by_ - ay)) as [Hx Hy];
      [fold L; lra |].
    rewrite Hx, Hy. rewrite !Rmult_0_r, !Rplus_0_r. lra.
Qed.

(** X3.  [normalize] turns a non-zero vector into the unit vector of the
    same direction (the input is its length times the output), and the zero
    vector into itself. *)
Theorem normalize_unit_same_direction (x y : R) :
  (x <> 0 \/ y <> 0 ->
   fst (normalize x y) * fst (normalize x y)
   + snd (normalize x y) * snd (normalize x y) = 1 /\
   0 < hypot x y /\
   x = hypot x y * fst (normalize x y) /\
   y = hypot x y * snd (normalize x y)) /\
  normalize 0 0 = (0, 0).
Proof.
  split; [| apply normalize_zero].
  intros Hnz. split; [apply normalize_unit; exact Hnz |].
  destruct (normalize_nonzero x y Hnz) as [-> Hpos]. simpl.
  split; [exact Hpos |]. split; field; lra.
Qed.

(** X4.  Across a unit normal, [reflectVelocityAcrossNormal] flips the
    normal component of the velocity, keeps the component along the surface
    and the speed, and applied twice gives the velocity back. *)
Theorem reflection_across_unit_normal (vx vy nx ny : R) :
  nx * nx + ny * ny = 1 ->
  let r := reflectVelocityAcrossNormal vx vy nx ny in
  fst r * nx + snd r * ny = - (vx * nx + vy * ny) /\
  fst r * (- ny) + snd r * nx = vx * (- ny) + vy * nx /\
  hypot (fst r) (snd r) = hypot vx vy /\
  reflectVelocityAcrossNormal (fst r) (snd r) nx ny = (vx, vy).
Proof.
  intros Hu r. unfold r, reflectVelocityAcrossNormal. cbv zeta. cbn [fst snd].
  set (d := vx * nx + vy * ny).
  assert (E1 : (vx - 2 * d * nx) * nx + (vy - 2 * d * ny) * ny = - d).
  { replace ((vx - 2 * d * nx) * nx + (vy - 2 * d * ny) * ny)
      with (d - 2 * d * (nx * nx + ny * ny)) by (unfold d; ring).
    rewrite Hu. ring. }
  split; [exact E1 |]. split; [ring |]. split.
  - unfold hypot. f_equal.
    replace ((vx - 2 * d * nx) * (vx - 2 * d * nx)
             + (vy - 2 * d * ny) * (vy - 2 * d * ny))
      with (vx * vx + vy * vy - 4 * d * d
            + 4 * d * d * (nx * nx + ny * ny)) by (unfold d; ring).
    rewrite Hu. ring.
  - rewrite E1. f_equal; ring.
Qed.

Lemma reflection_across_unit_normal_witness :
  reflectVelocityAcrossNormal
    (fst (reflectVelocityAcrossNormal 3 (-2) 0 1))
    (snd (reflectVelocityAcrossNormal 3 (-2) 0 1)) 0 1 = (3, -2).
Proof.
  apply (reflection_across_unit_normal 3 (-2) 0 1). lra.
Defined.

End UtilsMore.

(* ===================================================================== *)
(** ** More on updateBalls *)
(* ===================================================================== *)

Module PhysicsMore.
Import Utils Physics UtilsFacts PhysicsFacts UtilsMore.

Lemma snap_keeps (b : Ball) (k : Contact) :
  b_r (snap b k) = b_r b /\ b_collected (snap b k) = b_collected b /\
  b_oob (snap b k) = b_oob b /\ b_collectionTime (snap b k) = b_collectionTime b.
Proof. unfold snap. destruct (Rgtb _ 0); repeat split; reflexivity. Qed.

Lemma updateBall_keeps (dt gravity : R) (bounds : Bounds) (curves : list Curve)
      (b : Ball) :
  let b' := updateBall dt gravity bounds curves b in
  b_r b' = b_r b /\ b_collected b' = b_collected b /\
  b_collectionTime b' = b_collectionTime b /\
  b_oob b' = (b_oob b || exited b bounds)%bool.
Proof.
  unfold updateBall. rewrite exited_applyGravity.
  destruct (exited b bounds).
  - cbn. rewrite orb_true_r. repeat split; reflexivity.
  - rewrite orb_false_r.
    destruct (findBest (applyGravity b dt gravity) curves) as [k |].
    + destruct (snap_keeps (applyGravity b dt gravity) k) as (Hr & Hc & Ho & Ht).
      cbn [integrate slideVelocity setPos setVel b_r b_collected b_oob
           b_collectionTime].
      rewrite Hr, Hc, Ho, Ht. repeat split; reflexivity.
    + repeat split; reflexivity.
Qed.

(** X5.  [updateBalls] keeps the array's length and, ball by ball, the
    radius and the collection fields; it never clears the out-of-bounds flag
    and sets it exactly when the ball's circle is outside the bounds. *)
Theorem updateBalls_frame
        (balls : list Ball) (dt gravity : R) (bounds : Bounds)
        (curves : list Curve) :
  List.length (updateBalls balls dt gravity bounds curves) = List.length balls /\
  forall i b, nth_error balls i = Some b ->
    exists b',
      nth_error (updateBalls balls dt gravity bounds curves) i = Some b' /\
      b_r b' = b_r b /\
      b_collected b' = b_collected b /\
      b_collectionTime b' = b_collectionTime b /\
      b_oob b' = (b_oob b || exited b bounds)%bool.
Proof.
  split; [unfold updateBalls; apply length_map |].
  intros i b Hnth. exists (updateBall dt gravity bounds curves b).
  split; [apply updateBalls_nth; exact Hnth |].
  apply updateBall_keeps.
Qed.

Lemma findBest_none (b : Ball) (curves : list Curve) :
  findBest b curves = None <->
  forall seg, In seg (allSegments curves) -> inRange b seg = false.
Proof.
  rewrite findBest_last. split.
  - intros H seg Hin. destruct (inRange b seg) eqn:E; [| reflexivity].
    assert (Hf : In seg (filter (inRange b) (allSegments curves)))
      by (apply filter_In; split; assumption).
    destruct (lastOpt (filter (inRange b) (allSegments curves))) as [[a c] |] eqn:El.
    + simpl in H. assert (Hac : In (a, c) (filter (inRange b) (allSegments curves))).
      { clear -El. induction (filter (inRange b) (allSegments curves)) as [| x l IH];
          [discriminate |].
        destruct l as [| y l]; [inversion El; left; reflexivity |].
        right. apply IH. exact El. }
      apply filter_In in Hac. destruct Hac as [_ Hr].
      apply narrow_inRange in Hr. destruct Hr as [k Hk]. congruence.
    + apply lastOpt_none in El. rewrite El in Hf. contradiction.
  - intros H.
    assert (E : filter (inRange b) (allSegments curves) = []).
    { induction (allSegments curves) as [| x l IH]; [reflexivity |].
      simpl. rewrite (H x (or_introl eq_refl)). apply IH.
      intros seg Hin. apply H. right. exact Hin. }
    rewrite E. reflexivity.
Qed.

(** X6.  A ball inside the bounds with no segment within [b.r + 0.02]
    falls freely: gravity is added to [vy] first and the position then
    advances with the new velocity; [vx] is untouched.  The contact search
    finds nothing exactly when no segment is in range. *)
Theorem free_fall_step
        (balls : list Ball) (dt gravity : R) (bounds : Bounds)
        (curves : list Curve) (i : nat) (b : Ball) :
  nth_error balls i = Some b ->
  exited b bounds = false ->
  (forall seg, In seg (allSegments curves) -> inRange b seg = false) ->
  findBest (applyGravity b dt gravity) curves = None /\
  exists b',
    nth_error (updateBalls balls dt gravity bounds curves) i = Some b' /\
    b_vx b' = b_vx b /\
    b_vy b' = b_vy b + gravity * dt /\
    b_x b' = b_x b + b_vx b * dt /\
    b_y b' = b_y b + (b_vy b + gravity * dt) * dt.
Proof.
  intros Hnth Hex Hfar.
  assert (Hnone : findBest (applyGravity b dt gravity) curves = None).
  { apply findBest_none. intros seg Hin. exact (Hfar seg Hin). }
  split; [exact Hnone |].
  exists (updateBall dt gravity bounds curves b).
  split; [apply updateBalls_nth; exact Hnth |].
  unfold updateBall. rewrite exited_applyGravity, Hex, Hnone.
  repeat split; reflexivity.
Qed.

Lemma restingBall_inside : exited Scenes.restingBall Scenes.world = false.
Proof.
  unfold exited, Scenes.restingBall, Scenes.world.
  cbn [b_x b_y b_r xMin xMax yMin yMax]. Rdecide. reflexivity.
Qed.

Lemma free_fall_step_witness :
  exists b',
    nth_error (updateBalls [Scenes.restingBall] 0.1 (-10) Scenes.world []) 0
    = Some b' /\
    b_vy b' = -1 /\ b_y b' = 0.1.
Proof.
  destruct (free_fall_step [Scenes.restingBall] 0.1 (-10) Scenes.world [] 0
              Scenes.restingBall eq_refl restingBall_inside
              (fun seg (H : In seg []) => match H with end))
    as (_ & b' & Hb' & _ & Hvy & _ & Hy).
  exists b'. split; [exact Hb' |].
  cbn [Scenes.restingBall b_vy b_y] in Hvy, Hy. split; lra.
Defined.

(** On a segment with distinct ends the contact normal is a unit vector. *)
Lemma contact_normal_unit (b : Ball) (a c : Point) (k : Contact) :
  narrow b a c = Some k ->
  p_x a <> p_x c \/ p_y a <> p_y c ->
  k_nx k * k_nx k + k_ny k * k_ny k = 1.
Proof.
  intros Hn Hne. pose proof (contact_tangent_unit _ _ _ _ Hn Hne) as Hu.
  assert (Hg : normalize (- k_ty k) (k_tx k) = (- k_ty k, k_tx k))
    by (apply normalize_of_unit; lra).
  destruct (narrow_normal _ _ _ _ Hn) as [(_ & Hnx & Hny) | (_ & Hnx & Hny)];
    rewrite Hg in Hnx, Hny; simpl in Hnx, Hny; rewrite Hnx, Hny; lra.
Qed.

(** The contact normal is at right angles to the segment itself. *)
Lemma contact_normal_across (b : Ball) (a c : Point) (k : Contact) :
  narrow b a c = Some k ->
  k_nx k * (p_x c - p_x a) + k_ny k * (p_y c - p_y a) = 0.
Proof.
  intros Hn. pose proof (contact_normal_perp _ _ _ _ Hn) as Htn.
  destruct (narrow_fields _ _ _ _ Hn) as (_ & _ & _ & _ & Ht).
  destruct (Req_dec_T (p_x c - p_x a) 0) as [Ex | Ex];
    destruct (Req_dec_T (p_y c - p_y a) 0) as [Ey | Ey];
    try (rewrite Ex, Ey; ring).
  all: destruct (normalize_nonzero (p_x c - p_x a) (p_y c - p_y a)) as [Hnorm Hm];
    [lra |];
    rewrite Hnorm in Ht; inversion Ht as [[Htx Hty]];
    set (m := hypot (p_x c - p_x a) (p_y c - p_y a)) in *;
    assert (Hsx : p_x c - p_x a = k_tx k * m) by (rewrite Htx; field; lra);
    assert (Hsy : p_y c - p_y a = k_ty k * m) by (rewrite Hty; field; lra);
    rewrite Hsx, Hsy;
    replace (k_nx k * (k_tx k * m) + k_ny k * (k_ty k * m))
      with ((k_tx k * k_nx k + k_ty k * k_ny k) * m) by ring;
    rewrite Htn; ring.
Qed.

(** A point of the segment is its own closest point. *)
Lemma closest_of_closest (px py ax ay bx by_ : R) :
  let q := closestPointOnSegment px py ax ay bx by_ in
  closestPointOnSegment (q_x q) (q_y q) ax ay bx by_ = q.
Proof.
  intros q. pose proof (clamp_unit
    (if Rgtb ((bx - ax) * (bx - ax) + (by_ - ay) * (by_ - ay)) 0
     then ((px - ax) * (bx - ax) + (py - ay) * (by_ - ay)) /
          ((bx - ax) * (bx - ax) + (by_ - ay) * (by_ - ay)) else 0)) as Ht.
  unfold q, closestPointOnSegment. cbv zeta. cbn [q_x q_y].
  set (L := (bx - ax) * (bx - ax) + (by_ - ay) * (by_ - ay)) in *.
  set (t := clamp _ 0 1) in *.
  assert (Ht' : clamp (if Rgtb L 0
                       then ((ax + t * (bx - ax) - ax) * (bx - ax)
                             + (ay + t * (by_ - ay) - ay) * (by_ - ay)) / L
                       else 0) 0 1 = t).
  { unfold Rgtb. destruct (Rlt_dec 0 L) as [HL | HL].
    - rewrite Rltb_true by exact HL.
      replace (((ax + t * (bx - ax) - ax) * (bx - ax)
                + (ay + t * (by_ - ay) - ay) * (by_ - ay)) / L)
        with t by (unfold L; field; fold L; lra).
      apply clamp_into_unit. exact Ht.
    - rewrite Rltb_false by lra.
      revert Ht. unfold t. unfold Rgtb. rewrite Rltb_false by lra.
      intros _. reflexivity. }
  rewrite Ht'. reflexivity.
Qed.

(** With the centre straight above or below the closest point, the offset
    from the closest point is the distance times the contact normal. *)
Lemma offset_along_normal (b : Ball) (a c : Point) (k : Contact) :
  narrow b a c = Some k ->
  p_x a <> p_x c \/ p_y a <> p_y c ->
  (b_x b - q_x (k_q k)) * (p_x c - p_x a)
  + (b_y b - q_y (k_q k)) * (p_y c - p_y a) = 0 ->
  b_x b - q_x (k_q k) = k_dist k * k_nx k /\
  b_y b - q_y (k_q k) = k_dist k * k_ny k.
Proof.
  intros Hn Hne Hperp.
  pose proof (contact_tangent_unit _ _ _ _ Hn Hne) as Hu.
  destruct (narrow_fields _ _ _ _ Hn) as (_ & _ & Hq & Hd & Ht).
  destruct (normalize_nonzero (p_x c - p_x a) (p_y c - p_y a)) as [Hnorm Hm];
    [lra |].
  rewrite Hnorm in Ht. inversion Ht as [[Htx Hty]]. clear Ht.
  set (m := hypot (p_x c - p_x a) (p_y c - p_y a)) in *.
  assert (Hsx : p_x c - p_x a = k_tx k * m) by (rewrite Htx; field; lra).
  assert (Hsy : p_y c - p_y a = k_ty k * m) by (rewrite Hty; field; lra).
  set (dx := b_x b - q_x (k_q k)) in *. set (dy := b_y b - q_y (k_q k)) in *.
  assert (Hdt : dx * k_tx k + dy * k_ty k = 0).
  { rewrite Hsx, Hsy in Hperp.
    assert (Hz : (dx * k_tx k + dy * k_ty k) * m = 0) by lra.
    apply Rmult_integral in Hz. destruct Hz; lra. }
  assert (Hg : normalize (- k_ty k) (k_tx k) = (- k_ty k, k_tx k))
    by (apply normalize_of_unit; lra).
  assert (Hdist : k_dist k = hypot dx dy).
  { rewrite Hd. unfold distTo. simpl fst. simpl snd. cbv zeta.
    rewrite <- Hq. reflexivity. }
  set (e := dx * - k_ty k + dy * k_tx k).
  assert (F1 : dx = e * - k_ty k).
  { transitivity (dx * (k_tx k * k_tx k + k_ty k * k_ty k)
                  - k_tx k * (dx * k_tx k + dy * k_ty k));
      [rewrite Hu, Hdt; ring | unfold e; ring]. }
  assert (F2 : dy = e * k_tx k).
  { transitivity (dy * (k_tx k * k_tx k + k_ty k * k_ty k)
                  - k_ty k * (dx * k_tx k + dy * k_ty k));
      [rewrite Hu, Hdt; ring | unfold e; ring]. }
  assert (F3 : e * e = dx * dx + dy * dy).
  { transitivity ((dx * dx + dy * dy) * (k_tx k * k_tx k + k_ty k * k_ty k)
                  - (dx * k_tx k + dy * k_ty k) * (dx * k_tx k + dy * k_ty k));
      [unfold e; ring | rewrite Hu, Hdt; ring]. }
  destruct (narrow_normal _ _ _ _ Hn) as [(Hsg & Hnx & Hny) | (Hsg & Hnx & Hny)];
    fold dx dy in Hsg; rewrite Hg in Hsg, Hnx, Hny; simpl in Hsg, Hnx, Hny;
    fold e in Hsg.
  - assert (He : hypot dx dy = e) by (apply hypot_unique; lra).
    rewrite Hdist, He, Hnx, Hny. split; [exact F1 | exact F2].
  - assert (He : hypot dx dy = - e) by (apply hypot_unique; lra).
    rewrite Hdist, He, Hnx, Hny. split; [rewrite F1 at 1; ring | rewrite F2 at 1; ring].
Qed.

(** Where the snap puts the centre: on the contact normal through the
    closest point, [b.r + 1e-4] out. *)
Lemma snap_position (b : Ball) (a c : Point) (k : Contact) :
  narrow b a c = Some k ->
  p_x a <> p_x c \/ p_y a <> p_y c ->
  b_r b + 1e-4 <= k_dist k \/
  (b_x b - q_x (k_q k)) * (p_x c - p_x a)
  + (b_y b - q_y (k_q k)) * (p_y c - p_y a) = 0 ->
  b_x (snap b k) = q_x (k_q k) + k_nx k * (b_r b + 1e-4) /\
  b_y (snap b k) = q_y (k_q k) + k_ny k * (b_r b + 1e-4).
Proof.
  intros Hn Hne Hcase. unfold snap. cbv zeta. unfold Rgtb.
  destruct (Rlt_dec 0 (b_r b - k_dist k + 1e-4)) as [Hpen | Hrim].
  - rewrite Rltb_true by exact Hpen. cbn [setPos b_x b_y].
    destruct Hcase as [Hc | Hperp]; [lra |].
    destruct (offset_along_normal _ _ _ _ Hn Hne Hperp) as [Hdx Hdy].
    split; nra.
  - rewrite Rltb_false by lra. cbn [setPos b_x b_y]. split; reflexivity.
Qed.

(** X7.  On a segment with distinct ends, when the ball is on the rim
    side of the snap ([b.r + 1e-4 <= dist]) or its centre is straight above
    or below the closest point, the snap puts the centre on the contact
    normal through the closest point, [b.r + 1e-4] out; the closest point of
    the segment stays the same, and for a non-negative radius the centre is
    [b.r + 1e-4] away from it. *)
Theorem snap_puts_ball_on_rim (b : Ball) (curves : list Curve) (k : Contact) :
  findBest b curves = Some k ->
  p_x (k_a k) <> p_x (k_c k) \/ p_y (k_a k) <> p_y (k_c k) ->
  b_r b + 1e-4 <= k_dist k \/
  (b_x b - q_x (k_q k)) * (p_x (k_c k) - p_x (k_a k))
  + (b_y b - q_y (k_q k)) * (p_y (k_c k) - p_y (k_a k)) = 0 ->
  let b' := snap b k in
  b_x b' = q_x (k_q k) + k_nx k * (b_r b + 1e-4) /\
  b_y b' = q_y (k_q k) + k_ny k * (b_r b + 1e-4) /\
  closestPointOnSegment (b_x b') (b_y b')
    (p_x (k_a k)) (p_y (k_a k)) (p_x (k_c k)) (p_y (k_c k)) = k_q k /\
  (0 <= b_r b ->
   hypot (b_x b' - q_x (k_q k)) (b_y b' - q_y (k_q k)) = b_r b + 1e-4).
Proof.
  intros Hf Hne Hcase b'. pose proof (findBest_narrow _ _ _ Hf) as Hn.
  destruct (snap_position _ _ _ _ Hn Hne Hcase) as [Hx Hy]. fold b' in Hx, Hy.
  split; [exact Hx |]. split; [exact Hy |].
  destruct (narrow_fields _ _ _ _ Hn) as (_ & _ & Hq & _ & _).
  pose proof (contact_normal_across _ _ _ _ Hn) as Hacross.
  pose proof (contact_normal_unit _ _ _ _ Hn Hne) as Hunit.
  split.
  - rewrite Hx, Hy. rewrite closest_shift.
    + rewrite Hq at 1 2. rewrite closest_of_closest. symmetry. exact Hq.
    + replace (k_nx k * (b_r b + 1e-4) * (p_x (k_c k) - p_x (k_a k))
               + k_ny k * (b_r b + 1e-4) * (p_y (k_c k) - p_y (k_a k)))
        with ((b_r b + 1e-4)
              * (k_nx k * (p_x (k_c k) - p_x (k_a k))
                 + k_ny k * (p_y (k_c k) - p_y (k_a k)))) by ring.
      rewrite Hacross. ring.
  - intros Hr. rewrite Hx, Hy.
    replace (q_x (k_q k) + k_nx k * (b_r b + 1e-4) - q_x (k_q k))
      with ((b_r b + 1e-4) * k_nx k) by ring.
    replace (q_y (k_q k) + k_ny k * (b_r b + 1e-4) - q_y (k_q k))
      with ((b_r b + 1e-4) * k_ny k) by ring.
    rewrite (hypot_scale _ _ _ Hunit). apply Rabs_pos_eq. lra.
Qed.

(** The contact found on a curve that is one segment in range. *)
Lemma single_segment_contact (b : Ball) (a c : Point) :
  inRange b (a, c) = true ->
  exists k, findBest b [mkCurve [Some a; Some c]] = Some k /\
            narrow b a c = Some k /\
            k_a k = a /\ k_c k = c /\
            k_q k = closestPointOnSegment (b_x b) (b_y b)
                      (p_x a) (p_y a) (p_x c) (p_y c) /\
            k_dist k = distTo b (a, c).
Proof.
  intros Hr. destruct (proj1 (narrow_inRange _ _ _) Hr) as [k Hk].
  exists k. split.
  - rewrite findBest_last. unfold allSegments.
    cbn [flat_map points segmentsOf app filter]. rewrite Hr. exact Hk.
  - destruct (narrow_fields _ _ _ _ Hk) as (Ha & Hc & Hq & Hd & _). auto.
Qed.

Lemma closest_hover :
  closestPointOnSegment 0 0.21 (-1) 0 1 0 = mkClosest 0 0 0.5.
Proof.
  unfold closestPointOnSegment, clamp. cbv zeta. Rdecide. f_equal; lra.
Qed.

Lemma hover_contact :
  exists k, findBest Scenes.hoverBall [Scenes.lowerFloor] = Some k /\
            k_a k = mkPoint (-1) 0 /\ k_c k = mkPoint 1 0 /\
            k_q k = mkClosest 0 0 0.5 /\ k_dist k = 0.21.
Proof.
  assert (Hd : distTo Scenes.hoverBall (mkPoint (-1) 0, mkPoint 1 0) = 0.21).
  { unfold distTo, Scenes.hoverBall. cbn [fst snd b_x b_y p_x p_y].
    rewrite closest_hover. cbn [q_x q_y]. hypot_is 0.21. reflexivity. }
  destruct (single_segment_contact Scenes.hoverBall (mkPoint (-1) 0) (mkPoint 1 0))
    as (k & Hf & _ & Ha & Hc & Hq & Hdist).
  { apply Rleb_spec. fold (distTo Scenes.hoverBall (mkPoint (-1) 0, mkPoint 1 0)).
    rewrite Hd. cbn [b_r Scenes.hoverBall]. lra. }
  exists k. split; [exact Hf |]. split; [exact Ha |]. split; [exact Hc |].
  cbn [Scenes.hoverBall b_x b_y p_x p_y] in Hq. rewrite closest_hover in Hq.
  rewrite Hd in Hdist. auto.
Qed.

Lemma snap_puts_ball_on_rim_witness :
  exists k,
    findBest Scenes.hoverBall [Scenes.lowerFloor] = Some k /\
    hypot (b_x (snap Scenes.hoverBall k) - q_x (k_q k))
          (b_y (snap Scenes.hoverBall k) - q_y (k_q k)) = 0.2 + 1e-4.
Proof.
  destruct hover_contact as (k & Hf & Ha & Hc & Hq & Hd).
  exists k. split; [exact Hf |].
  refine (proj2 (proj2 (proj2
    (snap_puts_ball_on_rim Scenes.hoverBall [Scenes.lowerFloor] k Hf _ _))) _).
  - rewrite Ha, Hc. cbn [p_x]. left. lra.
  - left. rewrite Hd. cbn [b_r Scenes.hoverBall]. lra.
  - cbn [b_r Scenes.hoverBall]. lra.
Defined.

(** X8.  The whole tick of a ball in contact, under the conditions of the
    snap above: the ball ends on the line [b.r + 1e-4] over the segment,
    moved from above the closest point along the tangent by its new
    tangential speed times [dt]. *)
Theorem contact_tick_position
        (balls : list Ball) (dt gravity : R) (bounds : Bounds)
        (curves : list Curve) (i : nat) (b : Ball) (k : Contact) :
  nth_error balls i = Some b ->
  exited b bounds = false ->
  findBest (applyGravity b dt gravity) curves = Some k ->
  p_x (k_a k) <> p_x (k_c k) \/ p_y (k_a k) <> p_y (k_c k) ->
  b_r b + 1e-4 <= k_dist k \/
  (b_x b - q_x (k_q k)) * (p_x (k_c k) - p_x (k_a k))
  + (b_y b - q_y (k_q k)) * (p_y (k_c k) - p_y (k_a k)) = 0 ->
  exists b',
    nth_error (updateBalls balls dt gravity bounds curves) i = Some b' /\
    let s := ((b_vx b * k_tx k + (b_vy b + gravity * dt) * k_ty k)
              + (0 * k_tx k + gravity * k_ty k) * dt) * 0.995 in
    b_x b' = q_x (k_q k) + k_nx k * (b_r b + 1e-4) + s * k_tx k * dt /\
    b_y b' = q_y (k_q k) + k_ny k * (b_r b + 1e-4) + s * k_ty k * dt /\
    (b_x b' - q_x (k_q k)) * k_nx k + (b_y b' - q_y (k_q k)) * k_ny k
    = b_r b + 1e-4.
Proof.
  intros Hnth Hex Hf Hne Hcase.
  exists (updateBall dt gravity bounds curves b).
  split; [apply updateBalls_nth; exact Hnth |].
  pose proof (findBest_narrow _ _ _ Hf) as Hn.
  destruct (snap_position _ _ _ _ Hn Hne Hcase) as [Hx Hy].
  pose proof (contact_normal_unit _ _ _ _ Hn Hne) as Hunit.
  pose proof (contact_normal_perp _ _ _ _ Hn) as Hperp.
  assert (He : exited (applyGravity b dt gravity) bounds = false)
    by (rewrite exited_applyGravity; exact Hex).
  rewrite (updateBall_contact _ _ _ _ _ _ He Hf).
  unfold integrate, slideVelocity. cbn [b_x b_y b_vx b_vy setPos setVel].
  destruct (snap_velocity (applyGravity b dt gravity) k) as [-> ->].
  rewrite Hx, Hy. unfold applyGravity. cbn [b_r b_vx b_vy]. cbv zeta.
  set (s := ((b_vx b * k_tx k + (b_vy b + gravity * dt) * k_ty k)
             + (0 * k_tx k + gravity * k_ty k) * dt) * 0.995).
  split; [reflexivity |]. split; [reflexivity |].
  replace ((q_x (k_q k) + k_nx k * (b_r b + 1e-4) + s * k_tx k * dt - q_x (k_q k))
           * k_nx k
           + (q_y (k_q k) + k_ny k * (b_r b + 1e-4) + s * k_ty k * dt - q_y (k_q k))
             * k_ny k)
    with ((b_r b + 1e-4) * (k_nx k * k_nx k + k_ny k * k_ny k)
          + s * dt * (k_tx k * k_nx k + k_ty k * k_ny k)) by ring.
  rewrite Hunit, Hperp. ring.
Qed.

Lemma contact_tick_position_witness :
  exists k b',
    findBest (applyGravity Scenes.hoverBall 0.1 (-10)) [Scenes.lowerFloor] = Some k /\
    nth_error (updateBalls [Scenes.hoverBall] 0.1 (-10) Scenes.world
                 [Scenes.lowerFloor]) 0 = Some b' /\
    (b_x b' - q_x (k_q k)) * k_nx k + (b_y b' - q_y (k_q k)) * k_ny k
    = 0.2 + 1e-4.
Proof.
  destruct hover_contact as (k & Hf & Ha & Hc & Hq & Hd).
  assert (Hin : exited Scenes.hoverBall Scenes.world = false).
  { unfold exited, Scenes.hoverBall, Scenes.world.
    cbn [b_x b_y b_r xMin xMax yMin yMax]. Rdecide. reflexivity. }
  destruct (contact_tick_position [Scenes.hoverBall] 0.1 (-10) Scenes.world
              [Scenes.lowerFloor] 0 Scenes.hoverBall k eq_refl Hin Hf)
    as (b' & Hb' & _ & _ & Hh).
  - rewrite Ha, Hc. cbn [p_x]. left. lra.
  - left. rewrite Hd. cbn [b_r Scenes.hoverBall]. lra.
  - exists k, b'. split; [exact Hf |]. split; [exact Hb' |]. exact Hh.
Defined.

End PhysicsMore.

(* ===================================================================== *)
(** ** More on checkStarCollection *)
(* ===================================================================== *)

Module CollectionMore.
Import Physics CollectionFacts.

(** What a call may change on a ball: it may set [collected] and stamp the
    time, nothing else. *)
Lemma markBall_only_marks (b : Ball) (time : R) :
  b_x (markBall b time) = b_x b /\ b_y (markBall b time) = b_y b /\
  b_vx (markBall b time) = b_vx b /\ b_vy (markBall b time) = b_vy b /\
  b_r (markBall b time) = b_r b /\ b_oob (markBall b time) = b_oob b /\
  b_collected (markBall b time) = true.
Proof. repeat split; reflexivity. Qed.

Lemma reaches_same_place (radius : R) (s s' : Star) (b b' : Ball) :
  s_x s' = s_x s -> s_y s' = s_y s ->
  b_x b' = b_x b -> b_y b' = b_y b -> b_r b' = b_r b ->
  reaches radius s' b' = reaches radius s b.
Proof. intros H1 H2 H3 H4 H5. unfold reaches. rewrite H1, H2, H3, H4, H5. reflexivity. Qed.

(** The inner loop, told by whether some ball reaches the star. *)
Lemma scanBalls_spec (now : nat -> R) (radius : R) (s : Star)
      (seen todo : list Ball) (st : CollectState) :
  s_collected s = false ->
  (existsb (reaches radius s) todo = false /\
   scanBalls now radius s seen todo st = (s, st)) \/
  (existsb (reaches radius s) todo = true /\
   exists pre b post,
     todo = pre ++ b :: post /\
     existsb (reaches radius s) pre = false /\
     reaches radius s b = true /\
     scanBalls now radius s seen todo st
     = (markStar s (now (cs_clock st)),
        mkCollectState (seen ++ pre ++ markBall b (now (S (cs_clock st))) :: post)
                       (S (S (cs_clock st))) (S (cs_count st)) true)).
Proof.
  intros Hs. revert seen. induction todo as [| b rest IH]; intros seen.
  - left. split; reflexivity.
  - simpl existsb. simpl scanBalls. fold (reaches radius s b).
    destruct (reaches radius s b) eqn:Eb.
    + right. split; [reflexivity |]. exists [], b, rest.
      rewrite Hs. simpl. repeat split; try reflexivity. exact Eb.
    + destruct (IH (seen ++ [b])) as [[He Hscan] | (He & pre & b0 & post & Ht & Hpre & Hb0 & Hscan)].
      * left. split; [exact He | exact Hscan].
      * right. split; [exact He |]. exists (b :: pre), b0, post.
        split; [rewrite Ht; reflexivity |].
        split; [simpl; rewrite Eb; exact Hpre |].
        split; [exact Hb0 |].
        rewrite Hscan. rewrite <- app_assoc. reflexivity.
Qed.

Lemma onlyMarked_refl (b : Ball) : onlyMarked b b.
Proof. unfold onlyMarked. repeat split; auto. Qed.

Lemma onlyMarked_trans (b1 b2 b3 : Ball) :
  onlyMarked b1 b2 -> onlyMarked b2 b3 -> onlyMarked b1 b3.
Proof.
  unfold onlyMarked. intros (A1 & A2 & A3 & A4 & A5 & A6 & A7)
                            (B1 & B2 & B3 & B4 & B5 & B6 & B7).
  repeat split; try congruence. auto.
Qed.

Lemma onlyMarked_list_refl (l : list Ball) : Forall2 onlyMarked l l.
Proof. induction l; constructor; [apply onlyMarked_refl | assumption]. Qed.

Lemma onlyMarked_list_trans (l1 l2 l3 : list Ball) :
  Forall2 onlyMarked l1 l2 -> Forall2 onlyMarked l2 l3 -> Forall2 onlyMarked l1 l3.
Proof.
  intros H. revert l3. induction H as [| a b l l' Hab Hl IH]; intros l3 H3.
  - inversion H3. constructor.
  - inversion H3; subst. constructor; [eapply onlyMarked_trans; eassumption |].
    apply IH. assumption.
Qed.

Lemma onlyMarked_mark (pre post : list Ball) (b : Ball) (time : R) :
  Forall2 onlyMarked (pre ++ b :: post) (pre ++ markBall b time :: post).
Proof.
  induction pre as [| a pre IH]; simpl.
  - constructor; [| apply onlyMarked_list_refl].
    unfold onlyMarked. repeat split; reflexivity.
  - constructor; [apply onlyMarked_refl | exact IH].
Qed.

Lemma reaches_onlyMarked (radius : R) (s : Star) (l l' : list Ball) :
  Forall2 onlyMarked l l' ->
  existsb (reaches radius s) l' = existsb (reaches radius s) l.
Proof.
  intros H. induction H as [| b b' l l' Hb Hl IH]; [reflexivity |].
  simpl. rewrite IH. destruct Hb as (Hx & Hy & _ & _ & Hr & _).
  rewrite (reaches_same_place radius s s b b' eq_refl eq_refl Hx Hy Hr).
  reflexivity.
Qed.

(** The outer loop, star by star: a star is left as it is when it is
    collected already or out of every ball's reach, and marked otherwise. *)
Lemma scanStars_spec (now : nat -> R) (radius : R) (balls0 : list Ball)
      (stars : list Star) (st : CollectState) :
  Forall2 onlyMarked balls0 (cs_balls st) ->
  let '(stars', st') := scanStars now radius stars st in
  Forall2 onlyMarked balls0 (cs_balls st') /\
  Forall2 (fun s s' =>
             (s' = s /\
              (s_collected s = true \/ existsb (reaches radius s) balls0 = false)) \/
             (s_collected s = false /\ existsb (reaches radius s) balls0 = true /\
              exists time, s' = markStar s time))
          stars stars' /\
  cs_newly st' =
  (cs_newly st ||
   existsb (fun s => negb (s_collected s) && existsb (reaches radius s) balls0)
           stars)%bool.
Proof.
  revert st. induction stars as [| s rest IH]; intros st Hb.
  - simpl. split; [exact Hb |]. split; [constructor |].
    rewrite orb_false_r. reflexivity.
  - simpl scanStars. destruct (s_collected s) eqn:Hs.
    + specialize (IH (mkCollectState (cs_balls st) (cs_clock st)
                                     (S (cs_count st)) (cs_newly st)) Hb).
      destruct (scanStars now radius rest _) as [rest' st''].
      destruct IH as (Hb' & Hstars & Hnew). split; [exact Hb' |]. split.
      * constructor; [left; split; [reflexivity | left; exact Hs] | exact Hstars].
      * simpl existsb. rewrite Hs. simpl. exact Hnew.
    + pose proof (reaches_onlyMarked radius s _ _ Hb) as Hreach.
      destruct (scanBalls_spec now radius s [] (cs_balls st) st Hs)
        as [[He Hscan] | (He & pre & b & post & Ht & _ & _ & Hscan)];
        rewrite Hscan; rewrite He in Hreach.
      * specialize (IH st Hb).
        destruct (scanStars now radius rest st) as [rest' st''].
        destruct IH as (Hb' & Hstars & Hnew). split; [exact Hb' |]. split.
        -- constructor; [left; split; [reflexivity | right; symmetry; exact Hreach]
                        | exact Hstars].
        -- simpl existsb. rewrite Hs, <- Hreach. simpl. exact Hnew.
      * assert (Hb2 : Forall2 onlyMarked balls0
                        (pre ++ markBall b (now (S (cs_clock st))) :: post)).
        { eapply onlyMarked_list_trans; [exact Hb |].
          rewrite Ht. apply onlyMarked_mark. }
        specialize (IH (mkCollectState
                          ([] ++ pre ++ markBall b (now (S (cs_clock st))) :: post)
                          (S (S (cs_clock st))) (S (cs_count st)) true) Hb2).
        destruct (scanStars now radius rest _) as [rest' st''].
        destruct IH as (Hb' & Hstars & Hnew). split; [exact Hb' |]. split.
        -- constructor; [| exact Hstars].
           right. split; [exact Hs |]. split; [symmetry; exact Hreach |].
           eexists; reflexivity.
        -- simpl existsb. rewrite Hs, <- Hreach. simpl.
           rewrite Hnew. simpl. rewrite orb_true_r. reflexivity.
Qed.

Lemma filter_length_le {A : Type} (f : A -> bool) (l : list A) :
  (List.length (filter f l) <= List.length l)%nat.
Proof.
  induction l as [| x l IH]; simpl; [lia |].
  destruct (f x); simpl; lia.
Qed.

(** X9.  What one call does: a star ends collected exactly when it was
    collected before or some ball's centre is within [b.r + radius] of it,
    and is otherwise left untouched; star positions never change; balls are
    only marked; [newlyCollected] tells whether an uncollected star was
    reached; [count] is the number of collected stars afterwards. *)
Theorem star_collected_iff_reached
        (now : nat -> R) (clock : nat) (balls : list Ball)
        (stars : list Star) (radius : R) :
  let '(res, stars', balls', _) :=
    checkStarCollection now clock balls stars radius in
  Forall2 (fun s s' =>
             s_x s' = s_x s /\ s_y s' = s_y s /\
             s_collected s' = (s_collected s || existsb (reaches radius s) balls)%bool /\
             (s_collected s' = s_collected s -> s' = s))
          stars stars' /\
  Forall2 onlyMarked balls balls' /\
  newlyCollected res =
  existsb (fun s => negb (s_collected s) && existsb (reaches radius s) balls) stars /\
  count res = countCollected stars' /\
  (count res <= List.length stars)%nat.
Proof.
  unfold checkStarCollection.
  pose proof (scanStars_spec now radius balls stars
                (mkCollectState balls clock 0%nat false)
                (onlyMarked_list_refl balls)) as Hspec.
  pose proof (scanStars_effect now radius stars
                (mkCollectState balls clock 0%nat false)) as Heff.
  destruct (scanStars now radius stars _) as [stars' st'].
  destruct Hspec as (Hb & Hs & Hnew). destruct Heff as [_ Hcount].
  cbn [count newlyCollected cs_count cs_newly] in *.
  assert (Hlen : List.length stars' = List.length stars).
  { clear -Hs. induction Hs; simpl; congruence. }
  split; [| split; [exact Hb | split; [exact Hnew | split; [exact Hcount |]]]].
  - clear -Hs. induction Hs as [| s s' l l' H Hl IH]; constructor; [| exact IH].
    destruct H as [[-> [Hc | Hr]] | (Hc & Hr & time & ->)].
    + rewrite Hc. repeat split; reflexivity.
    + rewrite Hr, orb_false_r. repeat split; reflexivity.
    + rewrite Hc, Hr. simpl. repeat split; try reflexivity.
      intros Habs. discriminate.
  - rewrite Hcount, <- Hlen. unfold countCollected. apply filter_length_le.
Qed.

(** A list of stars each collected or out of reach passes the loop
    unchanged. *)
Lemma scanStars_fixed (now : nat -> R) (radius : R) (stars : list Star)
      (st : CollectState) :
  Forall (fun s => s_collected s = true \/
                   existsb (reaches radius s) (cs_balls st) = false) stars ->
  scanStars now radius stars st
  = (stars, mkCollectState (cs_balls st) (cs_clock st)
                           (cs_count st + countCollected stars) (cs_newly st)).
Proof.
  revert st. induction stars as [| s rest IH]; intros st H.
  - simpl. unfold countCollected. simpl. rewrite Nat.add_0_r.
    destruct st; reflexivity.
  - inversion H as [| ? ? Hs Hrest]; subst. simpl scanStars.
    rewrite countCollected_cons.
    destruct (s_collected s) eqn:Ec.
    + rewrite (IH (mkCollectState (cs_balls st) (cs_clock st)
                                  (S (cs_count st)) (cs_newly st)) Hrest).
      cbn [cs_balls cs_clock cs_count cs_newly]. f_equal. f_equal. simpl. lia.
    + destruct Hs as [Habs | Hfar]; [discriminate |].
      destruct (scanBalls_spec now radius s [] (cs_balls st) st Ec)
        as [[_ Hscan] | (He & _)]; [| congruence].
      rewrite Hscan. cbv beta iota. rewrite (IH st Hrest). reflexivity.
Qed.

(** After a call every star is collected or out of the reach of the balls
    the call leaves. *)
Lemma star_after_call (now : nat -> R) (clock : nat) (balls : list Ball)
      (stars : list Star) (radius : R) :
  let '(res, stars', balls', _) :=
    checkStarCollection now clock balls stars radius in
  Forall (fun s => s_collected s = true \/
                   existsb (reaches radius s) balls' = false) stars' /\
  count res = countCollected stars'.
Proof.
  unfold checkStarCollection.
  pose proof (scanStars_spec now radius balls stars
                (mkCollectState balls clock 0%nat false)
                (onlyMarked_list_refl balls)) as Hspec.
  pose proof (scanStars_effect now radius stars
                (mkCollectState balls clock 0%nat false)) as Heff.
  destruct (scanStars now radius stars _) as [stars' st'].
  destruct Hspec as (Hb & Hs & _). destruct Heff as [_ Hcount].
  cbn [count cs_count cs_balls] in *. split; [| exact Hcount].
  clear Hcount. induction Hs as [| s s' l l' H Hl IH]; constructor; [| exact IH].
  destruct H as [[-> [Hc | Hr]] | (_ & _ & time & ->)].
  - left. exact Hc.
  - right. rewrite (reaches_onlyMarked radius s _ _ Hb). exact Hr.
  - left. reflexivity.
Qed.

(** X10.  A second call with the balls and stars the first call left
    changes nothing: same stars, same balls, no clock reading, the same count
    and [newlyCollected] false. *)
Theorem second_collection_changes_nothing
        (now : nat -> R) (clock : nat) (balls : list Ball)
        (stars : list Star) (radius : R) :
  let '(res, stars', balls', clock') :=
    checkStarCollection now clock balls stars radius in
  checkStarCollection now clock' balls' stars' radius
  = (mkStarResult (count res) false, stars', balls', clock').
Proof.
  pose proof (star_after_call now clock balls stars radius) as H.
  destruct (checkStarCollection now clock balls stars radius)
    as [[[res stars'] balls'] clock'].
  destruct H as (Hfix & Hcount).
  unfold checkStarCollection.
  rewrite (scanStars_fixed now radius stars'
             (mkCollectState balls' clock' 0%nat false) Hfix).
  cbn [cs_balls cs_clock cs_count cs_newly]. rewrite Hcount. reflexivity.
Qed.

End CollectionMore.

(* ===================================================================== *)
(** ** More on the parser *)
(* ===================================================================== *)

Module ParserMore.
Import Text EquationsJs ParserFacts.

Local Open Scope string_scope.

(** *** No caret survives the normalization *)

Lemma allChars_app (ok : ascii -> bool) (s1 s2 : string) :
  allChars ok (s1 ++ s2) = (allChars ok s1 && allChars ok s2)%bool.
Proof.
  induction s1 as [| c s1 IH]; [reflexivity |].
  simpl. rewrite IH, andb_assoc. reflexivity.
Qed.

Lemma allChars_spanWs (ok : ascii -> bool) (s : string) :
  allChars ok s = true -> allChars ok (snd (spanWs s)) = true.
Proof.
  induction s as [| c s IH]; [reflexivity |].
  simpl. intros H. apply andb_true_iff in H. destruct H as [Hc Hs].
  destruct (isSpace c).
  - destruct (spanWs s) as [n r]. simpl in *. apply IH. exact Hs.
  - simpl. rewrite Hc, Hs. reflexivity.
Qed.

Lemma spanWs_snd (s : string) (n : nat) (r : string) :
  spanWs s = (n, r) -> snd (spanWs s) = r.
Proof. intros H. rewrite H. reflexivity. Qed.

Lemma allChars_trimStart (ok : ascii -> bool) (s : string) :
  allChars ok s = true -> allChars ok (trimStart s) = true.
Proof.
  induction s as [| c s IH]; [reflexivity |].
  simpl. intros H. destruct (isSpace c); [| exact H].
  apply andb_true_iff in H. apply IH. apply H.
Qed.

Lemma allChars_trimEnd (ok : ascii -> bool) (s : string) :
  allChars ok s = true -> allChars ok (trimEnd s) = true.
Proof.
  induction s as [| c s IH]; [reflexivity |].
  simpl. intros H. apply andb_true_iff in H. destruct H as [Hc Hs].
  destruct (isSpace c && allWs s)%bool; [reflexivity |].
  simpl. rewrite Hc. apply IH. exact Hs.
Qed.

Lemma allChars_trim (ok : ascii -> bool) (s : string) :
  allChars ok s = true -> allChars ok (trim s) = true.
Proof. intros H. apply allChars_trimEnd, allChars_trimStart, H. Qed.

(** A global replacement keeps a character test that its replacement texts
    keep. *)
Lemma allChars_replaceFrom (ok : ascii -> bool) (m : Matcher) :
  (forall prev s len repl,
      m prev s = Some (len, repl) -> allChars ok s = true -> allChars ok repl = true) ->
  forall s skip prev,
    allChars ok s = true -> allChars ok (replaceFrom m skip prev s) = true.
Proof.
  intros Hm. induction s as [| c s IH]; intros skip prev H; [reflexivity |].
  pose proof H as H'. simpl in H'. apply andb_true_iff in H'.
  destruct H' as [Hc Hs]. simpl.
  destruct skip as [| k]; [| apply IH; exact Hs].
  destruct (m prev (String c s)) as [[len repl] |] eqn:E.
  - rewrite allChars_app, (Hm _ _ _ _ E H). simpl. apply IH. exact Hs.
  - simpl. rewrite Hc. apply IH. exact Hs.
Qed.

Lemma caret_replaced (s : string) (skip : nat) (prev : option ascii) :
  allChars (isNot "^") (replaceFrom caret skip prev s) = true.
Proof.
  revert skip prev. induction s as [| c s IH]; intros skip prev; [reflexivity |].
  simpl. destruct skip as [| k]; [| apply IH].
  unfold caret. destruct (Ascii.eqb c "^") eqn:E.
  - apply Ascii.eqb_eq in E. subst c. simpl. apply IH.
  - assert (Hm : match c with
                 | "^"%char => Some (1%nat, "**")
                 | _ => None
                 end = None).
    { destruct c as [[] [] [] [] [] [] [] []]; try reflexivity. discriminate. }
    rewrite Hm. simpl. unfold isNot at 1. rewrite E. simpl. apply IH.
Qed.

Lemma caret_free_head (c : ascii) (s : string) :
  allChars (isNot "^") (String c s) = true ->
  isNot "^" c = true /\ allChars (isNot "^") s = true.
Proof. simpl. intros H. apply andb_true_iff in H. exact H. Qed.

(** The text behind the white space at the front of [rest], when it starts
    with the character [v]. *)
Lemma caret_free_after_ws (rest : string) (k : nat) (v : ascii) (after : string) :
  allChars (isNot "^") rest = true ->
  spanWs rest = (k, String v after) ->
  isNot "^" v = true.
Proof.
  intros H E. apply (allChars_spanWs (isNot "^")) in H.
  rewrite E in H. simpl in H. apply andb_true_iff in H. apply H.
Qed.

Lemma lnCall_caret_free (prev : option ascii) (s : string) (len : nat) (repl : string) :
  lnCall prev s = Some (len, repl) -> allChars (isNot "^") repl = true.
Proof.
  unfold lnCall. destruct s as [| l [| n rest]]; try discriminate.
  destruct (_ && _ && _)%bool; [| discriminate].
  destruct (spanWs rest) as [k r]. destruct r as [| c r']; [discriminate |].
  destruct c as [[] [] [] [] [] [] [] []]; try discriminate.
  intros H; inversion H; reflexivity.
Qed.

Lemma digitVar_caret_free (prev : option ascii) (s : string) (len : nat) (repl : string) :
  digitVar prev s = Some (len, repl) ->
  allChars (isNot "^") s = true -> allChars (isNot "^") repl = true.
Proof.
  unfold digitVar. destruct s as [| d rest]; [discriminate |].
  destruct (isDigit d); [| discriminate].
  destruct (spanWs rest) as [k r] eqn:E. destruct r as [| v after]; [discriminate |].
  destruct (_ && _)%bool; [| discriminate].
  intros H Hs; inversion H; subst. apply caret_free_head in Hs. destruct Hs as [Hd Hrest].
  simpl. rewrite Hd, (caret_free_after_ws _ _ _ _ Hrest E). reflexivity.
Qed.

Lemma varDigit_caret_free (prev : option ascii) (s : string) (len : nat) (repl : string) :
  varDigit prev s = Some (len, repl) ->
  allChars (isNot "^") s = true -> allChars (isNot "^") repl = true.
Proof.
  unfold varDigit. destruct s as [| v rest]; [discriminate |].
  destruct (_ && _)%bool; [| discriminate].
  destruct (spanWs rest) as [k r] eqn:E. destruct r as [| d after]; [discriminate |].
  destruct (isDigit d); [| discriminate].
  intros H Hs; inversion H; subst. apply caret_free_head in Hs. destruct Hs as [Hv Hrest].
  simpl. rewrite Hv, (caret_free_after_ws _ _ _ _ Hrest E). reflexivity.
Qed.

Lemma varParen_caret_free (prev : option ascii) (s : string) (len : nat) (repl : string) :
  varParen prev s = Some (len, repl) ->
  allChars (isNot "^") s = true -> allChars (isNot "^") repl = true.
Proof.
  unfold varParen. destruct s as [| v rest]; [discriminate |].
  destruct (_ && _)%bool; [| discriminate].
  destruct (spanWs rest) as [k r] eqn:E. destruct r as [| c after]; [discriminate |].
  destruct c as [[] [] [] [] [] [] [] []]; try discriminate.
  intros H Hs; inversion H; subst. apply caret_free_head in Hs. destruct Hs as [Hv _].
  simpl. rewrite Hv. reflexivity.
Qed.

Lemma parenVar_caret_free (prev : option ascii) (s : string) (len : nat) (repl : string) :
  parenVar prev s = Some (len, repl) ->
  allChars (isNot "^") s = true -> allChars (isNot "^") repl = true.
Proof.
  unfold parenVar. destruct s as [| c rest]; [discriminate |].
  destruct c as [[] [] [] [] [] [] [] []]; try discriminate.
  destruct (spanWs rest) as [k r] eqn:E. destruct r as [| v after]; [discriminate |].
  destruct (_ && _)%bool; [| discriminate].
  intros H Hs; inversion H; subst. apply caret_free_head in Hs. destruct Hs as [_ Hrest].
  simpl. rewrite (caret_free_after_ws _ _ _ _ Hrest E). reflexivity.
Qed.

Lemma parenParen_caret_free (prev : option ascii) (s : string) (len : nat) (repl : string) :
  parenParen prev s = Some (len, repl) -> allChars (isNot "^") repl = true.
Proof.
  unfold parenParen. destruct s as [| c rest]; [discriminate |].
  destruct c as [[] [] [] [] [] [] [] []]; try discriminate.
  destruct (spanWs rest) as [k r]. destruct r as [| c after]; [discriminate |].
  destruct c as [[] [] [] [] [] [] [] []]; try discriminate.
  intros H; inversion H; reflexivity.
Qed.

(** X11.  Whatever the input, the normalized expression holds no caret:
    every [^] has become the power operator before the text is validated
    and handed to the engine. *)
Theorem sanitized_has_no_caret (input : string) :
  allChars (isNot "^") (sanitizeExpression input) = true.
Proof.
  unfold sanitizeExpression, replaceAll.
  apply allChars_replaceFrom; [intros; eapply parenParen_caret_free; eassumption |].
  apply allChars_replaceFrom; [intros; eapply parenVar_caret_free; eassumption |].
  apply allChars_replaceFrom; [intros; eapply varParen_caret_free; eassumption |].
  apply allChars_replaceFrom; [intros; eapply varDigit_caret_free; eassumption |].
  apply allChars_replaceFrom; [intros; eapply digitVar_caret_free; eassumption |].
  apply allChars_replaceFrom; [intros; eapply lnCall_caret_free; eassumption |].
  apply caret_replaced.
Qed.

(** *** What a successful parse guarantees *)

Lemma validateExpression_ok (e : string) :
  validateExpression e = Ok tt <->
  allChars exprChar e = true /\
  forall id, In id (identifiers e) -> allowed id = true.
Proof.
  unfold validateExpression. split.
  - destruct (allChars exprChar e); [| discriminate]. simpl.
    destruct (firstUnknown (identifiers e)) as [id |] eqn:E; [discriminate |].
    intros _. split; [reflexivity |]. intros id Hin.
    pose proof (find_none _ _ E id Hin) as H. simpl in H.
    destruct (allowed id); [reflexivity | discriminate].
  - intros [Hc Hid]. rewrite Hc. simpl.
    destruct (firstUnknown (identifiers e)) as [id |] eqn:E; [| reflexivity].
    apply firstUnknown_unknown in E. destruct E as [Hin Hno].
    rewrite (Hid id Hin) in Hno. discriminate.
Qed.

(** X12.  A parse that succeeds returns the normalized text of the part
    before the condition clause; that text has passed the validation (allowed
    characters only, every identifier on the list); the orientation is
    x-of-y exactly when that part starts with [x =] in either case; the
    evaluator is the engine's function for that text in the variable of the
    orientation; and the derivative is its central difference. *)
Theorem parse_success_sound (E : Engine) (input : string) (r : Parsed) :
  parseEquationToFunction E input = Ok r ->
  expr r = sanitizeExpression (fst (extractCondition (trim input))) /\
  allChars exprChar (expr r) = true /\
  (forall id, In id (identifiers (expr r)) -> allowed id = true) /\
  type r = (if startsWithXEquals (toLowerCase (fst (extractCondition (trim input))))
            then xOfY else yOfX) /\
  compileExpr E (match type r with xOfY => "y" | yOfX => "x" end) (expr r)
  = Some (f r) /\
  df r = centralDifference (f r).
Proof.
  unfold parseEquationToFunction.
  destruct (extractCondition (trim input)) as [base condSrc]. cbn [fst].
  destruct (buildCondition E condSrc) as [c | msg]; [| discriminate].
  destruct (validateExpression (sanitizeExpression base)) as [[] | msg] eqn:Ev;
    [| discriminate].
  apply validateExpression_ok in Ev. destruct Ev as [Hc Hid].
  destruct (startsWithXEquals (toLowerCase base)).
  - unfold buildDerivativeForY, buildFunctionForY.
    destruct (compileExpr E "y" (sanitizeExpression base)) as [g |] eqn:Eg;
      [| discriminate].
    intros H; inversion H; subst; clear H. cbn [expr f df type].
    repeat split; try assumption; reflexivity.
  - unfold buildDerivative, buildFunction.
    destruct (compileExpr E "x" (sanitizeExpression base)) as [g |] eqn:Eg;
      [| discriminate].
    intros H; inversion H; subst; clear H. cbn [expr f df type].
    repeat split; try assumption; reflexivity.
Qed.

Lemma parse_success_sound_witness :
  exists r,
    parseEquationToFunction Scenes.linearEngine "y = 2x + 3" = Ok r /\
    expr r = "2*x + 3" /\ type r = yOfX.
Proof.
  exists (mkParsed "2*x + 3" (fun x => Returns (VNum (2 * x + 3)))
            (centralDifference (fun x => Returns (VNum (2 * x + 3)))) yOfX None).
  assert (H : parseEquationToFunction Scenes.linearEngine "y = 2x + 3"
              = Ok (mkParsed "2*x + 3" (fun x => Returns (VNum (2 * x + 3)))
                      (centralDifference (fun x => Returns (VNum (2 * x + 3))))
                      yOfX None)) by reflexivity.
  split; [exact H |].
  destruct (parse_success_sound Scenes.linearEngine "y = 2x + 3" _ H)
    as (He & _ & _ & Ht & _).
  split; [exact He | exact Ht].
Defined.

(** X13.  The predicate a successful parse returns never throws: it is
    the engine's function for the normalized, validated text of the condition
    clause, with a throw turned into [false].  There is a predicate exactly
    when the clause is present and not empty. *)
Theorem parsed_condition_never_throws (E : Engine) (input : string) (r : Parsed) :
  parseEquationToFunction E input = Ok r ->
  (forall c, cond r = Some c ->
     exists src cfun,
       snd (extractCondition (trim input)) = Some src /\
       validateCondition (sanitizeExpression src) = Ok tt /\
       compileCond E (sanitizeExpression src) = Some cfun /\
       forall x y,
         c x y = Returns (match cfun x y with
                          | Returns v => v
                          | Throws => false
                          end)) /\
  (cond r = None <->
   snd (extractCondition (trim input)) = None \/
   snd (extractCondition (trim input)) = Some EmptyString).
Proof.
  unfold parseEquationToFunction.
  destruct (extractCondition (trim input)) as [base condSrc]. cbn [snd].
  destruct (buildCondition E condSrc) as [c0 | msg] eqn:Eb; [| discriminate].
  assert (Hr : forall r, cond r = c0 ->
            (forall c, cond r = Some c ->
               exists src cfun,
                 condSrc = Some src /\
                 validateCondition (sanitizeExpression src) = Ok tt /\
                 compileCond E (sanitizeExpression src) = Some cfun /\
                 forall x y,
                   c x y = Returns (match cfun x y with
                                    | Returns v => v
                                    | Throws => false
                                    end)) /\
            (cond r = None <-> condSrc = None \/ condSrc = Some EmptyString)).
  { intros r0 Hr0. rewrite Hr0. clear Hr0. unfold buildCondition in Eb.
    destruct condSrc as [[| ch src] |].
    - inversion Eb; subst. split; [discriminate |]. split; auto.
    - destruct (validateCondition (sanitizeExpression (String ch src)))
        as [[] | msg] eqn:Ev; [| discriminate].
      destruct (compileCond E (sanitizeExpression (String ch src)))
        as [cfun |] eqn:Ec; [| discriminate].
      inversion Eb; subst. split.
      + intros c Hc. inversion Hc; subst. exists (String ch src), cfun.
        repeat split; try assumption. intros x y.
        destruct (cfun x y); reflexivity.
      + split; [discriminate | intros [H | H]; discriminate].
    - inversion Eb; subst. split; [discriminate |]. split; auto. }
  destruct (validateExpression (sanitizeExpression base)); [| discriminate].
  destruct (startsWithXEquals (toLowerCase base)).
  - destruct (buildFunctionForY E _); [| discriminate].
    destruct (buildDerivativeForY E _); [| discriminate].
    intros H; inversion H; subst. apply Hr. reflexivity.
  - destruct (buildFunction E _); [| discriminate].
    destruct (buildDerivative E _); [| discriminate].
    intros H; inversion H; subst. apply Hr. reflexivity.
Qed.

Lemma parsed_condition_never_throws_witness :
  exists r c,
    parseEquationToFunction Scenes.constantEngine "y = 1 { x > 0 }" = Ok r /\
    cond r = Some c /\ c (-1) 0 = Returns false.
Proof.
  assert (H : exists r, parseEquationToFunction Scenes.constantEngine
                          "y = 1 { x > 0 }" = Ok r /\ cond r <> None).
  { eexists. split; [reflexivity |]. discriminate. }
  destruct H as (r & Hp & Hc).
  destruct (cond r) as [c |] eqn:Ec; [| contradiction].
  exists r, c. split; [exact Hp |]. split; [exact Ec |].
  destruct (proj1 (parsed_condition_never_throws Scenes.constantEngine _ r Hp) c Ec)
    as (src & cfun & _ & _ & Hcomp & Hcall).
  rewrite Hcall. inversion Hcomp; subst.
  rewrite Rltb_true by lra. reflexivity.
Defined.

(** *** The condition clause *)

Lemma append_assoc (s1 s2 s3 : string) : (s1 ++ s2) ++ s3 = s1 ++ (s2 ++ s3).
Proof. induction s1 as [| c s1 IH]; [reflexivity |]. simpl. rewrite IH. reflexivity. Qed.

Lemma append_empty (s : string) : s ++ EmptyString = s.
Proof. induction s as [| c s IH]; [reflexivity |]. simpl. rewrite IH. reflexivity. Qed.

Lemma closeBrace_found (c ws : string) :
  allChars (isNot "}") c = true -> allWs ws = true ->
  closeBrace (c ++ String "}" ws) = Some c.
Proof.
  intros Hc Hws. induction c as [| ch c IH].
  - simpl. rewrite Hws. reflexivity.
  - simpl in Hc. apply andb_true_iff in Hc. destruct Hc as [Hch Hc].
    simpl. unfold isNot in Hch. apply negb_true_iff in Hch. rewrite Hch.
    rewrite (IH Hc). reflexivity.
Qed.

Lemma findCondition_skip (before b rest : string) :
  allChars (isNot "{") b = true ->
  findCondition before (b ++ rest) = findCondition (before ++ b) rest.
Proof.
  revert before. induction b as [| ch b IH]; intros before Hb.
  - simpl. rewrite append_empty. reflexivity.
  - simpl in Hb. apply andb_true_iff in Hb. destruct Hb as [Hch Hb].
    simpl. unfold isNot in Hch. apply negb_true_iff in Hch. rewrite Hch.
    rewrite (IH _ Hb), append_assoc. reflexivity.
Qed.

Lemma findCondition_none (before raw : string) :
  allChars (isNot "{") raw = true -> findCondition before raw = None.
Proof.
  intros H. rewrite <- (append_empty raw). rewrite (findCondition_skip _ _ _ H).
  reflexivity.
Qed.

(** X14.  An input [b{c}] followed by white space only, with no opening
    brace in [b] and no closing brace in [c], is split into the trimmed [b]
    and the trimmed [c]; an input without an opening brace has no condition
    and is its own base. *)
Theorem condition_clause_split :
  (forall b c ws,
      allChars (isNot "{") b = true ->
      allChars (isNot "}") c = true ->
      allWs ws = true ->
      extractCondition (b ++ String "{" (c ++ String "}" ws))
      = (trim b, Some (trim c))) /\
  (forall raw,
      allChars (isNot "{") raw = true -> extractCondition raw = (raw, None)).
Proof.
  split.
  - intros b c ws Hb Hc Hws. unfold extractCondition.
    rewrite (findCondition_skip _ _ _ Hb). simpl.
    rewrite (closeBrace_found _ _ Hc Hws). reflexivity.
  - intros raw H. unfold extractCondition.
    rewrite (findCondition_none _ _ H). reflexivity.
Qed.

Lemma condition_clause_split_witness :
  extractCondition "y = x^2 { x > 0 }  " = ("y = x^2", Some "x > 0").
Proof.
  exact (proj1 condition_clause_split "y = x^2 " " x > 0 " "  "
           eq_refl eq_refl eq_refl).
Defined.

(** *** The numerical derivative *)

(** X15.  The central difference is exact on polynomials of degree at
    most two: for an evaluator returning [a x^2 + b x + c] it returns
    [2 a x + b]; and it throws where the evaluator throws at [x + h] or at
    [x - h], [h = 1e-4]. *)
Theorem central_difference_exact_on_quadratics (g : Evaluator) :
  (forall a b c : R,
      (forall x, g x = Returns (VNum (a * x * x + b * x + c))) ->
      forall x, centralDifference g x = Returns (VNum (2 * a * x + b))) /\
  (forall x, g (x + 1e-4)%R = Throws \/ g (x - 1e-4)%R = Throws ->
             centralDifference g x = Throws).
Proof.
  split.
  - intros a b c Hg x. unfold centralDifference. cbv zeta.
    rewrite !Hg. cbn [jsSub jsDivPos]. do 2 f_equal. field.
  - intros x [H | H]; unfold centralDifference; cbv zeta.
    + rewrite H. reflexivity.
    + rewrite H. destruct (g (x + 1e-4)%R); reflexivity.
Qed.

Lemma central_difference_exact_on_quadratics_witness :
  centralDifference (fun x => Returns (VNum (2 * x + 3))) 7 = Returns (VNum 2).
Proof.
  rewrite (proj1 (central_difference_exact_on_quadratics
                    (fun x => Returns (VNum (2 * x + 3)))) 0 2 3)%R.
  - do 2 f_equal. lra.
  - intros x. do 2 f_equal. lra.
Defined.

End ParserMore.

(* ===================================================================== *)
(** ** More on the sampler *)
(* ===================================================================== *)

Module SamplerMore.
Import EquationsJs PhysicsFacts SamplerFacts.

(** The numbers of [l] are in non-decreasing order and lie in [[lo, b]]. *)
Lemma ordered_snoc (l : list R) (lo b x : R) :
  StronglySorted Rle l /\ Forall (fun v => lo <= v <= b) l ->
  lo <= x -> b <= x ->
  StronglySorted Rle (l ++ [x]) /\ Forall (fun v => lo <= v <= x) (l ++ [x]).
Proof.
  intros [Hs Hf] Hlo Hb. induction l as [| a l IH].
  - simpl. split; [repeat constructor | constructor; [lra | constructor]].
  - inversion Hs as [| ? ? Hs' Ha]; subst. inversion Hf as [| ? ? Hfa Hf']; subst.
    destruct (IH Hs' Hf') as [IHs IHf]. simpl. split.
    + constructor; [exact IHs |]. apply Forall_app. split; [exact Ha |].
      constructor; [lra | constructor].
    + constructor; [lra | exact IHf].
Qed.

Lemma ordered_widen (l : list R) (lo b b' : R) :
  StronglySorted Rle l /\ Forall (fun v => lo <= v <= b) l ->
  b <= b' ->
  StronglySorted Rle l /\ Forall (fun v => lo <= v <= b') l.
Proof.
  intros [Hs Hf] Hb. split; [exact Hs |].
  eapply Forall_impl; [| exact Hf]. simpl. intros v Hv. lra.
Qed.

Lemma xsOf_push (pts : Polyline) (p : option Point) :
  xsOf (push pts p) = xsOf pts ++ xsOf [p].
Proof. unfold xsOf, push. apply flat_map_app. Qed.

Lemma ysOf_push (pts : Polyline) (p : option Point) :
  ysOf (push pts p) = ysOf pts ++ ysOf [p].
Proof. unfold ysOf, push. apply flat_map_app. Qed.

Lemma xsOf_addBreak (pts : Polyline) : xsOf (addBreak pts) = xsOf pts.
Proof.
  unfold addBreak. destruct (lastOpt pts) as [[l |] |]; try reflexivity;
    rewrite xsOf_push; simpl; apply app_nil_r.
Qed.

Lemma ysOf_addBreak (pts : Polyline) : ysOf (addBreak pts) = ysOf pts.
Proof.
  unfold addBreak. destruct (lastOpt pts) as [[l |] |]; try reflexivity;
    rewrite ysOf_push; simpl; apply app_nil_r.
Qed.

(** The accepting branch keeps the order and the bounds. *)
Lemma accept_ordered (lo x0 y0 xm ym x1 y1 : R) (pts : Polyline) :
  lo <= x0 -> x0 <= xm -> xm <= x1 ->
  StronglySorted Rle (xsOf pts) /\ Forall (fun v => lo <= v <= x0) (xsOf pts) ->
  StronglySorted Rle (xsOf (accept x0 y0 xm ym x1 y1 pts)) /\
  Forall (fun v => lo <= v <= x1) (xsOf (accept x0 y0 xm ym x1 y1 pts)).
Proof.
  intros Hlo H0m Hm1 H. unfold accept.
  set (pts1 := match lastOpt pts with
               | Some (Some _) => pts
               | _ => push pts (Some (mkPoint x0 y0))
               end).
  assert (H1 : StronglySorted Rle (xsOf pts1) /\
               Forall (fun v => lo <= v <= x0) (xsOf pts1)).
  { unfold pts1. destruct (lastOpt pts) as [[l |] |]; try exact H;
      rewrite xsOf_push; apply (ordered_snoc _ lo x0); try assumption; lra. }
  set (pts2 := match lastOpt pts1 with
               | Some (Some last) =>
                   if Rgtb (Rabs (xm - p_x last)) 1e-9
                   then push pts1 (Some (mkPoint xm ym)) else pts1
               | _ => push pts1 (Some (mkPoint xm ym))
               end).
  assert (H2 : StronglySorted Rle (xsOf pts2) /\
               Forall (fun v => lo <= v <= xm) (xsOf pts2)).
  { unfold pts2. destruct (lastOpt pts1) as [[l |] |];
      try destruct (Rgtb _ 1e-9);
      try (rewrite xsOf_push; apply (ordered_snoc _ lo x0); try assumption; lra).
    apply (ordered_widen _ lo x0); assumption. }
  destruct (Rgtb (Rabs (x1 - xm)) 1e-9).
  - rewrite xsOf_push. apply (ordered_snoc _ lo xm); try assumption; lra.
  - apply (ordered_widen _ lo xm); assumption.
Qed.

Lemma acceptY_ordered (lo y0 x0 ym xm y1 x1 : R) (pts : Polyline) :
  lo <= y0 -> y0 <= ym -> ym <= y1 ->
  StronglySorted Rle (ysOf pts) /\ Forall (fun v => lo <= v <= y0) (ysOf pts) ->
  StronglySorted Rle (ysOf (acceptY y0 x0 ym xm y1 x1 pts)) /\
  Forall (fun v => lo <= v <= y1) (ysOf (acceptY y0 x0 ym xm y1 x1 pts)).
Proof.
  intros Hlo H0m Hm1 H. unfold acceptY.
  set (pts1 := match lastOpt pts with
               | Some (Some _) => pts
               | _ => push pts (Some (mkPoint x0 y0))
               end).
  assert (H1 : StronglySorted Rle (ysOf pts1) /\
               Forall (fun v => lo <= v <= y0) (ysOf pts1)).
  { unfold pts1. destruct (lastOpt pts) as [[l |] |]; try exact H;
      rewrite ysOf_push; apply (ordered_snoc _ lo y0); try assumption; lra. }
  set (pts2 := match lastOpt pts1 with
               | Some (Some last) =>
                   if Rgtb (Rabs (ym - p_y last)) 1e-9
                   then push pts1 (Some (mkPoint xm ym)) else pts1
               | _ => push pts1 (Some (mkPoint xm ym))
               end).
  assert (H2 : StronglySorted Rle (ysOf pts2) /\
               Forall (fun v => lo <= v <= ym) (ysOf pts2)).
  { unfold pts2. destruct (lastOpt pts1) as [[l |] |];
      try destruct (Rgtb _ 1e-9);
      try (rewrite ysOf_push; apply (ordered_snoc _ lo y0); try assumption; lra).
    apply (ordered_widen _ lo y0); assumption. }
  destruct (Rgtb (Rabs (y1 - ym)) 1e-9).
  - rewrite ysOf_push. apply (ordered_snoc _ lo ym); try assumption; lra.
  - apply (ordered_widen _ lo ym); assumption.
Qed.

Lemma sorted_drop_middle (a m b : list R) :
  StronglySorted Rle (a ++ m ++ b) -> StronglySorted Rle (a ++ b).
Proof.
  induction a as [| x a IH]; simpl.
  - induction m as [| y m IHm]; simpl; [trivial |].
    intros H. inversion H; subst. apply IHm. assumption.
  - intros H. inversion H as [| ? ? Hs Hx]; subst.
    constructor; [apply IH; exact Hs |].
    apply Forall_app in Hx. destruct Hx as [Ha Hmb].
    apply Forall_app in Hmb. destruct Hmb as [_ Hb].
    apply Forall_app. split; assumption.
Qed.

Lemma bounded_drop_middle (P : R -> Prop) (a m b : list R) :
  Forall P (a ++ m ++ b) -> Forall P (a ++ b).
Proof.
  intros H. apply Forall_app in H. destruct H as [Ha Hmb].
  apply Forall_app in Hmb. destruct Hmb as [_ Hb].
  apply Forall_app. split; assumption.
Qed.

Lemma in_push_break (pts : Polyline) (p : Point) :
  In None (push pts (Some p)) -> In None pts.
Proof.
  unfold push. intros H. apply in_app_or in H.
  destruct H as [H | [H | []]]; [exact H | discriminate].
Qed.

(** *** Abscissas: order and bounds *)

Lemma cleanStep_xsOf (out : Polyline) (p : option Point) :
  xsOf (cleanStep out p) = xsOf out \/
  xsOf (cleanStep out p) = xsOf out ++ xsOf [p].
Proof.
  unfold cleanStep.
  destruct p as [p |]; destruct (lastOpt out) as [[l |] |];
    try destruct (Rgtb _ 1e-9); try (left; reflexivity);
    right; apply xsOf_push.
Qed.

Lemma cleanUp_ordered_xs (P : R -> Prop) (pts out : Polyline) :
  StronglySorted Rle (xsOf out ++ xsOf pts) /\ Forall P (xsOf out ++ xsOf pts) ->
  StronglySorted Rle (xsOf (fold_left cleanStep pts out)) /\
  Forall P (xsOf (fold_left cleanStep pts out)).
Proof.
  revert out. induction pts as [| p rest IH]; intros out [Hs Hf].
  - simpl. change (xsOf []) with (@nil R) in Hs, Hf.
    rewrite app_nil_r in Hs, Hf. split; assumption.
  - simpl fold_left. apply IH.
    assert (Ec : xsOf (p :: rest) = xsOf [p] ++ xsOf rest)
      by (unfold xsOf; simpl; rewrite app_nil_r; reflexivity).
    rewrite Ec in Hs, Hf.
    destruct (cleanStep_xsOf out p) as [E | E]; rewrite E.
    + split; [eapply sorted_drop_middle; exact Hs
             | eapply bounded_drop_middle; exact Hf].
    + rewrite <- app_assoc. split; assumption.
Qed.

Lemma subdivide_ordered (f : Evaluator) (cond : option Predicate) (lo : R)
      (t0 : R) (v0 : option R) (t1 : R) (v1 : option R)
      (depth : nat) (pts : Polyline) :
  lo <= t0 -> t0 <= t1 ->
  StronglySorted Rle (xsOf pts) /\ Forall (fun v => lo <= v <= t0) (xsOf pts) ->
  StronglySorted Rle (xsOf (subdivide f cond t0 v0 t1 v1 depth pts)) /\
  Forall (fun v => lo <= v <= t1) (xsOf (subdivide f cond t0 v0 t1 v1 depth pts)).
Proof.
  funelim (subdivide f cond t0 v0 t1 v1 depth pts); intros Hlo Hle Hinv;
    try (rewrite xsOf_addBreak; eapply ordered_widen; eassumption);
    try (apply accept_ordered; try assumption; lra).
  all: match goal with
       | IH2 : context [subdivide _ _ _ _ _ _ _ (subdivide _ _ _ _ _ _ _ _)],
         IH1 : _ |- _ =>
           apply IH2; [lra | lra |]; apply IH1; [lra | lra | exact Hinv]
       end.
Qed.

Lemma sampleLoop_ordered (f : Evaluator) (cond : option Predicate) (lo : R)
      (fuel : nat) (tMax coarse t0 : R) (v0 : option R) (t1 : R)
      (pts out : Polyline) :
  0 <= coarse -> lo <= t0 -> t0 <= t1 -> t1 <= tMax ->
  StronglySorted Rle (xsOf pts) /\ Forall (fun v => lo <= v <= t0) (xsOf pts) ->
  sampleLoop f cond fuel tMax coarse t0 v0 t1 pts = Some out ->
  StronglySorted Rle (xsOf out) /\ Forall (fun v => lo <= v <= tMax) (xsOf out).
Proof.
  intros Hc. revert t0 v0 t1 pts.
  induction fuel as [| fuel IH]; intros t0 v0 t1 pts Hlo H01 H1m Hinv;
    [discriminate |].
  simpl. destruct (Rltb t0 (tMax + 1e-9)).
  - pose proof (subdivide_ordered f cond lo t0 v0 t1 (safeEval f cond t1) 0 pts
                  Hlo H01 Hinv) as Hnew.
    destruct (Rgeb t1 tMax).
    + intros H; inversion H; subst. eapply ordered_widen; eassumption.
    + apply IH; try assumption; try lra.
      * unfold Rmin. destruct (Rle_dec (t1 + coarse) tMax); lra.
      * apply Rmin_r.
  - intros H; inversion H; subst. eapply ordered_widen; [exact Hinv | lra].
Qed.

(** *** Ordinates: order and bounds *)

Lemma cleanStep_ysOf (out : Polyline) (p : option Point) :
  ysOf (cleanStep out p) = ysOf out \/
  ysOf (cleanStep out p) = ysOf out ++ ysOf [p].
Proof.
  unfold cleanStep.
  destruct p as [p |]; destruct (lastOpt out) as [[l |] |];
    try destruct (Rgtb _ 1e-9); try (left; reflexivity);
    right; apply ysOf_push.
Qed.

Lemma cleanUp_ordered_ys (P : R -> Prop) (pts out : Polyline) :
  StronglySorted Rle (ysOf out ++ ysOf pts) /\ Forall P (ysOf out ++ ysOf pts) ->
  StronglySorted Rle (ysOf (fold_left cleanStep pts out)) /\
  Forall P (ysOf (fold_left cleanStep pts out)).
Proof.
  revert out. induction pts as [| p rest IH]; intros out [Hs Hf].
  - simpl. change (ysOf []) with (@nil R) in Hs, Hf.
    rewrite app_nil_r in Hs, Hf. split; assumption.
  - simpl fold_left. apply IH.
    assert (Ec : ysOf (p :: rest) = ysOf [p] ++ ysOf rest)
      by (unfold ysOf; simpl; rewrite app_nil_r; reflexivity).
    rewrite Ec in Hs, Hf.
    destruct (cleanStep_ysOf out p) as [E | E]; rewrite E.
    + split; [eapply sorted_drop_middle; exact Hs
             | eapply bounded_drop_middle; exact Hf].
    + rewrite <- app_assoc. split; assumption.
Qed.

Lemma subdivideY_ordered (f : Evaluator) (cond : option Predicate) (lo : R)
      (t0 : R) (v0 : option R) (t1 : R) (v1 : option R)
      (depth : nat) (pts : Polyline) :
  lo <= t0 -> t0 <= t1 ->
  StronglySorted Rle (ysOf pts) /\ Forall (fun v => lo <= v <= t0) (ysOf pts) ->
  StronglySorted Rle (ysOf (subdivideY f cond t0 v0 t1 v1 depth pts)) /\
  Forall (fun v => lo <= v <= t1) (ysOf (subdivideY f cond t0 v0 t1 v1 depth pts)).
Proof.
  funelim (subdivideY f cond t0 v0 t1 v1 depth pts); intros Hlo Hle Hinv;
    try (rewrite ysOf_addBreak; eapply ordered_widen; eassumption);
    try (apply acceptY_ordered; try assumption; lra).
  all: match goal with
       | IH2 : context [subdivideY _ _ _ _ _ _ _ (subdivideY _ _ _ _ _ _ _ _)],
         IH1 : _ |- _ =>
           apply IH2; [lra | lra |]; apply IH1; [lra | lra | exact Hinv]
       end.
Qed.

Lemma sampleLoopY_ordered (f : Evaluator) (cond : option Predicate) (lo : R)
      (fuel : nat) (tMax coarse t0 : R) (v0 : option R) (t1 : R)
      (pts out : Polyline) :
  0 <= coarse -> lo <= t0 -> t0 <= t1 -> t1 <= tMax ->
  StronglySorted Rle (ysOf pts) /\ Forall (fun v => lo <= v <= t0) (ysOf pts) ->
  sampleLoopY f cond fuel tMax coarse t0 v0 t1 pts = Some out ->
  StronglySorted Rle (ysOf out) /\ Forall (fun v => lo <= v <= tMax) (ysOf out).
Proof.
  intros Hc. revert t0 v0 t1 pts.
  induction fuel as [| fuel IH]; intros t0 v0 t1 pts Hlo H01 H1m Hinv;
    [discriminate |].
  simpl. destruct (Rltb t0 (tMax + 1e-9)).
  - pose proof (subdivideY_ordered f cond lo t0 v0 t1 (safeEvalY f cond t1) 0 pts
                  Hlo H01 Hinv) as Hnew.
    destruct (Rgeb t1 tMax).
    + intros H; inversion H; subst. eapply ordered_widen; eassumption.
    + apply IH; try assumption; try lra.
      * unfold Rmin. destruct (Rle_dec (t1 + coarse) tMax); lra.
      * apply Rmin_r.
  - intros H; inversion H; subst. eapply ordered_widen; [exact Hinv | lra].
Qed.

(** X16.  Over an interval [lo <= hi] the points of the polyline
    [sampleCurve] returns come in non-decreasing order of [x] and have their
    [x] in [[lo, hi]]; for [sampleCurveY] the same holds of [y]. *)
Theorem sampled_points_ordered_within_interval
        (f : Evaluator) (cond : option Predicate) (lo hi step : R)
        (fuel : nat) (out : Polyline) :
  lo <= hi ->
  (sampleCurve f cond fuel lo hi step = Some out ->
   StronglySorted Rle (xsOf out) /\ Forall (fun x => lo <= x <= hi) (xsOf out)) /\
  (sampleCurveY f cond fuel lo hi step = Some out ->
   StronglySorted Rle (ysOf out) /\ Forall (fun y => lo <= y <= hi) (ysOf out)).
Proof.
  intros Hle.
  assert (Hc : 0 <= Rmax step ((hi - lo) / 64)).
  { pose proof (Rmax_r step ((hi - lo) / 64)). lra. }
  assert (H1 : lo <= Rmin (lo + Rmax step ((hi - lo) / 64)) hi).
  { unfold Rmin. destruct (Rle_dec _ hi); lra. }
  split.
  - unfold sampleCurve. cbv zeta.
    destruct (sampleLoop f cond fuel _ _ _ _ _ _) as [pts |] eqn:E; [| discriminate].
    intros H; inversion H; subst. unfold cleanUp.
    apply cleanUp_ordered_xs. simpl app.
    refine (sampleLoop_ordered f cond lo _ _ _ _ _ _ _ _ Hc (Rle_refl lo) H1
              (Rmin_r _ _) _ E).
    split; constructor.
  - unfold sampleCurveY. cbv zeta.
    destruct (sampleLoopY f cond fuel _ _ _ _ _ _) as [pts |] eqn:E; [| discriminate].
    intros H; inversion H; subst. unfold cleanUp.
    apply cleanUp_ordered_ys. simpl app.
    refine (sampleLoopY_ordered f cond lo _ _ _ _ _ _ _ _ Hc (Rle_refl lo) H1
              (Rmin_r _ _) _ E).
    split; constructor.
Qed.

Lemma sampled_points_ordered_within_interval_witness :
  StronglySorted Rle [0; 0.5; 1] /\ Forall (fun x => 0 <= x <= 1) [0; 0.5; 1].
Proof.
  exact (proj1 (sampled_points_ordered_within_interval
                  Scenes.identityEvaluator None 0 1 1 1
                  [Some (mkPoint 0 0); Some (mkPoint 0.5 0.5); Some (mkPoint 1 1)]
                  ltac:(lra))
               (sampleCurve_identity 0)).
Defined.

(** *** sampleCurve: no break without a failed evaluation *)

Lemma accept_no_break (t0 v0 tm vm t1 v1 : R) (pts : Polyline) :
  In None (accept t0 v0 tm vm t1 v1 pts) -> In None pts.
Proof.
  unfold accept. intros H.
  repeat match type of H with
  | In None (if ?b then _ else _) => destruct b
  | In None (push _ (Some _)) => apply in_push_break in H
  | In None (match ?o with _ => _ end) => destruct o as [[?l |] |]
  end; exact H.
Qed.

Lemma subdivide_unbroken (f : Evaluator) (cond : option Predicate) (lo hi : R)
      (t0 : R) (v0 : option R) (t1 : R) (v1 : option R)
      (depth : nat) (pts : Polyline) :
  (forall t, lo <= t <= hi -> safeEval f cond t <> None) ->
  lo <= t0 -> t0 <= t1 -> t1 <= hi ->
  v0 = safeEval f cond t0 -> v1 = safeEval f cond t1 ->
  In None (subdivide f cond t0 v0 t1 v1 depth pts) -> In None pts.
Proof.
  funelim (subdivide f cond t0 v0 t1 v1 depth pts);
    intros Hall Hlo Hle Hhi E0 E1 Hin;
    try (exfalso; apply (Hall x0); [lra | symmetry; exact E0]);
    try (exfalso; apply (Hall x1); [lra | symmetry; exact E1]);
    try (exfalso; apply (Hall (0.5 * (x0 + x1))); [lra | assumption]);
    try (apply accept_no_break in Hin; exact Hin).
  all: match goal with
       | IH2 : context [subdivide _ _ _ _ _ _ _ (subdivide _ _ _ _ _ _ _ _)],
         IH1 : _ |- _ =>
           eapply IH1;
           [exact Hall | lra | lra | lra | exact E0 | symmetry; eassumption |];
           eapply IH2;
           [exact Hall | lra | lra | lra | symmetry; eassumption | exact E1
           | exact Hin]
       end.
Qed.

Lemma sampleLoop_unbroken (f : Evaluator) (cond : option Predicate) (lo hi : R)
      (fuel : nat) (coarse t0 : R) (v0 : option R) (t1 : R)
      (pts out : Polyline) :
  (forall t, lo <= t <= hi -> safeEval f cond t <> None) ->
  0 <= coarse -> lo <= t0 -> t0 <= t1 -> t1 <= hi ->
  v0 = safeEval f cond t0 ->
  sampleLoop f cond fuel hi coarse t0 v0 t1 pts = Some out ->
  In None out -> In None pts.
Proof.
  intros Hall Hc. revert t0 v0 t1 pts.
  induction fuel as [| fuel IH]; intros t0 v0 t1 pts Hlo H01 H1m E0;
    [discriminate |].
  simpl. destruct (Rltb t0 (hi + 1e-9)).
  - destruct (Rgeb t1 hi).
    + intros H; inversion H; subst.
      apply (subdivide_unbroken f cond lo hi); auto.
    + intros H Hin.
      apply (subdivide_unbroken f cond lo hi t0 v0 t1 (safeEval f cond t1) 0); auto.
      refine (IH _ _ _ _ _ _ _ _ H Hin); try lra; try reflexivity.
      * unfold Rmin. destruct (Rle_dec (t1 + coarse) hi); lra.
      * apply Rmin_r.
  - intros H; inversion H; subst. trivial.
Qed.

(** *** sampleCurveY: no break without a failed evaluation *)

Lemma acceptY_no_break (t0 v0 tm vm t1 v1 : R) (pts : Polyline) :
  In None (acceptY t0 v0 tm vm t1 v1 pts) -> In None pts.
Proof.
  unfold acceptY. intros H.
  repeat match type of H with
  | In None (if ?b then _ else _) => destruct b
  | In None (push _ (Some _)) => apply in_push_break in H
  | In None (match ?o with _ => _ end) => destruct o as [[?l |] |]
  end; exact H.
Qed.

Lemma subdivideY_unbroken (f : Evaluator) (cond : option Predicate) (lo hi : R)
      (t0 : R) (v0 : option R) (t1 : R) (v1 : option R)
      (depth : nat) (pts : Polyline) :
  (forall t, lo <= t <= hi -> safeEvalY f cond t <> None) ->
  lo <= t0 -> t0 <= t1 -> t1 <= hi ->
  v0 = safeEvalY f cond t0 -> v1 = safeEvalY f cond t1 ->
  In None (subdivideY f cond t0 v0 t1 v1 depth pts) -> In None pts.
Proof.
  funelim (subdivideY f cond t0 v0 t1 v1 depth pts);
    intros Hall Hlo Hle Hhi E0 E1 Hin;
    try (exfalso; apply (Hall y0); [lra | symmetry; exact E0]);
    try (exfalso; apply (Hall y1); [lra | symmetry; exact E1]);
    try (exfalso; apply (Hall (0.5 * (y0 + y1))); [lra | assumption]);
    try (apply acceptY_no_break in Hin; exact Hin).
  all: match goal with
       | IH2 : context [subdivideY _ _ _ _ _ _ _ (subdivideY _ _ _ _ _ _ _ _)],
         IH1 : _ |- _ =>
           eapply IH1;
           [exact Hall | lra | lra | lra | exact E0 | symmetry; eassumption |];
           eapply IH2;
           [exact Hall | lra | lra | lra | symmetry; eassumption | exact E1
           | exact Hin]
       end.
Qed.

Lemma sampleLoopY_unbroken (f : Evaluator) (cond : option Predicate) (lo hi : R)
      (fuel : nat) (coarse t0 : R) (v0 : option R) (t1 : R)
      (pts out : Polyline) :
  (forall t, lo <= t <= hi -> safeEvalY f cond t <> None) ->
  0 <= coarse -> lo <= t0 -> t0 <= t1 -> t1 <= hi ->
  v0 = safeEvalY f cond t0 ->
  sampleLoopY f cond fuel hi coarse t0 v0 t1 pts = Some out ->
  In None out -> In None pts.
Proof.
  intros Hall Hc. revert t0 v0 t1 pts.
  induction fuel as [| fuel IH]; intros t0 v0 t1 pts Hlo H01 H1m E0;
    [discriminate |].
  simpl. destruct (Rltb t0 (hi + 1e-9)).
  - destruct (Rgeb t1 hi).
    + intros H; inversion H; subst.
      apply (subdivideY_unbroken f cond lo hi); auto.
    + intros H Hin.
      apply (subdivideY_unbroken f cond lo hi t0 v0 t1 (safeEvalY f cond t1) 0); auto.
      refine (IH _ _ _ _ _ _ _ _ H Hin); try lra; try reflexivity.
      * unfold Rmin. destruct (Rle_dec (t1 + coarse) hi); lra.
      * apply Rmin_r.
  - intros H; inversion H; subst. trivial.
Qed.

(** X17.  Where every evaluation over [[lo, hi]] succeeds (finite,
    within [1e6], accepted by the predicate), the polyline either sampler
    returns has no break: it is one unbroken run of points. *)
Theorem sampling_without_failure_has_no_break
        (f : Evaluator) (cond : option Predicate) (lo hi step : R)
        (fuel : nat) (out : Polyline) :
  lo <= hi ->
  ((forall x, lo <= x <= hi -> safeEval f cond x <> None) ->
   sampleCurve f cond fuel lo hi step = Some out -> ~ In None out) /\
  ((forall y, lo <= y <= hi -> safeEvalY f cond y <> None) ->
   sampleCurveY f cond fuel lo hi step = Some out -> ~ In None out).
Proof.
  intros Hle.
  assert (Hc : 0 <= Rmax step ((hi - lo) / 64)).
  { pose proof (Rmax_r step ((hi - lo) / 64)). lra. }
  assert (H1 : lo <= Rmin (lo + Rmax step ((hi - lo) / 64)) hi).
  { unfold Rmin. destruct (Rle_dec _ hi); lra. }
  split.
  - intros Hall. unfold sampleCurve. cbv zeta.
    destruct (sampleLoop f cond fuel _ _ _ _ _ _) as [pts |] eqn:E; [| discriminate].
    intros H Hin; inversion H; subst. apply cleanUp_subset in Hin.
    apply (sampleLoop_unbroken f cond lo hi _ _ _ _ _ _ _ Hall Hc (Rle_refl lo) H1
             (Rmin_r _ _) eq_refl E) in Hin.
    exact Hin.
  - intros Hall. unfold sampleCurveY. cbv zeta.
    destruct (sampleLoopY f cond fuel _ _ _ _ _ _) as [pts |] eqn:E; [| discriminate].
    intros H Hin; inversion H; subst. apply cleanUp_subset in Hin.
    apply (sampleLoopY_unbroken f cond lo hi _ _ _ _ _ _ _ Hall Hc (Rle_refl lo) H1
             (Rmin_r _ _) eq_refl E) in Hin.
    exact Hin.
Qed.

Lemma sampling_without_failure_has_no_break_witness :
  ~ In None [Some (mkPoint 0 0); Some (mkPoint 0.5 0.5); Some (mkPoint 1 1)].
Proof.
  refine (proj1 (sampling_without_failure_has_no_break
                   Scenes.identityEvaluator None 0 1 1 1 _ _) _
                (sampleCurve_identity 0)).
  - lra.
  - intros x Hx. rewrite safeEval_identity; [discriminate |].
    rewrite Rabs_pos_eq; lra.
Defined.

(** *** A function that is defined nowhere *)

Lemma in_xsOf (l : Polyline) (p : Point) : In (Some p) l -> In (p_x p) (xsOf l).
Proof.
  intros H. unfold xsOf. apply in_flat_map. exists (Some p).
  split; [exact H | left; reflexivity].
Qed.

Lemma in_ysOf (l : Polyline) (p : Point) : In (Some p) l -> In (p_y p) (ysOf l).
Proof.
  intros H. unfold ysOf. apply in_flat_map. exists (Some p).
  split; [exact H | left; reflexivity].
Qed.

Lemma pointless_wellformed_is_empty (l : Polyline) :
  noLeadingBreak l -> (forall p, ~ In (Some p) l) -> l = [].
Proof.
  intros Hlead Hno. destruct l as [| [p |] rest]; [reflexivity | |].
  - exfalso. apply (Hno p). left. reflexivity.
  - destruct Hlead.
Qed.

(** X18.  Over an interval [lo <= hi] on which the evaluation fails at
    every input (it throws, is not finite, exceeds the bound or fails the
    predicate), both samplers return the empty polyline: no break marker is
    left standing alone. *)
Theorem nowhere_defined_curve_is_empty
        (f : Evaluator) (cond : option Predicate) (lo hi step : R) (k : nat) :
  lo <= hi ->
  ((forall x, lo <= x <= hi -> safeEval f cond x = None) ->
   sampleCurve f cond (64 + k) lo hi step = Some []) /\
  ((forall y, lo <= y <= hi -> safeEvalY f cond y = None) ->
   sampleCurveY f cond (64 + k) lo hi step = Some []).
Proof.
  intros Hle.
  assert (Hc : 0 <= Rmax step ((hi - lo) / 64)).
  { pose proof (Rmax_r step ((hi - lo) / 64)). lra. }
  assert (H1 : lo <= Rmin (lo + Rmax step ((hi - lo) / 64)) hi).
  { unfold Rmin. destruct (Rle_dec _ hi); lra. }
  split; intros Hfail.
  - destruct (sampleCurve_returns f cond lo hi step) as (pts & Hloop & Hret & _).
    rewrite Hret. f_equal.
    apply pointless_wellformed_is_empty; [apply cleanUp_wellformed |].
    intros p Hp.
    assert (Hin : lo <= p_x p <= hi).
    { assert (Hb : Forall (fun x => lo <= x <= hi) (xsOf (cleanUp pts))).
      { unfold cleanUp. apply cleanUp_ordered_xs. simpl app.
        refine (sampleLoop_ordered f cond lo _ _ _ _ _ _ _ _ Hc (Rle_refl lo) H1
                  (Rmin_r _ _) _ (Hloop 0%nat)).
        split; constructor. }
      rewrite Forall_forall in Hb. apply Hb, in_xsOf, Hp. }
    apply cleanUp_subset in Hp.
    pose proof (sampleLoop_sampled f cond _ _ _ _ _ _ _ _
                  (fun v Hv => Hv)
                  (fun q (Hq : In (Some q) []) => match Hq with end)
                  (Hloop 0%nat) p Hp) as Hs.
    rewrite (Hfail _ Hin) in Hs. discriminate.
  - destruct (sampleCurveY_returns f cond lo hi step) as (pts & Hloop & Hret & _).
    rewrite Hret. f_equal.
    apply pointless_wellformed_is_empty; [apply cleanUp_wellformed |].
    intros p Hp.
    assert (Hin : lo <= p_y p <= hi).
    { assert (Hb : Forall (fun y => lo <= y <= hi) (ysOf (cleanUp pts))).
      { unfold cleanUp. apply cleanUp_ordered_ys. simpl app.
        refine (sampleLoopY_ordered f cond lo _ _ _ _ _ _ _ _ Hc (Rle_refl lo) H1
                  (Rmin_r _ _) _ (Hloop 0%nat)).
        split; constructor. }
      rewrite Forall_forall in Hb. apply Hb, in_ysOf, Hp. }
    apply cleanUp_subset in Hp.
    pose proof (sampleLoopY_sampled f cond _ _ _ _ _ _ _ _
                  (fun v Hv => Hv)
                  (fun q (Hq : In (Some q) []) => match Hq with end)
                  (Hloop 0%nat) p Hp) as Hs.
    rewrite (Hfail _ Hin) in Hs. discriminate.
Qed.

Lemma nowhere_defined_curve_is_empty_witness :
  sampleCurve Scenes.throwingEvaluator None 64 0 1 1 = Some [].
Proof.
  refine (proj1 (nowhere_defined_curve_is_empty
                   Scenes.throwingEvaluator None 0 1 1 0 _) _); [lra |].
  intros x _. reflexivity.
Defined.

End SamplerMore.

(* ===================================================================== *)
(** ** render.js: what [drawCurve] strokes *)
(* ===================================================================== *)

Module RenderFacts.
Import Utils Physics RenderJs.

(** A line of the path joins the pixels of the two ends of a segment. *)
Lemma tracePath_lines (wd : World) (fx fy : R -> R) (tail : list CanvasCall) :
  (forall x y, toPixel wd x y = (Some (fx x), Some (fy y))) ->
  (forall cur, pathLines cur tail = []) ->
  forall points,
    (forall a,
        pathLines (Some (fx (p_x a), fy (p_y a)))
                  (tracePath wd true points ++ tail)
        = map (fun s => ((fx (p_x (fst s)), fy (p_y (fst s))),
                          (fx (p_x (snd s)), fy (p_y (snd s)))))
              (segmentsOf (Some a :: points))) /\
    (forall cur,
        pathLines cur (tracePath wd false points ++ tail)
        = map (fun s => ((fx (p_x (fst s)), fy (p_y (fst s))),
                          (fx (p_x (snd s)), fy (p_y (snd s)))))
              (segmentsOf points)).
Proof.
  intros Hpix Htail points.
  induction points as [| o rest [IHt IHf]].
  - split; intros; simpl; apply Htail.
  - assert (Hf : forall cur,
               pathLines cur (tracePath wd false (o :: rest) ++ tail)
               = map (fun s => ((fx (p_x (fst s)), fy (p_y (fst s))),
                                 (fx (p_x (snd s)), fy (p_y (snd s)))))
                     (segmentsOf (o :: rest))).
    { intros cur. destruct o as [b |].
      - cbn [tracePath app]. rewrite Hpix. cbn [pathLines]. apply IHt.
      - cbn [tracePath]. rewrite IHf.
        destruct rest as [| c rest']; reflexivity. }
    split; [| exact Hf].
    intros a. destruct o as [b |].
    + cbn [tracePath app]. rewrite Hpix. cbn [pathLines].
      rewrite IHt. reflexivity.
    + cbn [tracePath]. rewrite IHf.
      destruct rest as [| c rest']; reflexivity.
Qed.

(** X19.  On a world with non-empty extent the lines of the path that
    [drawCurve] strokes are, in order, the images under [toPixel] of the
    segments the contact search of [updateBalls] visits on the same
    polyline: neighbouring points are joined, and nothing is drawn across a
    break. *)
Theorem drawn_lines_are_the_collision_segments
        (wd : World) (points : Polyline) (color : string) (thickness : R)
        (dashed : bool) :
  w_xMax wd <> w_xMin wd -> w_yMax wd <> w_yMin wd ->
  Forall2 (fun line seg =>
             toPixel wd (p_x (fst seg)) (p_y (fst seg))
             = (Some (fst (fst line)), Some (snd (fst line))) /\
             toPixel wd (p_x (snd seg)) (p_y (snd seg))
             = (Some (fst (snd line)), Some (snd (snd line))))
          (pathLines None (drawCurve wd points color thickness dashed))
          (segmentsOf points).
Proof.
  intros Hx Hy.
  set (fx := fun x => (x - w_xMin wd) / (w_xMax wd - w_xMin wd) * w_width wd).
  set (fy := fun y => w_height wd
                      - (y - w_yMin wd) / (w_yMax wd - w_yMin wd) * w_height wd).
  assert (Hpix : forall x y, toPixel wd x y = (Some (fx x), Some (fy y))).
  { intros x y. unfold toPixel, quotient. cbv zeta.
    destruct (Req_dec_T (w_xMax wd - w_xMin wd) 0); [lra |].
    destruct (Req_dec_T (w_yMax wd - w_yMin wd) 0); [lra |]. reflexivity. }
  unfold drawCurve. cbn [app pathLines].
  assert (Htail : forall cur,
             pathLines cur (Stroke :: (if dashed then [SetLineDash []] else []))
             = []).
  { intros cur. destruct dashed; reflexivity. }
  rewrite (proj2 (tracePath_lines wd fx fy _ Hpix Htail points) None).
  induction (segmentsOf points) as [| s l IH]; constructor; [| exact IH].
  cbn [fst snd]. rewrite !Hpix. split; reflexivity.
Qed.

Lemma drawn_lines_are_the_collision_segments_witness :
  Forall2 (fun line seg =>
             toPixel newWorld (p_x (fst seg)) (p_y (fst seg))
             = (Some (fst (fst line)), Some (snd (fst line))) /\
             toPixel newWorld (p_x (snd seg)) (p_y (snd seg))
             = (Some (fst (snd line)), Some (snd (snd line))))
          (pathLines None
             (drawCurve newWorld
                [Some (mkPoint 0 0); Some (mkPoint 1 1); None; Some (mkPoint 2 0)]
                "#4ade80" 2 false))
          (segmentsOf
             [Some (mkPoint 0 0); Some (mkPoint 1 1); None; Some (mkPoint 2 0)]).
Proof.
  apply drawn_lines_are_the_collision_segments;
    unfold newWorld; cbn [w_xMin w_xMax w_yMin w_yMax]; lra.
Defined.

End RenderFacts.

(* ===================================================================== *)
(** ** game.js: frames, bursts, submitted equations *)
(* ===================================================================== *)

Module GameFacts.
Import Utils Physics EquationsJs GameJs CollectionMore SamplerFacts.

(** *** Culling *)

(** The filter keeps the balls that carry no flag and whose circle has not
    left the world, the very test of [updateBalls]. *)
Lemma keepBall_spec (wd : World) (b : Ball) :
  keepBall wd b = (negb (b_oob b) && negb (exited b (boundsOf wd)))%bool.
Proof.
  unfold keepBall, exited, boundsOf, Rgeb, Rgtb, Rleb, Rltb.
  cbn [xMin xMax yMin yMax].
  destruct (b_oob b); [reflexivity |]. cbv zeta.
  repeat match goal with
         | |- context [Rle_dec ?a ?c] => destruct (Rle_dec a c)
         | |- context [Rlt_dec ?a ?c] => destruct (Rlt_dec a c)
         end; cbn; try reflexivity; lra.
Qed.

Lemma Forall_skipn_keeps {A : Type} (P : A -> Prop) (n : nat) (l : list A) :
  Forall P l -> Forall P (skipn n l).
Proof.
  revert l. induction n as [| n IH]; intros l H; [exact H |].
  destruct l as [| x l]; [constructor |]. inversion H; subst. simpl. auto.
Qed.

Lemma trimBalls_spec (P : Ball -> Prop) (bs : list Ball) :
  Forall P bs ->
  Forall P (trimBalls bs) /\ (List.length (trimBalls bs) <= 150)%nat.
Proof.
  intros H. unfold trimBalls.
  destruct (150 <? List.length bs)%nat eqn:E.
  - apply Nat.ltb_lt in E. split; [apply Forall_skipn_keeps; exact H |].
    rewrite length_skipn. lia.
  - apply Nat.ltb_ge in E. split; assumption.
Qed.

Lemma collection_only_marks (now : nat -> R) (clock : nat) (bs : list Ball)
      (stars : list Star) (radius : R) :
  let '(_, _, bs', _) := checkStarCollection now clock bs stars radius in
  Forall2 onlyMarked bs bs'.
Proof.
  unfold checkStarCollection.
  pose proof (scanStars_spec now radius bs stars
                (mkCollectState bs clock 0%nat false)
                (onlyMarked_list_refl bs)) as Hspec.
  destruct (scanStars now radius stars _) as [stars' st'].
  exact (proj1 Hspec).
Qed.

Lemma onlyMarked_inside (bounds : Bounds) (l l' : list Ball) :
  Forall2 onlyMarked l l' ->
  Forall (fun b => b_oob b = false /\ exited b bounds = false) l ->
  Forall (fun b => b_oob b = false /\ exited b bounds = false) l' /\
  List.length l' = List.length l.
Proof.
  intros H. induction H as [| b b' l l' Hb Hl IH]; intros Hin.
  - split; [constructor | reflexivity].
  - inversion Hin as [| ? ? [Ho He] Hrest]; subst.
    destruct (IH Hrest) as [IH1 IH2].
    split; [| simpl; congruence].
    constructor; [| exact IH1].
    destruct Hb as (Hx & Hy & _ & _ & Hr & Hoob & _).
    split; [congruence |].
    unfold exited in *. rewrite Hx, Hy, Hr. exact He.
Qed.

(** What a frame leaves alone. *)
Lemma spawnPhase_keeps (g : Game) (dt : R) :
  world (spawnPhase g dt) = world g /\ curves (spawnPhase g dt) = curves g /\
  gravity (spawnPhase g dt) = gravity g /\ dropX (spawnPhase g dt) = dropX g /\
  stars (spawnPhase g dt) = stars g /\ clock (spawnPhase g dt) = clock g /\
  spawnInterval (spawnPhase g dt) = spawnInterval g /\
  burstTotal (spawnPhase g dt) = burstTotal g.
Proof.
  unfold spawnPhase. destruct (launched g); [| repeat split; reflexivity].
  cbv zeta. cbn [setSpawn spawned burstTotal spawnTimer spawnInterval launched].
  destruct ((spawned g <? burstTotal g)%nat
            && Rgeb (spawnTimer g + dt) (spawnInterval g))%bool;
    cbn [spawnBall setSpawn spawned burstTotal spawnTimer spawnInterval launched
         world balls stars curves gravity dropX clock];
    match goal with |- context [(?a <=? ?b)%nat] => destruct (a <=? b)%nat end;
    repeat split; reflexivity.
Qed.

Lemma updateFrame_keeps (now : nat -> R) (g : Game) (dt : R) :
  let g' := fst (updateFrame now g dt) in
  world g' = world g /\ curves g' = curves g /\ gravity g' = gravity g /\
  dropX g' = dropX g /\ burstTotal g' = burstTotal g /\
  spawned g' = spawned (spawnPhase g dt) /\
  launched g' = launched (spawnPhase g dt).
Proof.
  unfold updateFrame. cbv zeta.
  destruct (spawnPhase_keeps g dt) as (Hw & Hc & Hg & Hd & _ & _ & _ & Hb).
  destruct (checkStarCollection now _ _ _ 0.35) as [[[res stars'] balls'] clock'].
  cbn [fst world curves gravity dropX burstTotal spawned launched].
  repeat split; assumption || reflexivity.
Qed.

Lemma updateFrame_balls (now : nat -> R) (g : Game) (dt : R) :
  let g' := fst (updateFrame now g dt) in
  Forall (fun b => b_oob b = false /\ exited b (boundsOf (world g)) = false)
         (balls g') /\
  (List.length (balls g') <= 150)%nat.
Proof.
  unfold updateFrame. cbv zeta.
  destruct (spawnPhase_keeps g dt) as (Hw & _).
  set (g1 := spawnPhase g dt) in *.
  set (moved := updateBalls (balls g1) dt (gravity g1) (boundsOf (world g1))
                            (map asCurve (curves g1))).
  assert (Hkept : Forall (fun b => b_oob b = false /\
                                   exited b (boundsOf (world g)) = false)
                         (filter (keepBall (world g1)) moved)).
  { apply Forall_forall. intros b Hb. apply filter_In in Hb.
    destruct Hb as [_ Hk]. rewrite keepBall_spec, Hw in Hk.
    apply andb_true_iff in Hk. destruct Hk as [H1 H2].
    apply negb_true_iff in H1, H2. split; assumption. }
  destruct (trimBalls_spec _ _ Hkept) as [Htrim Hlen].
  pose proof (collection_only_marks now (clock g1)
                (trimBalls (filter (keepBall (world g1)) moved))
                (stars g1) 0.35) as Hmark.
  destruct (checkStarCollection now _ _ _ 0.35) as [[[res stars'] balls'] clock'].
  cbn [fst balls].
  destruct (onlyMarked_inside _ _ _ Hmark Htrim) as [Hin Hl].
  split; [exact Hin | lia].
Qed.

(** X20.  When [update] has culled, trimmed and collected, every ball
    left in the game carries no out-of-bounds flag and has its circle inside
    the world rectangle or touching it, and there are at most 150 balls; the
    frame changes neither the world, nor the curves, nor gravity, nor the
    dropper. *)
Theorem frame_leaves_only_inside_balls (now : nat -> R) (g : Game) (dt : R) :
  let g' := fst (updateFrame now g dt) in
  Forall (fun b => b_oob b = false /\ exited b (boundsOf (world g')) = false)
         (balls g') /\
  (List.length (balls g') <= 150)%nat /\
  world g' = world g /\ curves g' = curves g /\ gravity g' = gravity g /\
  dropX g' = dropX g.
Proof.
  pose proof (updateFrame_balls now g dt) as Hb.
  pose proof (updateFrame_keeps now g dt) as Hk.
  cbv zeta in *. destruct Hb as [Hin Hlen].
  destruct Hk as (Hw & Hc & Hg & Hd & _).
  rewrite Hw. repeat split; assumption.
Qed.

(** *** The out-of-bounds branch *)










(** *** Bursts *)

Lemma spawnPhase_count (g : Game) (dt : R) :
  (spawned g <= burstTotal g)%nat ->
  (spawned g <= spawned (spawnPhase g dt))%nat /\
  (spawned (spawnPhase g dt) <= S (spawned g))%nat /\
  (spawned (spawnPhase g dt) <= burstTotal g)%nat /\
  (launched g = false -> spawnPhase g dt = g) /\
  (launched (spawnPhase g dt) = true ->
   (spawned (spawnPhase g dt) < burstTotal g)%nat).
Proof.
  intros Hle. unfold spawnPhase. destruct (launched g) eqn:Hl.
  - cbv zeta. cbn [setSpawn spawned burstTotal spawnTimer spawnInterval launched].
    destruct (spawned g <? burstTotal g)%nat eqn:Hlt;
      [apply Nat.ltb_lt in Hlt | apply Nat.ltb_ge in Hlt];
      destruct (Rgeb (spawnTimer g + dt) (spawnInterval g));
      cbn [andb spawnBall setSpawn spawned burstTotal spawnTimer spawnInterval
           launched];
      match goal with
      | |- context [(?a <=? ?b)%nat] =>
          destruct (a <=? b)%nat eqn:Hge;
          [apply Nat.leb_le in Hge | apply Nat.leb_gt in Hge]
      end;
      cbn [spawnBall setSpawn spawned launched burstTotal]; rewrite ?Hl;
      repeat split; try lia; try discriminate; intros _; lia.
  - repeat split; try lia; try reflexivity. rewrite Hl. discriminate.
Qed.

Lemma runFrames_count (now : nat -> R) (dts : list R) (g : Game) :
  (spawned g <= burstTotal g)%nat ->
  let g' := runFrames now dts g in
  burstTotal g' = burstTotal g /\
  (spawned g <= spawned g')%nat /\
  (spawned g' <= burstTotal g)%nat /\
  (spawned g' <= spawned g + List.length dts)%nat /\
  (dts <> [] -> launched g' = true -> (spawned g' < burstTotal g)%nat).
Proof.
  revert g. induction dts as [| dt more IH]; intros g Hle; cbv zeta.
  - cbn [runFrames List.length]. repeat split; try lia. intros H; contradiction.
  - cbn [runFrames List.length].
    pose proof (updateFrame_keeps now g dt) as Hk. cbv zeta in Hk.
    destruct Hk as (_ & _ & _ & _ & Hb & Hs & Hl).
    destruct (spawnPhase_count g dt Hle) as (C1 & C2 & C3 & _ & C5).
    set (g1 := fst (updateFrame now g dt)) in *.
    assert (Hle1 : (spawned g1 <= burstTotal g1)%nat) by (rewrite Hb, Hs; exact C3).
    specialize (IH g1 Hle1). cbv zeta in IH.
    destruct IH as (I1 & I2 & I3 & I4 & I5).
    rewrite Hb in I1, I3, I5. rewrite Hs in I2, I4.
    split; [exact I1 |]. split; [lia |]. split; [exact I3 |]. split; [lia |].
    intros _ Hon. destruct more as [| dt' more'].
    + cbn [runFrames] in *. rewrite Hs. apply C5. rewrite <- Hl. exact Hon.
    + apply I5; [discriminate | exact Hon].
Qed.

(** X22.  After [launchBurst(count)] a run of frames without a change of
    level spawns at most [count] balls and at most one per frame, it leaves [burstTotal] at
    [count], and once a frame has run the game is still launched only while
    fewer than [count] balls have been spawned; a game that is not launched
    spawns nothing. *)
Theorem burst_spawns_at_most_count
        (now : nat -> R) (g : Game) (count : nat) (dts : list R) :
  let g' := runFrames now dts (launchBurst g count) in
  burstTotal g' = count /\
  (spawned g' <= count)%nat /\
  (spawned g' <= List.length dts)%nat /\
  (dts <> [] -> launched g' = true -> (spawned g' < count)%nat) /\
  (forall dt, launched g = false -> spawnPhase g dt = g).
Proof.
  cbv zeta.
  assert (H0 : (spawned (launchBurst g count) <= burstTotal (launchBurst g count))%nat)
    by (cbn; lia).
  destruct (runFrames_count now dts (launchBurst g count) H0)
    as (A1 & A2 & A3 & A4 & A5).
  cbn [launchBurst setSpawn burstTotal spawned] in A1, A3, A4, A5.
  split; [exact A1 |]. split; [exact A3 |]. split; [lia |]. split; [exact A5 |].
  intros dt Hoff. unfold spawnPhase. rewrite Hoff. reflexivity.
Qed.

(** *** Submitted equations *)

Lemma pickCurveColor_in_palette (g : Game) : In (pickCurveColor g) palette.
Proof.
  unfold pickCurveColor. apply nth_In.
  apply Nat.mod_upper_bound. discriminate.
Qed.

(** X23.  [submitEquation] returns for every input: a text the parser
    rejects leaves the game as it is and yields the parser's message; a text
    it accepts appends exactly one curve behind the earlier ones, in a colour
    of the palette, whose polyline is well formed (no leading break, no two
    breaks in a row, neighbouring points more than [1e-9] apart) and holds
    only values of the parsed function. *)
Theorem submit_appends_one_curve_or_rejects
        (E : Engine) (g : Game) (input : string) (k : nat) :
  match parseEquationToFunction E input with
  | Err message => submitEquation E (64 + k) g input = Some (g, Rejected message)
  | Ok parsed =>
      exists pts,
        submitEquation E (64 + k) g input
        = Some (setCurves g
                  (curves g ++ [mkGameCurve (expr parsed) (f parsed) (df parsed)
                                            pts (pickCurveColor g) 2]),
                Accepted) /\
        In (pickCurveColor g) palette /\
        noLeadingBreak pts /\ neighboursOK pts /\
        (forall p, In (Some p) pts ->
                   match type parsed with
                   | yOfX => f parsed (p_x p) = Returns (VNum (p_y p))
                   | xOfY => f parsed (p_y p) = Returns (VNum (p_x p))
                   end)
  end.
Proof.
  unfold submitEquation.
  destruct (parseEquationToFunction E input) as [parsed | message]; [| reflexivity].
  destruct (type parsed).
  - destruct (sampleCurve_returns (f parsed) (cond parsed)
                (w_xMin (world g)) (w_xMax (world g)) 0.05)
      as (pts & Hloop & Hret & _).
    exists (cleanUp pts). rewrite Hret.
    split; [reflexivity |]. split; [apply pickCurveColor_in_palette |].
    destruct (cleanUp_wellformed pts) as [W1 W2].
    split; [exact W1 |]. split; [exact W2 |].
    intros p Hp. apply cleanUp_subset in Hp.
    pose proof (sampleLoop_sampled (f parsed) (cond parsed) _ _ _ _ _ _ _ _
                  (fun v Hv => Hv)
                  (fun q (Hq : In (Some q) []) => match Hq with end)
                  (Hloop 0%nat) p Hp) as Hs.
    apply safeEval_spec in Hs. exact (proj1 Hs).
  - destruct (sampleCurveY_returns (f parsed) (cond parsed)
                (w_yMin (world g)) (w_yMax (world g)) 0.05)
      as (pts & Hloop & Hret & _).
    exists (cleanUp pts). rewrite Hret.
    split; [reflexivity |]. split; [apply pickCurveColor_in_palette |].
    destruct (cleanUp_wellformed pts) as [W1 W2].
    split; [exact W1 |]. split; [exact W2 |].
    intros p Hp. apply cleanUp_subset in Hp.
    pose proof (sampleLoopY_sampled (f parsed) (cond parsed) _ _ _ _ _ _ _ _
                  (fun v Hv => Hv)
                  (fun q (Hq : In (Some q) []) => match Hq with end)
                  (Hloop 0%nat) p Hp) as Hs.
    apply safeEvalY_spec in Hs. exact (proj1 Hs).
Qed.

(** *** The beginner helper *)

Lemma submit_total (E : Engine) (g : Game) (input : string) (k : nat) :
  exists g' r, submitEquation E (64 + k) g input = Some (g', r).
Proof.
  unfold submitEquation.
  destruct (parseEquationToFunction E input) as [parsed | message];
    [| eexists; eexists; reflexivity].
  destruct (type parsed).
  - destruct (sampleCurve_returns (f parsed) (cond parsed)
                (w_xMin (world g)) (w_xMax (world g)) 0.05) as (pts & _ & Hret & _).
    rewrite Hret. eexists; eexists; reflexivity.
  - destruct (sampleCurveY_returns (f parsed) (cond parsed)
                (w_yMin (world g)) (w_yMax (world g)) 0.05) as (pts & _ & Hret & _).
    rewrite Hret. eexists; eexists; reflexivity.
Qed.

(** X24.  With stars on the board, [seedBeginnerHelper] throws whenever
    the star generator chose the quadratic or the sinusoidal pattern: the
    object it stored has no property [m], and [toFixed] is called on it.  With
    the linear pattern the helper returns the text of the line. *)
Theorem helper_throws_on_curved_patterns
        (E : Engine) (toFixed2 : R -> string) (g : Game) :
  stars g <> [] ->
  (forall a b c fuel,
      beginnerLine g = Some (Quadratic a b c) \/
      beginnerLine g = Some (Sinusoidal a b c) ->
      seedBeginnerHelper E toFixed2 fuel g = Some Throws) /\
  (forall m b k,
      beginnerLine g = Some (Linear m b) ->
      exists g',
        seedBeginnerHelper E toFixed2 (64 + k) g
        = Some (Returns (g', Some ("y = " ++ toFixed2 m ++ "x + " ++ toFixed2 b)%string)) /\
        option_map fst
          (submitEquation E (64 + k) g
             ("y = " ++ toFixed2 m ++ "x + " ++ toFixed2 b)%string)
        = Some g').
Proof.
  intros Hstars. split.
  - intros a b c fuel Hline. unfold seedBeginnerHelper.
    destruct (stars g) as [| s rest]; [contradiction |].
    destruct Hline as [-> | ->]; reflexivity.
  - intros m b k Hline. unfold seedBeginnerHelper.
    destruct (stars g) as [| s rest]; [contradiction |].
    rewrite Hline. cbn [line_m line_b].
    pose proof (submit_total E g ("y = " ++ toFixed2 m ++ "x + " ++ toFixed2 b)%string k)
      as [g' [r Hsub]].
    rewrite Hsub. exists g'. split; reflexivity.
Qed.

Lemma helper_throws_on_curved_patterns_witness :
  seedBeginnerHelper Scenes.linearEngine (fun _ => "0.00"%string) 0 Scenes.curvedGame
  = Some Throws.
Proof.
  refine (proj1 (helper_throws_on_curved_patterns Scenes.linearEngine
                   (fun _ => "0.00"%string) Scenes.curvedGame _)
                0.1 0.5 0 0%nat (or_introl eq_refl)).
  discriminate.
Defined.

(** *** The world after a resize *)

(** X25.  After [resize] on a canvas of positive size, [toPixel] scales
    every distance by the same factor [height / 16]: the pixel distance of
    the images of two world points is that factor times their distance, and
    it is the factor [width / (xMax - xMin)] by which [drawBall] scales a
    radius. *)
Theorem resized_world_scales_uniformly
        (g g' : Game) (cw ch : R) :
  0 < cw -> 0 < ch -> resize g cw ch = Some g' ->
  w_width (world g') / (w_xMax (world g') - w_xMin (world g')) = ch / 16 /\
  forall x1 y1 x2 y2,
    exists px1 py1 px2 py2,
      toPixel (world g') x1 y1 = (Some px1, Some py1) /\
      toPixel (world g') x2 y2 = (Some px2, Some py2) /\
      hypot (px2 - px1) (py2 - py1) = ch / 16 * hypot (x2 - x1) (y2 - y1).
Proof.
  intros Hw Hh Hres. unfold resize, quotient in Hres.
  destruct (Req_dec_T ch 0) as [Hz | Hz]; [lra |].
  inversion Hres; subst g'; clear Hres.
  cbn [world setCanvasSize w_xMin w_xMax w_yMin w_yMax w_width w_height].
  assert (Hext : 8 * (cw / ch) - - (8 * (cw / ch)) <> 0).
  { assert (0 < cw / ch) by (apply Rdiv_lt_0_compat; assumption). lra. }
  split; [field; lra |].
  intros x1 y1 x2 y2.
  unfold toPixel, quotient.
  cbn [setCanvasSize w_xMin w_xMax w_yMin w_yMax w_width w_height]. cbv zeta.
  repeat match goal with
         | |- context [Req_dec_T ?a 0] => destruct (Req_dec_T a 0); [lra |]
         end.
  do 4 eexists. split; [reflexivity |]. split; [reflexivity |].
  apply hypot_unique.
  - apply Rmult_le_pos; [lra | apply hypot_nonneg].
  - transitivity (ch / 16 * (ch / 16)
                  * (hypot (x2 - x1) (y2 - y1) * hypot (x2 - x1) (y2 - y1)));
      [ring |].
    rewrite hypot_sqr. field. lra.
Qed.

Lemma resized_world_scales_uniformly_witness :
  exists g',
    resize Scenes.curvedGame 900 600 = Some g' /\
    w_width (world g') / (w_xMax (world g') - w_xMin (world g')) = 600 / 16.
Proof.
  eexists. split; [unfold resize, quotient;
                   destruct (Req_dec_T 600 0); [lra | reflexivity] |].
  refine (proj1 (resized_world_scales_uniformly Scenes.curvedGame _ 900 600 _ _ _));
    [lra | lra |].
  unfold resize, quotient. destruct (Req_dec_T 600 0); [lra | reflexivity].
Defined.

(** X26.  After [resize] on a canvas at most sixteen times as high as it
    is wide, every [moveDropper] leaves the dropper at least [0.5] inside the
    left and right edges of the world, so that the ball [spawnBall] makes
    there, of radius [0.12] and [0.5] under the top edge, lies inside the
    bounds [updateBalls] checks. *)
Theorem dropper_stays_over_the_world (g g1 : Game) (cw ch x : R) :
  0 < ch -> ch <= 16 * cw -> resize g cw ch = Some g1 ->
  let g2 := moveDropper g1 x in
  w_xMin (world g2) + 0.5 <= dropX g2 <= w_xMax (world g2) - 0.5 /\
  dropX g1 = 0 /\
  exited (setVel (newBall (dropX g2) (w_yMax (world g2) - 0.5) 0.12) 0 0)
         (boundsOf (world g2)) = false.
Proof.
  intros Hh Hasp Hres. unfold resize, quotient in Hres.
  destruct (Req_dec_T ch 0) as [Hz | Hz]; [lra |].
  inversion Hres; subst g1; clear Hres.
  assert (Ha : / 16 <= cw / ch).
  { apply Rmult_le_reg_r with (r := ch); [exact Hh |].
    replace (cw / ch * ch) with cw by (field; lra). lra. }
  cbv zeta. unfold moveDropper, exited, boundsOf, newBall, setVel, Rgtb.
  cbn [setDropX world dropX setCanvasSize w_xMin w_xMax w_yMin w_yMax
       b_x b_y b_r xMin xMax yMin yMax].
  set (d := Rmax (- (8 * (cw / ch)) + 0.5) (Rmin (8 * (cw / ch) - 0.5) x)).
  assert (Hd : - (8 * (cw / ch)) + 0.5 <= d <= 8 * (cw / ch) - 0.5).
  { unfold d, Rmax, Rmin.
    destruct (Rle_dec (8 * (cw / ch) - 0.5) x);
      match goal with |- context [Rle_dec ?a ?b] => destruct (Rle_dec a b) end;
      lra. }
  split; [exact Hd |]. split; [reflexivity |].
  rewrite !Rltb_false by lra. reflexivity.
Qed.

Lemma dropper_stays_over_the_world_witness :
  exists g1,
    resize Scenes.curvedGame 900 600 = Some g1 /\
    w_xMin (world (moveDropper g1 100)) + 0.5 <= dropX (moveDropper g1 100)
    <= w_xMax (world (moveDropper g1 100)) - 0.5.
Proof.
  eexists. split; [unfold resize, quotient;
                   destruct (Req_dec_T 600 0); [lra | reflexivity] |].
  refine (proj1 (dropper_stays_over_the_world Scenes.curvedGame _ 900 600 100 _ _ _));
    [lra | lra |].
  unfold resize, quotient. destruct (Req_dec_T 600 0); [lra | reflexivity].
Defined.

End GameFacts.
